(** * FastSin: a shallow embedding of [fast_sin.h]

    The header defines one class template, [FastSin<T, Degree>], whose call
    operator approximates the sine of an angle given in radians.  The
    operator first reduces the angle with the help of a small cache kept in
    the object (the number of full turns of the previous angle), then folds
    the reduced angle into the first quadrant and evaluates an odd minimax
    polynomial of degree 7 or 9.

    The embedding follows the C++ text statement by statement.

    - [double] is IEEE 754 binary64 and [float] is binary32, both with
      round-to-nearest-even, as [SpecFloat] defines them; every operation
      is evaluated in the type C++ gives it (no excess precision, no fused
      multiply-add).
    - [int] is a 32-bit two's complement integer.  The two operations of
      the source that have undefined behaviour outside that range (the
      conversion of a [double] to [int], and [++]/[--] on an [int]) are
      modelled as errors, and so are the end of the function reached
      without a [return] and the read of an unassigned local variable.
    - The object is a record; the call operator takes the record and the
      angle and returns the new record together with the value returned. *)

From Stdlib Require Import ZArith Bool List Lia QArith Qabs Qreals Reals Lra.
From Stdlib Require Import Floats.SpecFloat.
Import ListNotations.

Local Open Scope Z_scope.

(** ** Floating-point formats *)

Module IEEE.

Record format : Set := Format { prec : Z; emax : Z }.

(** [float] *)
Definition binary32 : format := Format 24 128.
(** [double] *)
Definition binary64 : format := Format 53 1024.

Definition format_eqb (S U : format) : bool :=
  (prec S =? prec U) && (emax S =? emax U).

Definition add (F : format) := SFadd (prec F) (emax F).
Definition sub (F : format) := SFsub (prec F) (emax F).
Definition mul (F : format) := SFmul (prec F) (emax F).
Definition div (F : format) := SFdiv (prec F) (emax F).

(** Rounding of a value to the format [F] (to nearest, ties to even). *)
Definition round (F : format) (x : spec_float) : spec_float :=
  match x with
  | S754_finite s m e => binary_round (prec F) (emax F) s m e
  | _ => x
  end.

(** Conversion from the type [S] to the type [U]: nothing happens between
    equal types, the value is rounded to the target otherwise (exactly,
    when the target is wider). *)
Definition cast (S U : format) (x : spec_float) : spec_float :=
  if format_eqb S U then x else round U x.

(** The value of an integer as a floating-point number of format [F]. *)
Definition of_Z (F : format) (n : Z) : spec_float :=
  binary_normalize (prec F) (emax F) n 0 false.

(** The integer part of a finite number, rounded toward zero. *)
Definition truncate (x : spec_float) : option Z :=
  match x with
  | S754_zero _ => Some 0
  | S754_finite s m e => Some (cond_Zopp s (Z.shiftl (Zpos m) e))
  | S754_infinity _ | S754_nan => None
  end.

(** C++ comparison operators; each is false when an operand is a NaN. *)
Definition lt (x y : spec_float) : bool := SFltb x y.
Definition le (x y : spec_float) : bool := SFleb x y.
Definition gt (x y : spec_float) : bool := SFltb y x.
Definition ge (x y : spec_float) : bool := SFleb y x.

Definition is_finite (x : spec_float) : bool :=
  match x with
  | S754_zero _ | S754_finite _ _ _ => true
  | S754_infinity _ | S754_nan => false
  end.

Definition is_nan (x : spec_float) : bool :=
  match x with S754_nan => true | _ => false end.

(** The exact rational value of a finite number (0 for the others). *)
Definition to_Q (x : spec_float) : Q :=
  match x with
  | S754_finite s m e =>
      match e with
      | Z0 => inject_Z (cond_Zopp s (Zpos m))
      | Zpos p => inject_Z (cond_Zopp s (Zpos m) * Z.pow_pos 2 p)
      | Zneg p => Qmake (cond_Zopp s (Zpos m)) (Pos.pow 2 p)
      end
  | _ => 0%Q
  end.

(** A decimal literal [num / 10^k] of type [double].  Numerator and
    denominator of every literal of the source are integers below 2^53,
    hence exact, and one correctly rounded division gives the double
    nearest to the literal. *)
Definition literal (num : Z) (k : Z) : spec_float :=
  div binary64 (of_Z binary64 num) (of_Z binary64 (10 ^ k)).

(** [x] is finite and no further from [q] than half a unit of its last
    place. *)
Definition nearest (x : spec_float) (q : Q) : bool :=
  match x with
  | S754_finite _ m e =>
      Qle_bool (Qabs (to_Q x - q) * 2) (to_Q (S754_finite false 1 e))
  | _ => false
  end.

End IEEE.

Import IEEE.

Abbreviation double := binary64 (only parsing).

(** Arithmetic at type [double]. *)
Definition dadd := add double.
Definition dsub := sub double.
Definition dmul := mul double.
Definition ddiv := div double.

(** ** Undefined behaviour

    A call either returns, or runs into one of the situations in which
    the C++ text has no defined meaning. *)

Inductive fault : Set :=
| FloatToIntOutOfRange   (* double -> int conversion of a value outside int *)
| SignedOverflow         (* ++ on INT_MAX or -- on INT_MIN *)
| MissingReturn          (* control reaches the end of a non-void function *)
| IndeterminateRead.     (* a local variable is read before it is written *)

Inductive outcome (A : Type) : Type :=
| Returns (a : A)
| Undefined (f : fault).
Arguments Returns {A} a.
Arguments Undefined {A} f.

Definition bind {A B : Type} (c : outcome A) (k : A -> outcome B) : outcome B :=
  match c with
  | Returns a => k a
  | Undefined f => Undefined f
  end.

Notation "x <- c ;; k" := (bind c (fun x => k))
  (at level 61, c at next level, right associativity).

(** ** The type [int] *)

Definition INT_MIN : Z := - 2 ^ 31.
Definition INT_MAX : Z := 2 ^ 31 - 1.

Definition in_int (n : Z) : bool := (INT_MIN <=? n) && (n <=? INT_MAX).

(** [double] to [int]: the fractional part is discarded; the behaviour is
    undefined when the truncated value does not fit. *)
Definition double_to_int (x : spec_float) : outcome Z :=
  match truncate x with
  | Some n => if in_int n then Returns n else Undefined FloatToIntOutOfRange
  | None => Undefined FloatToIntOutOfRange
  end.

(** [int] to [double]: exact. *)
Definition int_to_double (n : Z) : spec_float := of_Z double n.

(** [++n] and [--n]. *)
Definition incr (n : Z) : outcome Z :=
  if n <? INT_MAX then Returns (n + 1) else Undefined SignedOverflow.
Definition decr (n : Z) : outcome Z :=
  if INT_MIN <? n then Returns (n - 1) else Undefined SignedOverflow.

(** ** Constants of the class (lines 82-86) *)

Definition zero : spec_float := S754_zero false.                 (* 0.0 *)
Definition one : spec_float := of_Z double 1.                    (* 1.0 *)

Definition FAST_SIN_PI : spec_float := literal 3141592653589793 15.
Definition PI_DIV_2 : spec_float := ddiv FAST_SIN_PI (of_Z double 2).
Definition PI_MULT_3_DIV_2 : spec_float :=
  ddiv (dmul FAST_SIN_PI (of_Z double 3)) (of_Z double 2).
Definition PI_MULT_2 : spec_float := dmul (of_Z double 2) FAST_SIN_PI.
Definition PI_MULT_4 : spec_float := dmul (of_Z double 4) FAST_SIN_PI.

(** ** The class template *)

Module FastSin.

(** The data members (lines 89-92).  [m_previousAngle] has type [T],
    [m_previousFullCycklesAngle] has type [double]. *)
Record t : Set := Build {
  m_hasValidPreviousAngle : bool;
  m_previousAngle : spec_float;
  m_previousFullCyckles : Z;
  m_previousFullCycklesAngle : spec_float
}.

Definition set_valid (b : bool) (o : t) : t :=
  Build b (m_previousAngle o) (m_previousFullCyckles o)
        (m_previousFullCycklesAngle o).

Definition set_cycles (n : Z) (a : spec_float) (o : t) : t :=
  Build (m_hasValidPreviousAngle o) (m_previousAngle o) n a.

Definition set_previous (angle : spec_float) (o : t) : t :=
  Build true angle (m_previousFullCyckles o) (m_previousFullCycklesAngle o).

Section Template.

(** The template parameters: [typename T] and [int Degree]. *)
Variable T : format.
Variable Degree : Z.

(** Conversions between [T] and [double]. *)
Definition widen (x : spec_float) : spec_float := cast T double x.
Definition narrow (x : spec_float) : spec_float := cast double T x.

(** Lines 104-105: the two differences the fast path starts from. *)
Definition fast_diff (o : t) (angle : spec_float) : spec_float :=
  widen (sub T angle (m_previousAngle o)).

Definition fast_angleShort (o : t) (angle : spec_float) : spec_float :=
  dsub (widen angle) (m_previousFullCycklesAngle o).

(** Lines 112-114 and 126-128: the count has moved to [n]. *)
Definition bump (o : t) (angle : spec_float) (n : Z) : t * spec_float :=
  let a := dmul (int_to_double n) PI_MULT_2 in
  (set_cycles n a o, dsub (widen angle) a).

(** Lines 102-134.  [short] is the local variable [angleShort], which
    is declared without an initialiser: [None] is its indeterminate
    value. *)
Definition fast_block (o : t) (short : option spec_float)
           (angle : spec_float) : outcome (t * option spec_float) :=
  if m_hasValidPreviousAngle o then
    let diff := fast_diff o angle in
    let angleShort := fast_angleShort o angle in
    if gt diff zero then
      if gt angleShort PI_MULT_2 then
        if le angleShort PI_MULT_4 then
          n <- incr (m_previousFullCyckles o) ;;
          let '(o', a) := bump o angle n in
          Returns (o', Some a)
        else Returns (set_valid false o, Some angleShort)
      else Returns (o, Some angleShort)
    else
      if lt angleShort zero then
        if ge angleShort (SFopp PI_MULT_2) then
          n <- decr (m_previousFullCyckles o) ;;
          let '(o', a) := bump o angle n in
          Returns (o', Some a)
        else Returns (set_valid false o, Some angleShort)
      else Returns (o, Some angleShort)
  else Returns (o, short).

(** Lines 137-143. *)
Definition slow_block (o : t) (short : option spec_float)
           (angle : spec_float) : outcome (t * option spec_float) :=
  if negb (m_hasValidPreviousAngle o) then
    let div := ddiv (widen angle) PI_MULT_2 in
    n <- double_to_int div ;;
    let a := dmul (int_to_double n) PI_MULT_2 in
    k <- double_to_int div ;;
    Returns (set_cycles n a o,
             Some (dmul (dsub div (int_to_double k)) PI_MULT_2))
  else Returns (o, short).

(** The first read of [angleShort] (line 150). *)
Definition read (short : option spec_float) : outcome spec_float :=
  match short with
  | Some a => Returns a
  | None => Undefined IndeterminateRead
  end.

(** Lines 98-143: the range reduction. *)
Definition reduce (o : t) (angle : spec_float)
  : outcome (t * spec_float) :=
  r1 <- fast_block o None angle ;;
  r2 <- slow_block (fst r1) (snd r1) angle ;;
  a <- read (snd r2) ;;
  Returns (fst r2, a).

(** Lines 149-161: the reduced angle is folded into the first quadrant.
    The result is the new [angleShort] and [sign]. *)
Definition fold (angleShort : spec_float) : spec_float * spec_float :=
  let sign := one in
  if gt angleShort PI_DIV_2 && le angleShort FAST_SIN_PI then
    (dsub FAST_SIN_PI angleShort, sign)
  else if gt angleShort FAST_SIN_PI && le angleShort PI_MULT_3_DIV_2 then
    (dsub angleShort FAST_SIN_PI, SFopp one)
  else if gt angleShort PI_MULT_3_DIV_2 && le angleShort PI_MULT_2 then
    (dsub PI_MULT_2 angleShort, SFopp one)
  else (angleShort, sign).

(** [static_cast<T>(c)] for a [double] constant [c]; the result has type
    [T] and is promoted back to [double] where the other operand of the
    operator is one. *)
Definition coef (c : spec_float) : spec_float := narrow c.

(** Line 181, [static_cast<T>(0.000184881402886071 * x2)]: the product
    is one of two [double]s, and it is the product that is cast. *)
Definition horner7_last (x2 : spec_float) : spec_float :=
  narrow (dmul (literal 184881402886071 18) x2).

(** Lines 180-181, the factor in parentheses.  The three outer
    coefficients are cast to [T]; the innermost difference has two
    operands of type [T] and is computed in [T]. *)
Definition horner7 (x2 : spec_float) : spec_float :=
  dadd (widen (coef (literal 999999060898976 15)))
    (dmul x2
       (dadd (widen (coef (SFopp (literal 166655540927576 15))))
          (dmul x2
             (widen
                (sub T (coef (literal 831189980138987 17))
                   (horner7_last x2)))))).

(** Lines 186-188, the factor in parentheses. *)
Definition horner9 (x2 : spec_float) : spec_float :=
  dadd (widen (coef (literal 999999994686007 15)))
    (dmul x2
       (dadd (widen (coef (SFopp (literal 166666566840071 15))))
          (dmul x2
             (dadd (widen (coef (literal 833302513896936 17)))
                (dmul x2
                   (dadd (widen (coef (SFopp (literal 198074187274269 18))))
                      (dmul (widen (coef (literal 2601903067651460 21)))
                         x2))))))).

(** The factor of the configured degree (degree 9 unless it is 7). *)
Definition horner (x2 : spec_float) : spec_float :=
  if Degree =? 7 then horner7 x2 else horner9 x2.

(** Lines 177-189: the [if constexpr] chain.  The operand of each [return]
    is [sign * x1 * (...)], a [double], converted to the return type [T].
    No branch is left for a degree other than 7 and 9, and the function
    then ends without a [return]. *)
Definition evaluate (sign x1 x2 : spec_float) : outcome spec_float :=
  if Degree =? 7 then Returns (narrow (dmul (dmul sign x1) (horner7 x2)))
  else if Degree =? 9 then Returns (narrow (dmul (dmul sign x1) (horner9 x2)))
  else Undefined MissingReturn.

(** [T FastSin<T, Degree>::operator()(const T angle)] *)
Definition call (o : t) (angle : spec_float) : outcome (t * spec_float) :=
  r <- reduce o angle ;;
  let '(o1, angleShort) := r in
  let '(angleShort', sign) := fold angleShort in
  let x1 := angleShort' in
  let x2 := dmul angleShort' angleShort' in
  let o2 := set_previous angle o1 in
  v <- evaluate sign x1 x2 ;;
  Returns (o2, v).

End Template.

(** A freshly constructed object: the flag is [false] (line 89) and the
    other members are not initialised. *)
Definition fresh (garbage1 : spec_float) (garbage2 : Z)
           (garbage3 : spec_float) : t :=
  Build false garbage1 garbage2 garbage3.

End FastSin.

Import FastSin.

(** ** Sequences of calls *)

(** The object after the operator has been applied to each angle of the
    list in turn. *)
Fixpoint run (T : format) (Degree : Z) (o : t) (angles : list spec_float)
  : outcome t :=
  match angles with
  | [] => Returns o
  | angle :: rest =>
      r <- call T Degree o angle ;;
      run T Degree (fst r) rest
  end.

(** ** The test of the source (lines 171-173)

    [for (long long i{ -3610000000 }; i < 3610000000; ++i)
       angle = i / 10000000.0;] *)
Definition sweep (i : Z) : spec_float :=
  ddiv (of_Z double i) (of_Z double 10000000).

(** The real number a finite floating-point number stands for. *)
Definition to_R (x : spec_float) : R := Q2R (to_Q x).

(** The maximum errors the source documents (lines 47-48, 179 and 185). *)
Definition max_error (Degree : Z) : R :=
  if Degree =? 7 then (939101 / 10 ^ 12)%R else (531399 / 10 ^ 14)%R.

(** ** The four ways through the range reduction *)

Inductive path : Set :=
| Kept    (* fast path, count unchanged (lines 106-108 and 120-122) *)
| Up      (* fast path, count incremented (lines 110-115) *)
| Down    (* fast path, count decremented (lines 124-129) *)
| Slow.   (* slow path, at once or after invalidation (lines 137-143) *)

(** The way the tests of lines 102-137 select. *)
Definition taken (T : format) (o : t) (angle : spec_float) : path :=
  if m_hasValidPreviousAngle o then
    if gt (fast_diff T o angle) zero then
      if gt (fast_angleShort T o angle) PI_MULT_2 then
        if le (fast_angleShort T o angle) PI_MULT_4 then Up else Slow
      else Kept
    else
      if lt (fast_angleShort T o angle) zero then
        if ge (fast_angleShort T o angle) (SFopp PI_MULT_2) then Down
        else Slow
      else Kept
  else Slow.

(** The quotient of the slow path (line 139). *)
Definition quotient (T : format) (angle : spec_float) : spec_float :=
  ddiv (widen T angle) PI_MULT_2.

(** ** The invariants of the cache *)

(** The cached product is the [double] product of the count, an [int],
    and [PI_MULT_2]. *)
Definition product_cached (o : t) : Prop :=
  in_int (m_previousFullCyckles o) = true /\
  m_previousFullCycklesAngle o
    = dmul (int_to_double (m_previousFullCyckles o)) PI_MULT_2.

(** The previous angle lies less than one turn above the cached product;
    the difference is taken exactly. *)
Definition in_window (o : t) : Prop :=
  (0 <= to_Q (m_previousAngle o) - to_Q (m_previousFullCycklesAngle o))%Q /\
  (to_Q (m_previousAngle o) - to_Q (m_previousFullCycklesAngle o)
     < to_Q PI_MULT_2)%Q.

(** The reduced angle lies in the turn that starts at 0. *)
Definition in_turn (angleShort : spec_float) : Prop :=
  (0 <= to_Q angleShort)%Q /\ (to_Q angleShort < to_Q PI_MULT_2)%Q.

(** ** Objects and angles used as examples *)

(** A fresh object (its three other members hold zeros here). *)
Definition at_rest : t := fresh zero 0 zero.

(** The object after the angle 0.0 has been passed to a fresh one. *)
Definition after_zero : t := Build true zero 0 zero.

(** The object after the angle 2 pi has then been passed. *)
Definition after_turn : t := Build true PI_MULT_2 0 zero.

(** The angle -5.0, which is the angle of [i = -50000000] in the sweep. *)
Definition minus_five : spec_float := sweep (-50000000).

(** 1.4e10: a finite angle whose quotient by 2 pi is above [INT_MAX]. *)
Definition fourteen_billion : spec_float := of_Z double 14000000000.

(** Two angles, 7.0 apart, that lie around [INT_MAX] turns. *)
Definition last_turn : spec_float := of_Z double 13493037700.
Definition past_last_turn : spec_float := of_Z double 13493037707.

(** The object the first of them leaves on a fresh [FastSin<double>]: its
    count is [INT_MAX]. *)
Definition at_last_turn : t :=
  Build true last_turn INT_MAX (dmul (int_to_double INT_MAX) PI_MULT_2).

(** The [float]s 1.0, 2^-30 and 0.1 (the [float] nearest to it), and the
    object left by the angle 2^-30 on a fresh [FastSin<float>]. *)
Definition one_f : spec_float := cast double binary32 (of_Z double 1).
Definition tenth_f : spec_float := cast double binary32 (literal 1 1).

(** The square of 0.1f, as the operator forms it (line 164). *)
Definition tenth_squared : spec_float :=
  dmul (cast binary32 double tenth_f) (cast binary32 double tenth_f).

(** The [float] 1.3125. *)
Definition f_1_3125 : spec_float :=
  cast double binary32 (ddiv (of_Z double 21) (of_Z double 16)).

(** ** The arithmetic as the specification words it

    Second definitions, written from the sentences of the specification
    and compared with those of the source below. *)

Module Spec.

Section Template.

Variable T : format.

(** "previous_angle: the last input angle, stored at double precision";
    "internal arithmetic for reduction [...] is performed at double
    precision": the difference of two [double]s. *)
Definition diff (o : t) (angle : spec_float) : spec_float :=
  dsub (widen T angle) (widen T (m_previousAngle o)).

(** "Coefficients are narrowed to the result precision before
    multiplication": a coefficient, narrowed, as an operand of a [double]
    operation. *)
Definition coefficient (c : spec_float) : spec_float :=
  widen T (narrow T c).

(** "P(u) = a0 + u(a1 + u(a2 + a3 u)) with a0 = 0.999999060898976,
    a1 = -0.166655540927576, a2 = 0.00831189980138987,
    a3 = -0.000184881402886071". *)
Definition P7 (u : spec_float) : spec_float :=
  dadd (coefficient (literal 999999060898976 15))
    (dmul u
       (dadd (coefficient (SFopp (literal 166655540927576 15)))
          (dmul u
             (dadd (coefficient (literal 831189980138987 17))
                (dmul (coefficient (SFopp (literal 184881402886071 18)))
                   u))))).

(** "P(u) = a0 + u(a1 + u(a2 + u(a3 + a4 u))) with a0 = 0.999999994686007,
    a1 = -0.166666566840071, a2 = 0.00833302513896936,
    a3 = -0.000198074187274269, a4 = 2.601903067651460e-6". *)
Definition P9 (u : spec_float) : spec_float :=
  dadd (coefficient (literal 999999994686007 15))
    (dmul u
       (dadd (coefficient (SFopp (literal 166666566840071 15)))
          (dmul u
             (dadd (coefficient (literal 833302513896936 17))
                (dmul u
                   (dadd (coefficient (SFopp (literal 198074187274269 18)))
                      (dmul (coefficient (literal 2601903067651460 21))
                         u))))))).

(** The last term of degree 7 with its coefficient narrowed before the
    multiplication. *)
Definition last_term7 (u : spec_float) : spec_float :=
  dmul (coefficient (literal 184881402886071 18)) u.

(** "The returned value is s * x * P(x^2) narrowed to the result type",
    with the [P] of degree 7 above. *)
Definition value7 (sign x u : spec_float) : spec_float :=
  narrow T (dmul (dmul sign x) (P7 u)).

End Template.

End Spec.

(** ** Auxiliary definitions for the proofs

    The key by which [SFcompare] orders the numbers: the class (negative
    infinity, negative, zero, positive, positive infinity), then the
    exponent, then the mantissa. *)

Module OrderKey.

Definition rank (x : spec_float) : option (Z * Z * Z) :=
  match x with
  | S754_nan => None
  | S754_infinity true => Some (-2, 0, 0)
  | S754_infinity false => Some (2, 0, 0)
  | S754_zero _ => Some (0, 0, 0)
  | S754_finite false m e => Some (1, e, Zpos m)
  | S754_finite true m e => Some (-1, - e, Zneg m)
  end.

Definition lex (a b : Z * Z * Z) : comparison :=
  let '(a1, a2, a3) := a in
  let '(b1, b2, b3) := b in
  match a1 ?= b1 with
  | Eq => match a2 ?= b2 with Eq => a3 ?= b3 | c => c end
  | c => c
  end.

Definition lex_lt (a b : Z * Z * Z) : Prop :=
  let '(a1, a2, a3) := a in
  let '(b1, b2, b3) := b in
  a1 < b1 \/ (a1 = b1 /\ (a2 < b2 \/ (a2 = b2 /\ a3 < b3))).

Definition lex_le (a b : Z * Z * Z) : Prop :=
  let '(a1, a2, a3) := a in
  let '(b1, b2, b3) := b in
  a1 < b1 \/ (a1 = b1 /\ (a2 < b2 \/ (a2 = b2 /\ a3 <= b3))).

End OrderKey.

(** ** Magnitudes and signs

    The predicates in which the range of the operator is stated.  They look
    at the fields of a number only, so they can be evaluated. *)

(** [x] is finite and below [2 ^ N] in magnitude: the number of bits of
    the mantissa plus the exponent is at most [N]. *)
Definition magnitude_below (N : Z) (x : spec_float) : bool :=
  match x with
  | S754_zero _ => true
  | S754_finite _ m e => Zpos (digits2_pos m) + e <=? N
  | S754_infinity _ | S754_nan => false
  end.

(** [x] is finite and at most [2 ^ N] in magnitude. *)
Definition at_most (N : Z) (x : spec_float) : Prop :=
  match x with
  | S754_zero _ => True
  | S754_finite _ m e => Zpos m <= 2 ^ (N - e) /\ e <= N
  | S754_infinity _ | S754_nan => False
  end.

(** [x] is at least [2 ^ N] in magnitude (an infinity is). *)
Definition at_least (N : Z) (x : spec_float) : Prop :=
  match x with
  | S754_finite _ m e => 2 ^ (N - e) <= Zpos m
  | S754_infinity _ => True
  | S754_zero _ | S754_nan => False
  end.

(** [x] is a number whose sign bit is [s]. *)
Definition signed (s : bool) (x : spec_float) : Prop :=
  match x with
  | S754_zero s' | S754_infinity s' | S754_finite s' _ _ => s' = s
  | S754_nan => False
  end.

(** An object is within reach when its flag is down, or its cached
    product is in step with a count of at most [2 ^ 30] in magnitude. *)
Definition within_reach (o : t) : Prop :=
  m_hasValidPreviousAngle o = true ->
  product_cached o /\ - 2 ^ 30 <= m_previousFullCyckles o <= 2 ^ 30.

(** * Properties *)

(** ** The constants

    Each literal of the source denotes the [double] nearest to it, and the
    multiples of pi of lines 83-86 are exact but for [3 pi / 2], which is
    rounded once. *)

Lemma literals_nearest :
  nearest FAST_SIN_PI
    (3141592653589793 # 1000000000000000) = true /\
  nearest (literal 999999060898976 15)
    (999999060898976 # 1000000000000000) = true /\
  nearest (literal 166655540927576 15)
    (166655540927576 # 1000000000000000) = true /\
  nearest (literal 831189980138987 17)
    (831189980138987 # 100000000000000000) = true /\
  nearest (literal 184881402886071 18)
    (184881402886071 # 1000000000000000000) = true /\
  nearest (literal 999999994686007 15)
    (999999994686007 # 1000000000000000) = true /\
  nearest (literal 166666566840071 15)
    (166666566840071 # 1000000000000000) = true /\
  nearest (literal 833302513896936 17)
    (833302513896936 # 100000000000000000) = true /\
  nearest (literal 198074187274269 18)
    (198074187274269 # 1000000000000000000) = true /\
  nearest (literal 2601903067651460 21)
    (2601903067651460 # 1000000000000000000000) = true.
Proof. repeat split; vm_compute; reflexivity. Qed.

Lemma multiples_of_pi :
  (to_Q PI_DIV_2 == to_Q FAST_SIN_PI / 2)%Q /\
  (to_Q PI_MULT_2 == 2 * to_Q FAST_SIN_PI)%Q /\
  (to_Q PI_MULT_4 == 4 * to_Q FAST_SIN_PI)%Q /\
  nearest PI_MULT_3_DIV_2 (3 * to_Q FAST_SIN_PI / 2) = true.
Proof. repeat split; vm_compute; reflexivity. Qed.

(** ** The order of the comparison operators

    [SFcompare] is a lexicographic comparison: of the class of the number
    first (negative infinity, negative, zero, positive, positive infinity),
    then of the exponent, then of the mantissa. *)

Module Order.

Import OrderKey.

Lemma SFcompare_rank (x y : spec_float) :
  SFcompare x y =
  match rank x, rank y with
  | Some a, Some b => Some (lex a b)
  | _, _ => None
  end.
Proof.
  destruct x as [sx|sx| |sx mx ex], y as [sy|sy| |sy my ey];
    try destruct sx; try destruct sy; try reflexivity.
  cbn [SFcompare rank lex]. rewrite Z.compare_opp.
  rewrite (Z.compare_antisym ex ey).
  destruct (ex ?= ey); reflexivity.
Qed.

Lemma lex_Lt (a b : Z * Z * Z) : lex a b = Lt <-> lex_lt a b.
Proof.
  destruct a as [[a1 a2] a3], b as [[b1 b2] b3]; unfold lex, lex_lt.
  destruct (Z.compare_spec a1 b1), (Z.compare_spec a2 b2),
    (Z.compare_spec a3 b3); split; intros; try discriminate; try lia;
    reflexivity.
Qed.

Lemma lex_not_Gt (a b : Z * Z * Z) : lex a b <> Gt <-> lex_le a b.
Proof.
  destruct a as [[a1 a2] a3], b as [[b1 b2] b3]; unfold lex, lex_le.
  destruct (Z.compare_spec a1 b1), (Z.compare_spec a2 b2),
    (Z.compare_spec a3 b3); split; intros; try discriminate; try lia;
    congruence.
Qed.

Lemma lt_rank (x y : spec_float) :
  lt x y = true <->
  exists a b, rank x = Some a /\ rank y = Some b /\ lex_lt a b.
Proof.
  unfold lt, SFltb. rewrite SFcompare_rank.
  destruct (rank x) as [a|], (rank y) as [b|]; split;
    try (intros; discriminate);
    try (intros (a' & b' & H1 & H2 & _); discriminate).
  - intros H. exists a, b. repeat split. apply lex_Lt.
    destruct (lex a b); try discriminate; reflexivity.
  - intros (a' & b' & H1 & H2 & H3). inversion H1; inversion H2; subst.
    apply lex_Lt in H3. rewrite H3. reflexivity.
Qed.

Lemma le_rank (x y : spec_float) :
  le x y = true <->
  exists a b, rank x = Some a /\ rank y = Some b /\ lex_le a b.
Proof.
  unfold le, SFleb. rewrite SFcompare_rank.
  destruct (rank x) as [a|], (rank y) as [b|]; split;
    try (intros; discriminate);
    try (intros (a' & b' & H1 & H2 & _); discriminate).
  - intros H. exists a, b. repeat split. apply lex_not_Gt.
    destruct (lex a b); try discriminate; congruence.
  - intros (a' & b' & H1 & H2 & H3). inversion H1; inversion H2; subst.
    apply lex_not_Gt in H3. destruct (lex a' b'); congruence.
Qed.

Lemma rank_not_nan (x : spec_float) :
  is_nan x = false -> exists a, rank x = Some a.
Proof.
  destruct x as [s|s| |s m e]; try destruct s; intros H;
    try discriminate; eexists; reflexivity.
Qed.

(** [x > y] and [y < x] are the same test, and so are [x >= y] and
    [y <= x]. *)
Lemma gt_lt (x y : spec_float) : gt x y = lt y x.
Proof. reflexivity. Qed.

Lemma ge_le (x y : spec_float) : ge x y = le y x.
Proof. reflexivity. Qed.

(** On numbers, [x <= y] is the negation of [x > y]. *)
Lemma le_iff_not_gt (x y : spec_float) :
  is_nan x = false -> is_nan y = false ->
  le x y = negb (gt x y).
Proof.
  intros Hx Hy.
  destruct (rank_not_nan x Hx) as [[[a1 a2] a3] Ha].
  destruct (rank_not_nan y Hy) as [[[b1 b2] b3] Hb].
  destruct (le x y) eqn:Hle, (gt x y) eqn:Hgt; try reflexivity; exfalso.
  - apply le_rank in Hle. rewrite gt_lt in Hgt. apply lt_rank in Hgt.
    destruct Hle as (a & b & H1 & H2 & H3).
    destruct Hgt as (b' & a' & H4 & H5 & H6).
    rewrite H1 in H5; rewrite H2 in H4; inversion H4; inversion H5; subst.
    destruct a' as [[? ?] ?], b' as [[? ?] ?]; cbn in *; lia.
  - assert (H : le x y = true); [|congruence].
    apply le_rank. exists (a1, a2, a3), (b1, b2, b3). repeat split; trivial.
    assert (N : ~ lex_lt (b1, b2, b3) (a1, a2, a3)).
    { intros L. assert (G : gt x y = true); [|congruence].
      rewrite gt_lt. apply lt_rank. eauto 6. }
    cbn in *; lia.
Qed.

Lemma le_true_not_nan (x y : spec_float) :
  le x y = true -> is_nan x = false /\ is_nan y = false.
Proof.
  intros H. apply le_rank in H. destruct H as (a & b & H1 & H2 & _).
  destruct x as [?|?| |? ? ?], y as [?|?| |? ? ?]; try discriminate;
    split; reflexivity.
Qed.

Lemma lt_true_not_nan (x y : spec_float) :
  lt x y = true -> is_nan x = false /\ is_nan y = false.
Proof.
  intros H. apply lt_rank in H. destruct H as (a & b & H1 & H2 & _).
  destruct x as [?|?| |? ? ?], y as [?|?| |? ? ?]; try discriminate;
    split; reflexivity.
Qed.

Lemma le_not_gt (x y : spec_float) : le x y = true -> gt x y = false.
Proof.
  intros H. destruct (le_true_not_nan x y H) as [Hx Hy].
  rewrite (le_iff_not_gt x y Hx Hy) in H.
  destruct (gt x y); [discriminate|reflexivity].
Qed.


Lemma le_lt_trans (x y z : spec_float) :
  le x y = true -> lt y z = true -> lt x z = true.
Proof.
  intros H1 H2. apply le_rank in H1. apply lt_rank in H2. apply lt_rank.
  destruct H1 as (a & b & Ha & Hb & L1), H2 as (b' & c & Hb' & Hc & L2).
  rewrite Hb in Hb'; inversion Hb'; subst b'.
  exists a, c. repeat split; trivial.
  destruct a as [[? ?] ?], b as [[? ?] ?], c as [[? ?] ?]; cbn in *; lia.
Qed.

Lemma lt_le_trans (x y z : spec_float) :
  lt x y = true -> le y z = true -> lt x z = true.
Proof.
  intros H1 H2. apply lt_rank in H1. apply le_rank in H2. apply lt_rank.
  destruct H1 as (a & b & Ha & Hb & L1), H2 as (b' & c & Hb' & Hc & L2).
  rewrite Hb in Hb'; inversion Hb'; subst b'.
  exists a, c. repeat split; trivial.
  destruct a as [[? ?] ?], b as [[? ?] ?], c as [[? ?] ?]; cbn in *; lia.
Qed.

Lemma lt_irrefl_le (x y : spec_float) :
  lt x y = true -> le y x = false.
Proof.
  intros H. destruct (le y x) eqn:E; [|reflexivity].
  apply le_not_gt in E. rewrite gt_lt in E. congruence.
Qed.

End Order.

(** ** Operations on numbers give numbers

    The rounding of [SpecFloat] yields a NaN only on a negative mantissa,
    which no operation hands to it. *)

Module NoNaN.

Section Format.

Variables prec emax : Z.

Lemma shr_1_nonneg (mrs : shr_record) :
  0 <= shr_m mrs -> 0 <= shr_m (shr_1 mrs).
Proof.
  destruct mrs as [m r s]; cbn [shr_m]; intros H.
  destruct m as [|p|p]; [| |lia]; cbn; [lia|].
  destruct p; cbn; lia.
Qed.

Lemma iter_shr_1_nonneg (p : positive) (mrs : shr_record) :
  0 <= shr_m mrs -> 0 <= shr_m (iter_pos shr_1 p mrs).
Proof.
  revert mrs; induction p as [p IH|p IH|]; intros mrs H; cbn [iter_pos].
  - apply IH, IH, shr_1_nonneg, H.
  - apply IH, IH, H.
  - apply shr_1_nonneg, H.
Qed.

Lemma shr_nonneg (mrs : shr_record) (e n : Z) :
  0 <= shr_m mrs -> 0 <= shr_m (fst (shr mrs e n)).
Proof.
  intros H. destruct n; cbn [shr fst]; trivial.
  apply iter_shr_1_nonneg, H.
Qed.

Lemma shr_record_of_loc_m (m : Z) (l : location) :
  shr_m (shr_record_of_loc m l) = m.
Proof. destruct l as [|[ | | ]]; reflexivity. Qed.

Lemma shr_fexp_nonneg (m e : Z) (l : location) :
  0 <= m -> 0 <= shr_m (fst (shr_fexp prec emax m e l)).
Proof.
  intros H. unfold shr_fexp. apply shr_nonneg.
  rewrite shr_record_of_loc_m. exact H.
Qed.

Lemma round_nearest_even_nonneg (m : Z) (l : location) :
  0 <= m -> 0 <= round_nearest_even m l.
Proof.
  intros H. destruct l as [|[ | | ]]; cbn [round_nearest_even]; try lia.
  destruct (Z.even m); lia.
Qed.

Lemma binary_round_aux_not_nan (sx : bool) (mx ex : Z) (lx : location) :
  0 <= mx -> is_nan (binary_round_aux prec emax sx mx ex lx) = false.
Proof.
  intros H. unfold binary_round_aux.
  pose proof (shr_fexp_nonneg mx ex lx H) as H1.
  destruct (shr_fexp prec emax mx ex lx) as [mrs' e'].
  cbn [fst] in H1.
  pose proof (shr_fexp_nonneg _ e' loc_Exact
                (round_nearest_even_nonneg _ (loc_of_shr_record mrs') H1))
    as H2.
  destruct (shr_fexp prec emax _ e' loc_Exact) as [mrs'' e''].
  cbn [fst] in H2.
  destruct (shr_m mrs'') as [|p|p]; [reflexivity| |lia].
  destruct (e'' <=? emax - prec); reflexivity.
Qed.

Lemma binary_round_not_nan (sx : bool) (mx : positive) (ex : Z) :
  is_nan (binary_round prec emax sx mx ex) = false.
Proof.
  unfold binary_round.
  destruct (shl_align mx ex _) as [mz ez].
  apply binary_round_aux_not_nan. lia.
Qed.

Lemma binary_normalize_not_nan (m e : Z) (szero : bool) :
  is_nan (binary_normalize prec emax m e szero) = false.
Proof.
  destruct m; cbn [binary_normalize];
    [reflexivity|apply binary_round_not_nan ..].
Qed.

Lemma SFsub_not_nan (x y : spec_float) :
  is_nan x = false -> is_finite y = true ->
  is_nan (SFsub prec emax x y) = false.
Proof.
  destruct x as [sx|sx| |sx mx ex], y as [sy|sy| |sy my ey];
    intros Hx Hy; try discriminate; cbn [SFsub]; try reflexivity.
  - destruct sx, sy; reflexivity.
  - apply binary_normalize_not_nan.
Qed.

Lemma SFadd_not_nan (x y : spec_float) :
  is_finite x = true -> is_finite y = true ->
  is_nan (SFadd prec emax x y) = false.
Proof.
  destruct x as [sx|sx| |sx mx ex], y as [sy|sy| |sy my ey];
    intros Hx Hy; try discriminate; cbn [SFadd].
  - destruct sx, sy; reflexivity.
  - reflexivity.
  - reflexivity.
  - apply binary_normalize_not_nan.
Qed.

Lemma SFmul_not_nan (x y : spec_float) :
  is_finite x = true -> is_finite y = true ->
  is_nan (SFmul prec emax x y) = false.
Proof.
  destruct x as [sx|sx| |sx mx ex], y as [sy|sy| |sy my ey];
    intros Hx Hy; try discriminate; cbn [SFmul]; try reflexivity.
  apply binary_round_aux_not_nan. lia.
Qed.

End Format.

Lemma round_not_nan (F : format) (x : spec_float) :
  is_nan x = false -> is_nan (round F x) = false.
Proof.
  destruct x; cbn [round]; trivial. intros _. apply binary_round_not_nan.
Qed.

Lemma cast_not_nan (S U : format) (x : spec_float) :
  is_nan x = false -> is_nan (cast S U x) = false.
Proof.
  intros H. unfold cast. destruct (format_eqb S U); trivial.
  apply round_not_nan, H.
Qed.

Lemma finite_not_nan (x : spec_float) : is_finite x = true -> is_nan x = false.
Proof. destruct x; intros; try discriminate; reflexivity. Qed.

Lemma of_Z_finite (F : format) (n : Z) : is_nan (of_Z F n) = false.
Proof. apply binary_normalize_not_nan. Qed.

End NoNaN.

(** ** Bookkeeping for the monad *)

Lemma bind_Returns {A B : Type} (c : outcome A) (k : A -> outcome B) (b : B) :
  bind c k = Returns b -> exists a, c = Returns a /\ k a = Returns b.
Proof.
  destruct c as [a|f]; cbn; intros H; [eauto|discriminate].
Qed.

(** ** The first call on a fresh object *)

Section FirstCall.

Variable T : format.
Variable Degree : Z.

(** With the flag down the fast block does nothing and the slow block
    assigns the count, the cached product and [angleShort]. *)
Lemma reduce_invalid (o : t) (angle : spec_float) :
  m_hasValidPreviousAngle o = false ->
  reduce T o angle =
  (n <- double_to_int (ddiv (widen T angle) PI_MULT_2) ;;
   Returns (Build false (m_previousAngle o) n
              (dmul (int_to_double n) PI_MULT_2),
            dmul (dsub (ddiv (widen T angle) PI_MULT_2) (int_to_double n))
              PI_MULT_2)).
Proof.
  intros H. unfold reduce, fast_block, slow_block. rewrite H.
  cbn [bind fst snd negb]. rewrite H. cbn [negb].
  destruct (double_to_int _) as [n|f]; cbn [bind]; [|reflexivity].
  unfold set_cycles. rewrite H. reflexivity.
Qed.

(** C10: the first call on a fresh object takes the slow path, and what it
    returns and stores is the same whatever the uninitialised members
    [m_previousAngle], [m_previousFullCyckles] and
    [m_previousFullCycklesAngle] held: the count and the cached product
    are assigned by the slow block, the previous angle after it, and the
    local [angleShort] is assigned before its first read. *)
Theorem C10_first_call_ignores_garbage
  (angle g1 g3 g1' g3' : spec_float) (g2 g2' : Z) :
  call T Degree (fresh g1 g2 g3) angle = call T Degree (fresh g1' g2' g3') angle
  /\ reduce T (fresh g1 g2 g3) angle =
     (n <- double_to_int (ddiv (widen T angle) PI_MULT_2) ;;
      Returns (Build false g1 n (dmul (int_to_double n) PI_MULT_2),
               dmul (dsub (ddiv (widen T angle) PI_MULT_2) (int_to_double n))
                 PI_MULT_2))
  /\ call T Degree (fresh g1 g2 g3) angle <> Undefined IndeterminateRead.
Proof.
  assert (E : forall h1 h2 h3, call T Degree (fresh h1 h2 h3) angle =
    (n <- double_to_int (ddiv (widen T angle) PI_MULT_2) ;;
     let '(x, sign) :=
       fold (dmul (dsub (ddiv (widen T angle) PI_MULT_2) (int_to_double n))
               PI_MULT_2) in
     v <- evaluate T Degree sign x (dmul x x) ;;
     Returns (Build true angle n (dmul (int_to_double n) PI_MULT_2), v))).
  { intros h1 h2 h3. unfold call.
    rewrite (reduce_invalid (fresh h1 h2 h3) angle eq_refl).
    destruct (double_to_int _) as [n|f]; cbn [bind]; [|reflexivity].
    destruct (fold _) as [x sign]. reflexivity. }
  split; [|split].
  - rewrite !E. reflexivity.
  - apply (reduce_invalid (fresh g1 g2 g3) angle eq_refl).
  - rewrite E. unfold double_to_int.
    destruct (truncate _) as [n|]; [|discriminate].
    destruct (in_int n); [|discriminate]. cbn [bind].
    destruct (fold _) as [x sign]. unfold evaluate.
    destruct (Degree =? 7); [discriminate|].
    destruct (Degree =? 9); discriminate.
Qed.

End FirstCall.

(** ** The fast path *)

Section FastPath.

Variable T : format.

(** An object whose cache has been invalidated is reduced by the slow
    block alone. *)
Lemma reduce_set_invalid (o : t) (angle : spec_float) :
  reduce T (set_valid false o) angle =
  (n <- double_to_int (ddiv (widen T angle) PI_MULT_2) ;;
   Returns (Build false (m_previousAngle o) n
              (dmul (int_to_double n) PI_MULT_2),
            dmul (dsub (ddiv (widen T angle) PI_MULT_2) (int_to_double n))
              PI_MULT_2)).
Proof. apply (reduce_invalid T (set_valid false o) angle eq_refl). Qed.

(** When the fast block gives up, the reduction goes on as from an
    invalidated object. *)
Lemma reduce_gives_up (o : t) (angle a : spec_float) :
  fast_block T o None angle = Returns (set_valid false o, Some a) ->
  reduce T o angle = reduce T (set_valid false o) angle.
Proof.
  intros H. rewrite reduce_set_invalid. unfold reduce. rewrite H.
  cbn [bind fst snd]. unfold slow_block.
  cbn [set_valid m_hasValidPreviousAngle negb].
  destruct (double_to_int _) as [n|f]; reflexivity.
Qed.

(** When the fast block keeps the cache, its [angleShort] is the result. *)
Lemma reduce_keeps (o o' : t) (angle a : spec_float) :
  fast_block T o None angle = Returns (o', Some a) ->
  m_hasValidPreviousAngle o' = true ->
  reduce T o angle = Returns (o', a).
Proof.
  intros H V. unfold reduce. rewrite H. cbn [bind fst snd].
  unfold slow_block. rewrite V. reflexivity.
Qed.

Variable o : t.
Variable angle : spec_float.

Hypothesis valid : m_hasValidPreviousAngle o = true.

Lemma diff_not_nan :
  is_finite angle = true -> is_finite (m_previousAngle o) = true ->
  is_nan (fast_diff T o angle) = false.
Proof.
  intros Fa Fp.
  apply NoNaN.cast_not_nan, NoNaN.SFsub_not_nan; trivial.
  apply NoNaN.finite_not_nan, Fa.
Qed.

Lemma angleShort_not_nan :
  is_finite angle = true ->
  is_finite (m_previousFullCycklesAngle o) = true ->
  is_nan (fast_angleShort T o angle) = false.
Proof.
  intros Fa Fc.
  apply NoNaN.SFsub_not_nan; trivial.
  apply NoNaN.cast_not_nan, NoNaN.finite_not_nan, Fa.
Qed.

(** The fast block of an object whose flag is up. *)
Lemma fast_block_valid (short : option spec_float) :
  fast_block T o short angle =
  if gt (fast_diff T o angle) zero then
    if gt (fast_angleShort T o angle) PI_MULT_2 then
      if le (fast_angleShort T o angle) PI_MULT_4 then
        n <- incr (m_previousFullCyckles o) ;;
        Returns
          (Build true (m_previousAngle o) n
             (dmul (int_to_double n) PI_MULT_2),
           Some (dsub (widen T angle) (dmul (int_to_double n) PI_MULT_2)))
      else Returns
             (Build false (m_previousAngle o) (m_previousFullCyckles o)
                (m_previousFullCycklesAngle o),
              Some (fast_angleShort T o angle))
    else Returns (o, Some (fast_angleShort T o angle))
  else
    if lt (fast_angleShort T o angle) zero then
      if ge (fast_angleShort T o angle) (SFopp PI_MULT_2) then
        n <- decr (m_previousFullCyckles o) ;;
        Returns
          (Build true (m_previousAngle o) n
             (dmul (int_to_double n) PI_MULT_2),
           Some (dsub (widen T angle) (dmul (int_to_double n) PI_MULT_2)))
      else Returns
             (Build false (m_previousAngle o) (m_previousFullCyckles o)
                (m_previousFullCycklesAngle o),
              Some (fast_angleShort T o angle))
    else Returns (o, Some (fast_angleShort T o angle)).
Proof.
  unfold fast_block, bump, set_cycles, set_valid. rewrite valid.
  destruct (gt (fast_diff T o angle) zero).
  - destruct (gt (fast_angleShort T o angle) PI_MULT_2); [|reflexivity].
    destruct (le (fast_angleShort T o angle) PI_MULT_4); [|reflexivity].
    destruct (incr (m_previousFullCyckles o)); reflexivity.
  - destruct (lt (fast_angleShort T o angle) zero); [|reflexivity].
    destruct (ge (fast_angleShort T o angle) (SFopp PI_MULT_2));
      [|reflexivity].
    destruct (decr (m_previousFullCyckles o)); reflexivity.
Qed.

(** The reduction when the fast block has lowered the flag: the slow
    block computes the count, the cached product and [angleShort] from
    the angle alone, and the flag is down when it ends. *)
Lemma reduce_after_invalidation (a : spec_float) :
  fast_block T o None angle
    = Returns (Build false (m_previousAngle o) (m_previousFullCyckles o)
                 (m_previousFullCycklesAngle o), Some a) ->
  reduce T o angle =
  (n <- double_to_int (quotient T angle) ;;
   Returns (Build false (m_previousAngle o) n
              (dmul (int_to_double n) PI_MULT_2),
            dmul (dsub (quotient T angle) (int_to_double n)) PI_MULT_2)).
Proof.
  intros F. unfold reduce. rewrite F. cbn [bind fst snd].
  unfold slow_block, quotient, set_cycles.
  cbn [m_hasValidPreviousAngle m_previousAngle negb].
  destruct (double_to_int (ddiv (widen T angle) PI_MULT_2)) as [n|f];
    reflexivity.
Qed.

(** C4 (amended): with a valid cache on entry the operator computes
    [diff = angle - m_previousAngle] and the tentative
    [angleShort = angle - m_previousFullCycklesAngle].
    If [diff > 0]: [angleShort <= 2 pi] is accepted as it is;
    [2 pi < angleShort <= 4 pi] increments the count by exactly one and
    recomputes the cached product and [angleShort] when the count is below
    [INT_MAX], and is a signed overflow when the count is [INT_MAX];
    [angleShort > 4 pi] lowers the flag, and the slow block then computes
    count, cached product and [angleShort] from the angle alone.
    If [diff <= 0]: [angleShort >= 0] is accepted;
    [-2 pi <= angleShort < 0] decrements the count by exactly one and
    recomputes when the count is above [INT_MIN], and is a signed overflow
    when the count is [INT_MIN]; [angleShort < -2 pi] lowers the flag and
    goes to the slow block.
    For a finite angle and finite cached values one of [diff > 0] and
    [diff <= 0] holds and the three cases of each are all there are. *)
Theorem C4_fast_path :
  fast_diff T o angle = widen T (sub T angle (m_previousAngle o)) /\
  fast_angleShort T o angle
    = dsub (widen T angle) (m_previousFullCycklesAngle o) /\
  (gt (fast_diff T o angle) zero = true ->
     (le (fast_angleShort T o angle) PI_MULT_2 = true ->
        reduce T o angle = Returns (o, fast_angleShort T o angle)) /\
     (gt (fast_angleShort T o angle) PI_MULT_2 = true ->
      le (fast_angleShort T o angle) PI_MULT_4 = true ->
        (m_previousFullCyckles o < INT_MAX ->
           reduce T o angle
             = Returns
                 (Build true (m_previousAngle o)
                    (m_previousFullCyckles o + 1)
                    (dmul (int_to_double (m_previousFullCyckles o + 1))
                       PI_MULT_2),
                  dsub (widen T angle)
                    (dmul (int_to_double (m_previousFullCyckles o + 1))
                       PI_MULT_2))) /\
        (INT_MAX <= m_previousFullCyckles o ->
           reduce T o angle = Undefined SignedOverflow)) /\
     (gt (fast_angleShort T o angle) PI_MULT_4 = true ->
        fast_block T o None angle
          = Returns
              (Build false (m_previousAngle o) (m_previousFullCyckles o)
                 (m_previousFullCycklesAngle o),
               Some (fast_angleShort T o angle)) /\
        reduce T o angle =
        (n <- double_to_int (quotient T angle) ;;
         Returns (Build false (m_previousAngle o) n
                    (dmul (int_to_double n) PI_MULT_2),
                  dmul (dsub (quotient T angle) (int_to_double n))
                    PI_MULT_2)))) /\
  (le (fast_diff T o angle) zero = true ->
     (ge (fast_angleShort T o angle) zero = true ->
        reduce T o angle = Returns (o, fast_angleShort T o angle)) /\
     (ge (fast_angleShort T o angle) (SFopp PI_MULT_2) = true ->
      lt (fast_angleShort T o angle) zero = true ->
        (INT_MIN < m_previousFullCyckles o ->
           reduce T o angle
             = Returns
                 (Build true (m_previousAngle o)
                    (m_previousFullCyckles o - 1)
                    (dmul (int_to_double (m_previousFullCyckles o - 1))
                       PI_MULT_2),
                  dsub (widen T angle)
                    (dmul (int_to_double (m_previousFullCyckles o - 1))
                       PI_MULT_2))) /\
        (m_previousFullCyckles o <= INT_MIN ->
           reduce T o angle = Undefined SignedOverflow)) /\
     (lt (fast_angleShort T o angle) (SFopp PI_MULT_2) = true ->
        fast_block T o None angle
          = Returns
              (Build false (m_previousAngle o) (m_previousFullCyckles o)
                 (m_previousFullCycklesAngle o),
               Some (fast_angleShort T o angle)) /\
        reduce T o angle =
        (n <- double_to_int (quotient T angle) ;;
         Returns (Build false (m_previousAngle o) n
                    (dmul (int_to_double n) PI_MULT_2),
                  dmul (dsub (quotient T angle) (int_to_double n))
                    PI_MULT_2)))) /\
  (is_finite angle = true ->
   is_finite (m_previousAngle o) = true ->
   is_finite (m_previousFullCycklesAngle o) = true ->
     (gt (fast_diff T o angle) zero = true \/
      le (fast_diff T o angle) zero = true) /\
     (le (fast_angleShort T o angle) PI_MULT_2 = true \/
      (gt (fast_angleShort T o angle) PI_MULT_2 = true /\
       le (fast_angleShort T o angle) PI_MULT_4 = true) \/
      gt (fast_angleShort T o angle) PI_MULT_4 = true) /\
     (ge (fast_angleShort T o angle) zero = true \/
      (ge (fast_angleShort T o angle) (SFopp PI_MULT_2) = true /\
       lt (fast_angleShort T o angle) zero = true) \/
      lt (fast_angleShort T o angle) (SFopp PI_MULT_2) = true)).
Proof.
  assert (Nz : is_nan zero = false) by reflexivity.
  assert (N2 : is_nan PI_MULT_2 = false) by reflexivity.
  assert (N4 : is_nan PI_MULT_4 = false) by reflexivity.
  assert (Nm : is_nan (SFopp PI_MULT_2) = false) by reflexivity.
  assert (L24 : le PI_MULT_2 PI_MULT_4 = true) by (vm_compute; reflexivity).
  assert (Lm0 : le (SFopp PI_MULT_2) zero = true)
    by (vm_compute; reflexivity).
  split; [reflexivity|]. split; [reflexivity|].
  pose proof diff_not_nan as Nd. pose proof angleShort_not_nan as Na.
  pose proof fast_block_valid as B.
  pose proof reduce_after_invalidation as S.
  unfold reduce at 1 2 3 5 6 7. revert Nd Na B S.
  generalize (fast_diff T o angle) (fast_angleShort T o angle).
  intros d a Nd Na B S.
  split; [|split].
  - intros Hd. split; [|split].
    + intros Hle. rewrite B, Hd, (Order.le_not_gt _ _ Hle).
      cbn [bind fst snd]. unfold slow_block. rewrite valid. reflexivity.
    + intros Hgt Hle. rewrite B, Hd, Hgt, Hle. unfold incr. split; intros Hn.
      * destruct (Z.ltb_spec (m_previousFullCyckles o) INT_MAX) as [_|C];
          [|lia].
        cbn [bind fst snd]. unfold slow_block.
        cbn [m_hasValidPreviousAngle negb]. reflexivity.
      * destruct (Z.ltb_spec (m_previousFullCyckles o) INT_MAX) as [C|_];
          [lia|reflexivity].
    + intros H4.
      assert (Hgt : gt a PI_MULT_2 = true).
      { rewrite Order.gt_lt in *.
        exact (Order.le_lt_trans _ _ _ L24 H4). }
      assert (Hle : le a PI_MULT_4 = false).
      { rewrite Order.gt_lt in H4. exact (Order.lt_irrefl_le _ _ H4). }
      assert (F : fast_block T o None angle
                  = Returns
                      (Build false (m_previousAngle o)
                         (m_previousFullCyckles o)
                         (m_previousFullCycklesAngle o), Some a)).
      { rewrite B, Hd, Hgt, Hle. reflexivity. }
      split; [exact F|]. exact (S a F).
  - intros Hd. apply Order.le_not_gt in Hd. split; [|split].
    + intros Hge. rewrite Order.ge_le in Hge.
      apply Order.le_not_gt in Hge. rewrite Order.gt_lt in Hge.
      rewrite B, Hd, Hge.
      cbn [bind fst snd]. unfold slow_block. rewrite valid. reflexivity.
    + intros Hge Hlt. rewrite B, Hd, Hlt, Hge. unfold decr.
      split; intros Hn.
      * destruct (Z.ltb_spec INT_MIN (m_previousFullCyckles o)) as [_|C];
          [|lia].
        cbn [bind fst snd]. unfold slow_block.
        cbn [m_hasValidPreviousAngle negb]. reflexivity.
      * destruct (Z.ltb_spec INT_MIN (m_previousFullCyckles o)) as [C|_];
          [lia|reflexivity].
    + intros Hm.
      assert (Hlt : lt a zero = true)
        by exact (Order.lt_le_trans _ _ _ Hm Lm0).
      assert (Hge : ge a (SFopp PI_MULT_2) = false).
      { rewrite Order.ge_le. exact (Order.lt_irrefl_le _ _ Hm). }
      assert (F : fast_block T o None angle
                  = Returns
                      (Build false (m_previousAngle o)
                         (m_previousFullCyckles o)
                         (m_previousFullCycklesAngle o), Some a)).
      { rewrite B, Hd, Hlt, Hge. reflexivity. }
      split; [exact F|]. exact (S a F).
  - intros Fa Fp Fc. specialize (Nd Fa Fp). specialize (Na Fa Fc).
    split; [|split].
    + rewrite (Order.le_iff_not_gt _ _ Nd Nz).
      destruct (gt d zero); [left|right]; reflexivity.
    + rewrite (Order.le_iff_not_gt _ _ Na N2),
        (Order.le_iff_not_gt _ _ Na N4).
      destruct (gt a PI_MULT_2); [|left; reflexivity].
      destruct (gt a PI_MULT_4);
        [right; right; reflexivity|right; left; split; reflexivity].
    + rewrite !Order.ge_le.
      rewrite (Order.le_iff_not_gt _ _ Nz Na),
        (Order.le_iff_not_gt _ _ Nm Na), !Order.gt_lt.
      destruct (lt a zero); [|left; reflexivity].
      destruct (lt a (SFopp PI_MULT_2));
        [right; right; reflexivity|right; left; split; reflexivity].
Qed.

End FastPath.

(** ** The quadrant folder *)

Section Folding.

Variable T : format.
Variable Degree : Z.


Lemma above_not_le (a c c' : spec_float) :
  le c c' = true -> gt a c' = true -> le a c = false.
Proof.
  intros H1 H2. rewrite Order.gt_lt in H2.
  apply Order.lt_irrefl_le. apply (Order.le_lt_trans c c' a H1 H2).
Qed.

Lemma below_not_gt (a c c' : spec_float) :
  le a c = true -> le c c' = true -> gt a c' = false.
Proof.
  intros H1 H2. destruct (gt a c') eqn:E; [|reflexivity].
  rewrite (above_not_le a c c' H2 E) in H1. discriminate.
Qed.


End Folding.

(** ** The accuracy on the test sweep *)

Section Accuracy.

Local Open Scope R_scope.

Lemma to_R_ge (x : spec_float) (q : Q) :
  (q <= to_Q x)%Q -> Q2R q <= to_R x.
Proof. intros H. unfold to_R. apply Qle_Rle, H. Qed.

Lemma to_R_le (x : spec_float) (q : Q) :
  (to_Q x <= q)%Q -> to_R x <= Q2R q.
Proof. intros H. unfold to_R. apply Qle_Rle, H. Qed.

Lemma Q2R_two : Q2R 2 = 2.
Proof. unfold Q2R; cbn; lra. Qed.

Lemma Q2R_minus_two : Q2R (-2) = -2.
Proof. unfold Q2R; cbn; lra. Qed.

(** A value above 2 or below -2 is further than 1 from any sine. *)
Lemma far_from_sine (v x : R) : 2 <= v \/ v <= -2 -> 1 <= Rabs (v - sin x).
Proof.
  intros H. pose proof (SIN_bound x) as [L U].
  destruct H as [H|H].
  - pose proof (Rle_abs (v - sin x)). lra.
  - rewrite Rabs_minus_sym. pose proof (Rle_abs (sin x - v)). lra.
Qed.

Lemma max_error_small (Degree : Z) : max_error Degree < 1.
Proof. unfold max_error. destruct (Degree =? 7)%Z; lra. Qed.

(** C1 (fails on the code): the source documents a maximum error of
    9.39101e-07 (degree 7) and 5.31399e-09 (degree 9) over the sweep
    [i / 10000000.0], [-3610000000 <= i < 3610000000].  On a fresh
    [FastSin<double, 7>] the angle of [i = -50000000], which is -5.0, gives
    a value above 4, and on a fresh [FastSin<double, 9>] the angle of
    [i = -60000000], which is -6.0, gives a value below -5: both are more
    than 1 away from the sine. *)
Theorem C1_sweep_error_exceeds_bound (g1 g3 : spec_float) (g2 : Z) :
  (-3610000000 <= -60000000 < -50000000)%Z /\
  (-50000000 < 3610000000)%Z /\
  (exists o v,
     call double 7 (fresh g1 g2 g3) (sweep (-50000000)) = Returns (o, v) /\
     4 <= to_R v /\
     Rabs (to_R v - sin (to_R (sweep (-50000000)))) > max_error 7) /\
  (exists o v,
     call double 9 (fresh g1 g2 g3) (sweep (-60000000)) = Returns (o, v) /\
     to_R v <= -5 /\
     Rabs (to_R v - sin (to_R (sweep (-60000000)))) > max_error 9).
Proof.
  split; [lia|]. split; [lia|]. split.
  - eexists. eexists. split; [vm_compute; reflexivity|].
    match goal with |- _ <= to_R ?v /\ _ => set (w := v) end.
    assert (H : 4 <= to_R w).
    { replace 4 with (Q2R 4) by (unfold Q2R; cbn; lra).
      apply to_R_ge. vm_compute. intros C; discriminate C. }
    split; [exact H|].
    pose proof (far_from_sine (to_R w) (to_R (sweep (-50000000)))) as F.
    pose proof (max_error_small 7). lra.
  - eexists. eexists. split; [vm_compute; reflexivity|].
    match goal with |- to_R ?v <= _ /\ _ => set (w := v) end.
    assert (H : to_R w <= -5).
    { replace (-5) with (Q2R (-5)) by (unfold Q2R; cbn; lra).
      apply to_R_le. vm_compute. intros C; discriminate C. }
    split; [exact H|].
    pose proof (far_from_sine (to_R w) (to_R (sweep (-60000000)))) as F.
    pose proof (max_error_small 9). lra.
Qed.

End Accuracy.

(** ** The range reduction, way by way *)

Section Reduction.

Variable T : format.

Lemma bump_eq (o : t) (angle : spec_float) (k : Z) :
  bump T o angle k =
  (Build (m_hasValidPreviousAngle o) (m_previousAngle o) k
     (dmul (int_to_double k) PI_MULT_2),
   dsub (widen T angle) (dmul (int_to_double k) PI_MULT_2)).
Proof. reflexivity. Qed.

(** What the reduction returns on each of the four ways. *)
Lemma reduce_by_path (o : t) (angle : spec_float) :
  reduce T o angle =
  match taken T o angle with
  | Kept => Returns (o, fast_angleShort T o angle)
  | Up =>
      n <- incr (m_previousFullCyckles o) ;;
      Returns (Build true (m_previousAngle o) n
                 (dmul (int_to_double n) PI_MULT_2),
               dsub (widen T angle) (dmul (int_to_double n) PI_MULT_2))
  | Down =>
      n <- decr (m_previousFullCyckles o) ;;
      Returns (Build true (m_previousAngle o) n
                 (dmul (int_to_double n) PI_MULT_2),
               dsub (widen T angle) (dmul (int_to_double n) PI_MULT_2))
  | Slow =>
      n <- double_to_int (quotient T angle) ;;
      Returns (Build false (m_previousAngle o) n
                 (dmul (int_to_double n) PI_MULT_2),
               dmul (dsub (quotient T angle) (int_to_double n)) PI_MULT_2)
  end.
Proof.
  destruct (m_hasValidPreviousAngle o) eqn:V.
  - assert (G : forall a, fast_block T o None angle
                  = Returns (set_valid false o, Some a) ->
                reduce T o angle =
                (n <- double_to_int (quotient T angle) ;;
                 Returns (Build false (m_previousAngle o) n
                            (dmul (int_to_double n) PI_MULT_2),
                          dmul (dsub (quotient T angle) (int_to_double n))
                            PI_MULT_2))).
    { intros a F. rewrite (reduce_gives_up T o angle a F).
      apply reduce_set_invalid. }
    unfold taken. rewrite V.
    destruct (gt (fast_diff T o angle) zero) eqn:D.
    + destruct (gt (fast_angleShort T o angle) PI_MULT_2) eqn:A.
      * destruct (le (fast_angleShort T o angle) PI_MULT_4) eqn:B.
        -- unfold reduce, fast_block. rewrite V, D, A, B.
           destruct (incr (m_previousFullCyckles o)) as [n|f];
             [|reflexivity].
           cbn [bind]. rewrite bump_eq, V. cbn [fst snd].
           unfold slow_block. cbn [m_hasValidPreviousAngle negb].
           reflexivity.
        -- apply (G (fast_angleShort T o angle)).
           unfold fast_block. rewrite V, D, A, B. reflexivity.
      * apply reduce_keeps; [|exact V].
        unfold fast_block. rewrite V, D, A. reflexivity.
    + destruct (lt (fast_angleShort T o angle) zero) eqn:A.
      * destruct (ge (fast_angleShort T o angle) (SFopp PI_MULT_2)) eqn:B.
        -- unfold reduce, fast_block. rewrite V, D, A, B.
           destruct (decr (m_previousFullCyckles o)) as [n|f];
             [|reflexivity].
           cbn [bind]. rewrite bump_eq, V. cbn [fst snd].
           unfold slow_block. cbn [m_hasValidPreviousAngle negb].
           reflexivity.
        -- apply (G (fast_angleShort T o angle)).
           unfold fast_block. rewrite V, D, A, B. reflexivity.
      * apply reduce_keeps; [|exact V].
        unfold fast_block. rewrite V, D, A. reflexivity.
  - unfold taken. rewrite V. apply (reduce_invalid T o angle V).
Qed.

(** The reduction leaves the previous angle alone. *)
Lemma reduce_previous (o o1 : t) (angle a : spec_float) :
  reduce T o angle = Returns (o1, a) -> m_previousAngle o1 = m_previousAngle o.
Proof.
  rewrite reduce_by_path. destruct (taken T o angle).
  - intros H; inversion H; reflexivity.
  - intros H. apply bind_Returns in H. destruct H as (n & _ & H).
    inversion H; reflexivity.
  - intros H. apply bind_Returns in H. destruct H as (n & _ & H).
    inversion H; reflexivity.
  - intros H. apply bind_Returns in H. destruct H as (n & _ & H).
    inversion H; reflexivity.
Qed.

Lemma incr_Returns (n k : Z) :
  incr n = Returns k -> k = n + 1 /\ n < INT_MAX.
Proof.
  unfold incr. destruct (Z.ltb_spec n INT_MAX) as [L|L]; intros H;
    inversion H.
  split; [reflexivity|assumption].
Qed.

Lemma decr_Returns (n k : Z) :
  decr n = Returns k -> k = n - 1 /\ INT_MIN < n.
Proof.
  unfold decr. destruct (Z.ltb_spec INT_MIN n) as [L|L]; intros H;
    inversion H.
  split; [reflexivity|assumption].
Qed.

Lemma double_to_int_Returns (x : spec_float) (k : Z) :
  double_to_int x = Returns k -> truncate x = Some k /\ in_int k = true.
Proof.
  unfold double_to_int. destruct (truncate x) as [n|]; [|discriminate 1].
  destruct (in_int n) eqn:E; intros H; inversion H. subst.
  split; [reflexivity|assumption].
Qed.

Lemma in_int_bounds (n : Z) : in_int n = true <-> INT_MIN <= n <= INT_MAX.
Proof. unfold in_int. rewrite andb_true_iff, !Z.leb_le. tauto. Qed.

(** The reduction keeps the cached product in step with the count. *)
Lemma reduce_product_cached (o o1 : t) (angle a : spec_float) :
  (m_hasValidPreviousAngle o = true -> product_cached o) ->
  reduce T o angle = Returns (o1, a) ->
  product_cached o1.
Proof.
  intros I. rewrite reduce_by_path. unfold taken.
  destruct (m_hasValidPreviousAngle o) eqn:V.
  - specialize (I eq_refl). destruct I as [I1 I2].
    apply in_int_bounds in I1.
    assert (U : forall r : outcome (t * spec_float),
              r = (n <- incr (m_previousFullCyckles o) ;;
                   Returns (Build true (m_previousAngle o) n
                              (dmul (int_to_double n) PI_MULT_2),
                            dsub (widen T angle)
                              (dmul (int_to_double n) PI_MULT_2))) ->
              r = Returns (o1, a) -> product_cached o1).
    { intros r -> H. apply bind_Returns in H. destruct H as (n & Hn & H).
      apply incr_Returns in Hn. inversion H; subst. split; [|reflexivity].
      cbn [m_previousFullCyckles]. apply in_int_bounds.
      unfold INT_MAX, INT_MIN in *. lia. }
    assert (D : forall r : outcome (t * spec_float),
              r = (n <- decr (m_previousFullCyckles o) ;;
                   Returns (Build true (m_previousAngle o) n
                              (dmul (int_to_double n) PI_MULT_2),
                            dsub (widen T angle)
                              (dmul (int_to_double n) PI_MULT_2))) ->
              r = Returns (o1, a) -> product_cached o1).
    { intros r -> H. apply bind_Returns in H. destruct H as (n & Hn & H).
      apply decr_Returns in Hn. inversion H; subst. split; [|reflexivity].
      cbn [m_previousFullCyckles]. apply in_int_bounds.
      unfold INT_MAX, INT_MIN in *. lia. }
    assert (S : forall r : outcome (t * spec_float),
              r = (n <- double_to_int (quotient T angle) ;;
                   Returns (Build false (m_previousAngle o) n
                              (dmul (int_to_double n) PI_MULT_2),
                            dmul (dsub (quotient T angle) (int_to_double n))
                              PI_MULT_2)) ->
              r = Returns (o1, a) -> product_cached o1).
    { intros r -> H. apply bind_Returns in H. destruct H as (n & Hn & H).
      apply double_to_int_Returns in Hn. inversion H; subst.
      split; [apply Hn|reflexivity]. }
    destruct (gt (fast_diff T o angle) zero).
    + destruct (gt (fast_angleShort T o angle) PI_MULT_2).
      * destruct (le (fast_angleShort T o angle) PI_MULT_4);
          [apply (U _ eq_refl)|apply (S _ eq_refl)].
      * intros H; inversion H; subst.
        split; [apply in_int_bounds; assumption|assumption].
    + destruct (lt (fast_angleShort T o angle) zero).
      * destruct (ge (fast_angleShort T o angle) (SFopp PI_MULT_2));
          [apply (D _ eq_refl)|apply (S _ eq_refl)].
      * intros H; inversion H; subst.
        split; [apply in_int_bounds; assumption|assumption].
  - intros H. apply bind_Returns in H. destruct H as (n & Hn & H).
    apply double_to_int_Returns in Hn. inversion H; subst.
    split; [apply Hn|reflexivity].
Qed.

Variable Degree : Z.

(** A call that returns is a reduction that returns, followed by the
    assignments of lines 166-167. *)
Lemma call_Returns (o o' : t) (angle v : spec_float) :
  call T Degree o angle = Returns (o', v) ->
  exists o1 a,
    reduce T o angle = Returns (o1, a) /\ o' = set_previous angle o1 /\
    evaluate T Degree (snd (fold a)) (fst (fold a))
      (dmul (fst (fold a)) (fst (fold a))) = Returns v.
Proof.
  intros H. unfold call in H.
  apply bind_Returns in H. destruct H as ([o1 a] & Hr & H).
  exists o1, a. destruct (fold a) as [x s]. cbn [fst snd].
  apply bind_Returns in H. destruct H as (v' & Hv & H).
  inversion H; subst. repeat split; trivial.
Qed.

Lemma call_product_cached (o o' : t) (angle v : spec_float) :
  (m_hasValidPreviousAngle o = true -> product_cached o) ->
  call T Degree o angle = Returns (o', v) ->
  m_hasValidPreviousAngle o' = true /\ m_previousAngle o' = angle /\
  product_cached o'.
Proof.
  intros I H. apply call_Returns in H.
  destruct H as (o1 & a & Hr & -> & _).
  split; [reflexivity|]. split; [reflexivity|].
  exact (reduce_product_cached o o1 angle a I Hr).
Qed.

Lemma run_product_cached (angles : list spec_float) (o o' : t) :
  (m_hasValidPreviousAngle o = true -> product_cached o) ->
  run T Degree o angles = Returns o' ->
  m_hasValidPreviousAngle o' = true -> product_cached o'.
Proof.
  revert o. induction angles as [|angle rest IH]; intros o I H.
  - inversion H; subst. exact I.
  - cbn [run] in H. apply bind_Returns in H.
    destruct H as ([o1 v] & Hc & H). cbn [fst] in H.
    apply (IH o1); [|exact H].
    intros _. apply (call_product_cached o o1 angle v I Hc).
Qed.

End Reduction.

(** ** Signs on the slow path

    The conversion of an [int] to [double] is exact, and so the quotient
    less its integer part, and its product with [2 pi], are not negative
    when the angle is not. *)

Module Fraction.

Lemma iter_xO_value (m d : positive) :
  Zpos (Pos.iter xO m d) = Zpos m * 2 ^ Zpos d.
Proof.
  induction d as [|d IH] using Pos.peano_ind.
  - cbn [Pos.iter]. rewrite Pos2Z.inj_xO. lia.
  - rewrite Pos.iter_succ, Pos2Z.inj_xO, IH, Pos2Z.inj_succ, Z.pow_succ_r; lia.
Qed.

Lemma iter_xO_digits (m d : positive) :
  digits2_pos (Pos.iter xO m d) = (digits2_pos m + d)%positive.
Proof.
  induction d as [|d IH] using Pos.peano_ind.
  - cbn [Pos.iter digits2_pos]. lia.
  - rewrite Pos.iter_succ. cbn [digits2_pos]. rewrite IH. lia.
Qed.

Lemma digits2_pos_size (p : positive) : digits2_pos p = Pos.size p.
Proof. induction p; cbn; congruence. Qed.

Lemma digits_of_int (k : positive) :
  Zpos k <= INT_MAX -> Zpos (digits2_pos k) <= 31.
Proof.
  intros H. rewrite digits2_pos_size.
  pose proof (Pos.size_le k) as L.
  apply Pos2Z.pos_le_pos in L. rewrite Pos2Z.inj_pow in L.
  change (Zpos k~0) with (2 * Zpos k) in L.
  destruct (Z_le_gt_dec (Zpos (Pos.size k)) 31) as [?|G]; [assumption|].
  assert (B : 2 ^ 32 <= 2 ^ Zpos (Pos.size k))
    by (apply Z.pow_le_mono_r; lia).
  change (2 ^ 32) with 4294967296 in B.
  unfold INT_MAX in H. change (2 ^ 31) with 2147483648 in H.
  set (X := 2 ^ Zpos (Pos.size k)) in *. lia.
Qed.

Lemma binary_round_aux_exact (s : bool) (m : positive) (e : Z) :
  Zpos (digits2_pos m) = 53 -> -1074 <= e <= 971 ->
  binary_round_aux 53 1024 s (Zpos m) e loc_Exact = S754_finite s m e.
Proof.
  intros D E. unfold binary_round_aux.
  assert (S : shr_fexp 53 1024 (Zpos m) e loc_Exact
              = (Build_shr_record (Zpos m) false false, e)).
  { unfold shr_fexp, Zdigits2. rewrite D. unfold fexp, emin.
    replace (Z.max (53 + e - 53) (3 - 1024 - 53) - e) with 0 by lia.
    reflexivity. }
  rewrite S. cbn [shr_m loc_of_shr_record round_nearest_even].
  rewrite S. cbn [shr_m].
  destruct (Z.leb_spec e (1024 - 53)); [reflexivity|lia].
Qed.

Lemma int_to_double_pos (k : positive) :
  Zpos k <= INT_MAX ->
  exists m e, int_to_double (Zpos k) = S754_finite false m e /\
              e < 0 /\ Zpos m = Zpos k * 2 ^ (- e).
Proof.
  intros H. pose proof (digits_of_int k H) as D.
  assert (P : 0 < Zpos (digits2_pos k)) by lia.
  unfold int_to_double, of_Z. cbn [binary_normalize prec emax binary64].
  unfold binary_round.
  assert (F : fexp 53 1024 (Zpos (digits2_pos k) + 0)
              = Zpos (digits2_pos k) - 53).
  { unfold fexp, emin. lia. }
  rewrite F. unfold shl_align.
  destruct (Zpos (digits2_pos k) - 53 - 0) as [|p|p] eqn:Ep; try lia.
  exists (Pos.iter xO k p), (Zpos (digits2_pos k) - 53).
  split; [|split].
  - apply binary_round_aux_exact.
    + rewrite iter_xO_digits, Pos2Z.inj_add. lia.
    + lia.
  - lia.
  - rewrite iter_xO_value. f_equal. f_equal. lia.
Qed.

Lemma shl_align_value (m : positive) (e e' : Z) :
  e' <= e -> Zpos (fst (shl_align m e e')) = Zpos m * 2 ^ (e - e').
Proof.
  intros H. unfold shl_align.
  destruct (e' - e) as [|d|d] eqn:E; cbn [fst].
  - replace (e - e') with 0 by lia. lia.
  - lia.
  - rewrite iter_xO_value. f_equal. f_equal. lia.
Qed.

Lemma binary_round_aux_not_negative (prec emax : Z) (m e : Z) (l : location) :
  lt (binary_round_aux prec emax false m e l) zero = false.
Proof.
  unfold binary_round_aux.
  destruct (shr_fexp prec emax m e l) as [mrs' e'].
  destruct (shr_fexp prec emax _ e' loc_Exact) as [mrs'' e''].
  destruct (shr_m mrs''); try reflexivity.
  destruct (e'' <=? emax - prec); reflexivity.
Qed.

Lemma binary_normalize_not_negative (prec emax : Z) (m e : Z) :
  0 <= m -> lt (binary_normalize prec emax m e false) zero = false.
Proof.
  intros H. destruct m as [|p|p]; [reflexivity| |lia].
  cbn [binary_normalize]. unfold binary_round.
  destruct (shl_align p e _) as [mz ez].
  apply binary_round_aux_not_negative.
Qed.

Lemma PI_MULT_2_value : PI_MULT_2 = S754_finite false 7074237752028440 (-50).
Proof. vm_compute. reflexivity. Qed.

Lemma times_two_pi_not_negative (x : spec_float) :
  lt x zero = false -> lt (dmul x PI_MULT_2) zero = false.
Proof.
  rewrite PI_MULT_2_value.
  destruct x as [s|s| |s m e]; try reflexivity.
  - destruct s; [discriminate 1|reflexivity].
  - destruct s; [discriminate 1|]. intros _.
    apply binary_round_aux_not_negative.
Qed.

Lemma by_two_pi_not_negative (x : spec_float) :
  lt x zero = false -> lt (ddiv x PI_MULT_2) zero = false.
Proof.
  rewrite PI_MULT_2_value.
  destruct x as [s|s| |s m e]; try reflexivity.
  - destruct s; [discriminate 1|reflexivity].
  - destruct s; [discriminate 1|]. intros _.
    unfold ddiv, div. cbn [SFdiv prec emax binary64 xorb].
    destruct (SFdiv_core_binary _ _ _ _ _ _) as [[mz ez] lz].
    apply binary_round_aux_not_negative.
Qed.

(** The fractional part of a number that is not negative is not negative. *)
Lemma fraction_not_negative (q : spec_float) (k : Z) :
  lt q zero = false -> truncate q = Some k -> in_int k = true ->
  lt (dsub q (int_to_double k)) zero = false.
Proof.
  intros Hq Hk Hi.
  destruct q as [s|s| |s mq eq]; try discriminate Hk.
  - inversion Hk; subst k. destruct s; reflexivity.
  - destruct s; [discriminate Hq|]. cbn [truncate cond_Zopp] in Hk.
    injection Hk as Ek.
    assert (K0 : 0 <= k).
    { rewrite <- Ek. apply Z.shiftl_nonneg. lia. }
    destruct k as [|k'|k']; [reflexivity| |lia].
    apply in_int_bounds in Hi.
    destruct (int_to_double_pos k' (proj2 Hi)) as (mk & ek & -> & Ee & Em).
    unfold dsub, sub. cbn [SFsub prec emax binary64 cond_Zopp].
    apply binary_normalize_not_negative.
    rewrite !shl_align_value by lia. rewrite Em.
    destruct (Z.le_gt_cases 0 eq) as [P|N].
    + rewrite Z.shiftl_mul_pow2 in Ek by lia. rewrite <- Ek.
      replace (Z.min eq ek) with ek by lia.
      replace (ek - ek) with 0 by lia.
      replace (eq - ek) with (eq + - ek) by lia.
      rewrite Z.pow_add_r by lia. lia.
    + rewrite Z.shiftl_div_pow2 in Ek by lia.
      assert (M : Zpos k' * 2 ^ (- eq) <= Zpos mq).
      { rewrite <- Ek. rewrite Z.mul_comm. apply Z.mul_div_le.
        apply Z.pow_pos_nonneg; lia. }
      destruct (Z.le_gt_cases eq ek) as [Q|Q].
      * replace (Z.min eq ek) with eq by lia.
        replace (eq - eq) with 0 by lia.
        rewrite <- Z.mul_assoc, <- Z.pow_add_r by lia.
        replace (- ek + (ek - eq)) with (- eq) by lia. lia.
      * replace (Z.min eq ek) with ek by lia.
        replace (ek - ek) with 0 by lia.
        replace (- ek) with (- eq + (eq - ek)) by lia.
        rewrite Z.pow_add_r by lia.
        assert (0 < 2 ^ (eq - ek)) by (apply Z.pow_pos_nonneg; lia).
        nia.
Qed.

End Fraction.

(** ** The cache after a call *)

Section Cache.

Variable T : format.
Variable Degree : Z.

Lemma taken_Kept (o : t) (angle : spec_float) :
  taken T o angle = Kept ->
  m_hasValidPreviousAngle o = true /\
  (gt (fast_diff T o angle) zero = true ->
     gt (fast_angleShort T o angle) PI_MULT_2 = false) /\
  (gt (fast_diff T o angle) zero = false ->
     lt (fast_angleShort T o angle) zero = false).
Proof.
  unfold taken. destruct (m_hasValidPreviousAngle o); [|discriminate 1].
  destruct (gt (fast_diff T o angle) zero).
  - destruct (gt (fast_angleShort T o angle) PI_MULT_2).
    + destruct (le (fast_angleShort T o angle) PI_MULT_4); discriminate 1.
    + intros _. repeat split; trivial. discriminate 1.
  - destruct (lt (fast_angleShort T o angle) zero).
    + destruct (ge (fast_angleShort T o angle) (SFopp PI_MULT_2));
        discriminate 1.
    + intros _. repeat split; trivial. discriminate 1.
Qed.

(** C3 (amended): after every completed call of a sequence of calls on a
    fresh object the flag is up, [m_previousAngle] is the angle of that
    call, the count is an [int] and [m_previousFullCycklesAngle] is exactly
    the [double] product of the count and [PI_MULT_2].  When the call was
    served by the fast path with the count unchanged, the [double]
    difference [m_previousAngle - m_previousFullCycklesAngle] is not above
    [2 pi] if the angle had increased ([2 pi] itself is admitted), and not
    below 0 if it had not. *)
Theorem C3_cache_after_call
  (g1 g3 : spec_float) (g2 : Z) (angles : list spec_float)
  (o0 o : t) (angle v : spec_float) :
  run T Degree (fresh g1 g2 g3) angles = Returns o0 ->
  call T Degree o0 angle = Returns (o, v) ->
  m_hasValidPreviousAngle o = true /\
  m_previousAngle o = angle /\
  product_cached o /\
  (taken T o0 angle = Kept ->
   (gt (fast_diff T o0 angle) zero = true ->
      gt (dsub (widen T (m_previousAngle o)) (m_previousFullCycklesAngle o))
         PI_MULT_2 = false) /\
   (gt (fast_diff T o0 angle) zero = false ->
      lt (dsub (widen T (m_previousAngle o)) (m_previousFullCycklesAngle o))
         zero = false)).
Proof.
  intros Hrun Hcall.
  assert (I : m_hasValidPreviousAngle o0 = true -> product_cached o0).
  { apply (run_product_cached T Degree angles (fresh g1 g2 g3) o0);
      [discriminate 1|exact Hrun]. }
  destruct (call_product_cached T Degree o0 o angle v I Hcall)
    as (V & P & C).
  split; [exact V|]. split; [exact P|]. split; [exact C|].
  intros K. apply call_Returns in Hcall.
  destruct Hcall as (o1 & a & Hr & -> & _).
  rewrite reduce_by_path, K in Hr. inversion Hr; subst o1 a.
  cbn [set_previous m_previousAngle m_previousFullCycklesAngle].
  apply (taken_Kept o0 angle K).
Qed.

(** C2 (amended): when the reduction returns, it leaves in the object a
    count of full turns that is an [int], with its cached product, and
    [angleShort] is derived from the angle and that count: on the fast
    path it is the [double] difference of the angle and the rounded
    product of the count and [2 pi], the count being the previous one,
    one more or one less; on the slow path, for an angle that is not
    negative, the count is the integer part of the quotient [angle / 2 pi]
    and [angleShort] is the [double] product of [2 pi] and the quotient
    less the count, which is not below 0.  When the fast path
    keeps the count, [angleShort] is not above [2 pi] if the angle has
    increased ([2 pi] itself is accepted) and not below 0 if it has not. *)
Theorem C2_reduced_angle (o o1 : t) (angle a : spec_float) :
  (m_hasValidPreviousAngle o = true -> product_cached o) ->
  reduce T o angle = Returns (o1, a) ->
  product_cached o1 /\
  match taken T o angle with
  | Kept =>
      m_previousFullCyckles o1 = m_previousFullCyckles o /\
      a = dsub (widen T angle)
            (dmul (int_to_double (m_previousFullCyckles o1)) PI_MULT_2) /\
      (gt (fast_diff T o angle) zero = true -> gt a PI_MULT_2 = false) /\
      (gt (fast_diff T o angle) zero = false -> lt a zero = false)
  | Up =>
      m_previousFullCyckles o1 = m_previousFullCyckles o + 1 /\
      a = dsub (widen T angle)
            (dmul (int_to_double (m_previousFullCyckles o1)) PI_MULT_2)
  | Down =>
      m_previousFullCyckles o1 = m_previousFullCyckles o - 1 /\
      a = dsub (widen T angle)
            (dmul (int_to_double (m_previousFullCyckles o1)) PI_MULT_2)
  | Slow =>
      lt (widen T angle) zero = false ->
      truncate (quotient T angle) = Some (m_previousFullCyckles o1) /\
      a = dmul (dsub (quotient T angle)
                  (int_to_double (m_previousFullCyckles o1))) PI_MULT_2 /\
      lt a zero = false
  end.
Proof.
  intros I H. split; [exact (reduce_product_cached T o o1 angle a I H)|].
  rewrite reduce_by_path in H.
  destruct (taken T o angle) eqn:K.
  - inversion H; subst o1 a. clear H.
    destruct (taken_Kept o angle K) as (V & G1 & G2).
    destruct (I V) as [_ P].
    split; [reflexivity|]. split; [|split; assumption].
    unfold fast_angleShort. rewrite P. reflexivity.
  - apply bind_Returns in H. destruct H as (n & Hn & H).
    apply incr_Returns in Hn. destruct Hn as [-> _].
    inversion H; subst o1 a. split; reflexivity.
  - apply bind_Returns in H. destruct H as (n & Hn & H).
    apply decr_Returns in Hn. destruct Hn as [-> _].
    inversion H; subst o1 a. split; reflexivity.
  - apply bind_Returns in H. destruct H as (n & Hn & H).
    apply double_to_int_Returns in Hn. destruct Hn as [Hn Hi].
    inversion H; subst o1 a. intros W.
    split; [exact Hn|]. split; [reflexivity|].
    cbn [m_previousFullCyckles].
    apply Fraction.times_two_pi_not_negative.
    apply Fraction.fraction_not_negative; [|exact Hn|exact Hi].
    apply Fraction.by_two_pi_not_negative, W.
Qed.

End Cache.

(** C3 (as stated, fails): [m_previousAngle - m_previousFullCycklesAngle]
    does not stay in [[0, 2 pi)].  After the angles 0.0 and [2 pi] the
    difference is [2 pi], which the fast path accepts; after the angle -5.0
    on a fresh object, which the slow path truncates toward zero, it is
    -5.0. *)
Lemma C3_window_left :
  (exists o,
     run double 7 at_rest [zero; PI_MULT_2] = Returns o /\
     m_hasValidPreviousAngle o = true /\ ~ in_window o) /\
  (exists o,
     run double 7 at_rest [minus_five] = Returns o /\
     m_hasValidPreviousAngle o = true /\ ~ in_window o).
Proof.
  split.
  - exists after_turn. split; [vm_compute; reflexivity|].
    split; [reflexivity|]. intros [_ H]. vm_compute in H. discriminate H.
  - eexists. split; [vm_compute; reflexivity|].
    split; [reflexivity|]. intros [H _]. vm_compute in H.
    apply H. reflexivity.
Qed.

(** C2 (as stated, fails): the reduced angle is not always in
    [[0, 2 pi)].  On the object left by the angle 0.0 the angle [2 pi] is
    reduced to [2 pi]; on a fresh object the angle -5.0 is reduced to
    -5.0. *)
Lemma C2_outside_turn :
  run double 7 at_rest [zero] = Returns after_zero /\
  (exists o1 a,
     reduce double after_zero PI_MULT_2 = Returns (o1, a) /\
     a = PI_MULT_2 /\ ~ in_turn a) /\
  (exists o1 a,
     reduce double at_rest minus_five = Returns (o1, a) /\
     a = minus_five /\ ~ in_turn a).
Proof.
  split; [vm_compute; reflexivity|]. split.
  - eexists. eexists. split; [vm_compute; reflexivity|].
    split; [vm_compute; reflexivity|].
    intros [_ H]. vm_compute in H. discriminate H.
  - eexists. eexists. split; [vm_compute; reflexivity|].
    split; [vm_compute; reflexivity|].
    intros [H _]. vm_compute in H. apply H. reflexivity.
Qed.

(** The theorem of C3 on the calls 0.0 and [2 pi] of a fresh
    [FastSin<double, 7>]. *)
Lemma C3_cache_after_call_witness :
  run double 7 (fresh zero 0 zero) [zero] = Returns after_zero /\
  call double 7 after_zero PI_MULT_2 = Returns (after_turn, S754_zero true) /\
  m_hasValidPreviousAngle after_turn = true /\
  m_previousAngle after_turn = PI_MULT_2 /\
  product_cached after_turn /\
  (taken double after_zero PI_MULT_2 = Kept ->
   (gt (fast_diff double after_zero PI_MULT_2) zero = true ->
      gt (dsub (widen double (m_previousAngle after_turn))
            (m_previousFullCycklesAngle after_turn)) PI_MULT_2 = false) /\
   (gt (fast_diff double after_zero PI_MULT_2) zero = false ->
      lt (dsub (widen double (m_previousAngle after_turn))
            (m_previousFullCycklesAngle after_turn)) zero = false)).
Proof.
  assert (H1 : run double 7 (fresh zero 0 zero) [zero] = Returns after_zero)
    by (vm_compute; reflexivity).
  assert (H2 : call double 7 after_zero PI_MULT_2
               = Returns (after_turn, S754_zero true))
    by (vm_compute; reflexivity).
  split; [exact H1|]. split; [exact H2|].
  exact (C3_cache_after_call double 7 zero zero 0 [zero] after_zero
           after_turn PI_MULT_2 (S754_zero true) H1 H2).
Defined.

(** The theorem of C2 on the angle [2 pi] passed after 0.0. *)
Lemma C2_reduced_angle_witness :
  (m_hasValidPreviousAngle after_zero = true -> product_cached after_zero) /\
  reduce double after_zero PI_MULT_2 = Returns (after_zero, PI_MULT_2) /\
  product_cached after_zero /\
  match taken double after_zero PI_MULT_2 with
  | Kept =>
      m_previousFullCyckles after_zero = m_previousFullCyckles after_zero /\
      PI_MULT_2 = dsub (widen double PI_MULT_2)
            (dmul (int_to_double (m_previousFullCyckles after_zero))
               PI_MULT_2) /\
      (gt (fast_diff double after_zero PI_MULT_2) zero = true ->
         gt PI_MULT_2 PI_MULT_2 = false) /\
      (gt (fast_diff double after_zero PI_MULT_2) zero = false ->
         lt PI_MULT_2 zero = false)
  | Up =>
      m_previousFullCyckles after_zero = m_previousFullCyckles after_zero + 1 /\
      PI_MULT_2 = dsub (widen double PI_MULT_2)
            (dmul (int_to_double (m_previousFullCyckles after_zero))
               PI_MULT_2)
  | Down =>
      m_previousFullCyckles after_zero = m_previousFullCyckles after_zero - 1 /\
      PI_MULT_2 = dsub (widen double PI_MULT_2)
            (dmul (int_to_double (m_previousFullCyckles after_zero))
               PI_MULT_2)
  | Slow =>
      lt (widen double PI_MULT_2) zero = false ->
      truncate (quotient double PI_MULT_2)
        = Some (m_previousFullCyckles after_zero) /\
      PI_MULT_2 = dmul (dsub (quotient double PI_MULT_2)
                  (int_to_double (m_previousFullCyckles after_zero)))
               PI_MULT_2 /\
      lt PI_MULT_2 zero = false
  end.
Proof.
  assert (H1 : m_hasValidPreviousAngle after_zero = true ->
               product_cached after_zero).
  { intros _. split; vm_compute; reflexivity. }
  assert (H2 : reduce double after_zero PI_MULT_2
               = Returns (after_zero, PI_MULT_2))
    by (vm_compute; reflexivity).
  split; [exact H1|]. split; [exact H2|].
  exact (C2_reduced_angle double after_zero after_zero PI_MULT_2 PI_MULT_2
           H1 H2).
Defined.

(** C4 (as stated, fails): the increment is not always made.  The angle
    13493037700.0 leaves a fresh [FastSin<double>] with a valid cache and
    the count [INT_MAX].  The angle 13493037707.0 then has [diff > 0] and
    [2 pi < angleShort <= 4 pi], with everything finite, and the [++] of
    line 112 overflows: the count is not incremented, nothing is
    recomputed, and the call has no defined result. *)
Lemma C4_increment_overflows :
  run double 7 at_rest [last_turn] = Returns at_last_turn /\
  m_hasValidPreviousAngle at_last_turn = true /\
  m_previousFullCyckles at_last_turn = INT_MAX /\
  is_finite past_last_turn = true /\
  is_finite (m_previousAngle at_last_turn) = true /\
  is_finite (m_previousFullCycklesAngle at_last_turn) = true /\
  gt (fast_diff double at_last_turn past_last_turn) zero = true /\
  gt (fast_angleShort double at_last_turn past_last_turn) PI_MULT_2
    = true /\
  le (fast_angleShort double at_last_turn past_last_turn) PI_MULT_4
    = true /\
  reduce double at_last_turn past_last_turn = Undefined SignedOverflow /\
  call double 7 at_last_turn past_last_turn = Undefined SignedOverflow.
Proof.
  do 10 (split; [vm_compute; reflexivity|]). vm_compute. reflexivity.
Qed.

(** The theorem of C4 on the angles 2 pi and 4 pi passed after 0.0: the
    first is accepted, the second increments the count; and on the angle
    13493037707.0 passed after 13493037700.0, where the increment
    overflows. *)
Lemma C4_fast_path_witness :
  m_hasValidPreviousAngle after_zero = true /\
  m_hasValidPreviousAngle at_last_turn = true /\
  reduce double after_zero PI_MULT_2
    = Returns (after_zero, fast_angleShort double after_zero PI_MULT_2) /\
  reduce double after_zero PI_MULT_4
    = Returns
        (Build true zero 1 (dmul (int_to_double 1) PI_MULT_2),
         dsub PI_MULT_4 (dmul (int_to_double 1) PI_MULT_2)) /\
  reduce double at_last_turn past_last_turn = Undefined SignedOverflow.
Proof.
  split; [reflexivity|]. split; [reflexivity|]. split; [|split].
  - destruct (C4_fast_path double after_zero PI_MULT_2 eq_refl)
      as (_ & _ & H & _).
    destruct H as (A & _); [vm_compute; reflexivity|].
    apply A. vm_compute. reflexivity.
  - destruct (C4_fast_path double after_zero PI_MULT_4 eq_refl)
      as (_ & _ & H & _).
    destruct H as (_ & U & _); [vm_compute; reflexivity|].
    destruct U as (R & _); [vm_compute; reflexivity..|].
    apply R. vm_compute. reflexivity.
  - destruct (C4_fast_path double at_last_turn past_last_turn eq_refl)
      as (_ & _ & H & _).
    destruct H as (_ & U & _); [vm_compute; reflexivity|].
    destruct U as (_ & V); [vm_compute; reflexivity..|].
    apply V. vm_compute. intros C. discriminate C.
Defined.


(** ** Where a call is defined *)

Section Totality.

Variable T : format.
Variable Degree : Z.

Lemma evaluate_Returns (sign x1 x2 : spec_float) :
  Degree = 7 \/ Degree = 9 ->
  exists v, evaluate T Degree sign x1 x2 = Returns v.
Proof.
  unfold evaluate. intros [-> | ->]; cbn [Z.eqb Pos.eqb]; eexists;
    reflexivity.
Qed.

Lemma evaluate_missing (sign x1 x2 : spec_float) :
  Degree <> 7 -> Degree <> 9 ->
  evaluate T Degree sign x1 x2 = Undefined MissingReturn.
Proof.
  intros H7 H9. unfold evaluate.
  destruct (Z.eqb_spec Degree 7) as [E|_]; [contradiction|].
  destruct (Z.eqb_spec Degree 9) as [E|_]; [contradiction|reflexivity].
Qed.

(** A call goes as its reduction goes, then as its [return] goes. *)
Lemma call_after_reduce (o : t) (angle : spec_float) :
  (forall o1 a, reduce T o angle = Returns (o1, a) ->
     call T Degree o angle =
     (v <- evaluate T Degree (snd (fold a)) (fst (fold a))
             (dmul (fst (fold a)) (fst (fold a))) ;;
      Returns (set_previous angle o1, v))) /\
  (forall f, reduce T o angle = Undefined f ->
     call T Degree o angle = Undefined f).
Proof.
  unfold call. split.
  - intros o1 a ->. cbn [bind]. destruct (fold a) as [x s]. reflexivity.
  - intros f ->. reflexivity.
Qed.

(** C7 (amended): with degree 7 or 9 a call returns a value exactly when
    the integer operations of its reduction stay within [int]: on the slow
    path, which a fresh object always takes, the quotient [angle / 2 pi]
    truncated toward zero has to lie between [INT_MIN] and [INT_MAX]; on
    the fast path an increment needs the count below [INT_MAX] and a
    decrement needs it above [INT_MIN].  Otherwise the behaviour is
    undefined, by the conversion of an out-of-range [double] to [int] or
    by the overflow of the count, and by nothing else. *)
Theorem C7_defined_within_int (o : t) (angle : spec_float) :
  Degree = 7 \/ Degree = 9 ->
  ((exists r, call T Degree o angle = Returns r) <->
   match taken T o angle with
   | Kept => True
   | Up => m_previousFullCyckles o < INT_MAX
   | Down => INT_MIN < m_previousFullCyckles o
   | Slow =>
       exists n, truncate (quotient T angle) = Some n /\
                 INT_MIN <= n <= INT_MAX
   end) /\
  ((exists r, call T Degree o angle = Returns r) \/
   call T Degree o angle = Undefined FloatToIntOutOfRange \/
   call T Degree o angle = Undefined SignedOverflow) /\
  (m_hasValidPreviousAngle o = false -> taken T o angle = Slow).
Proof.
  intros HD.
  destruct (call_after_reduce o angle) as [CR CU].
  assert (R : forall o1 a, reduce T o angle = Returns (o1, a) ->
              exists r, call T Degree o angle = Returns r).
  { intros o1 a H. rewrite (CR o1 a H).
    destruct (evaluate_Returns (snd (fold a)) (fst (fold a))
                (dmul (fst (fold a)) (fst (fold a))) HD) as [v ->].
    eexists. reflexivity. }
  assert (N : forall f, reduce T o angle = Undefined f ->
              ~ exists r, call T Degree o angle = Returns r).
  { intros f H [r Hr]. rewrite (CU f H) in Hr. discriminate Hr. }
  pose proof (reduce_by_path T o angle) as P.
  split; [|split].
  - destruct (taken T o angle).
    + split; [trivial|]. intros _. apply (R _ _ P).
    + unfold incr in P.
      destruct (Z.ltb_spec (m_previousFullCyckles o) INT_MAX) as [L|L].
      * split; [intros _; exact L|]. intros _. apply (R _ _ P).
      * split; [|lia]. intros C. destruct (N _ P C).
    + unfold decr in P.
      destruct (Z.ltb_spec INT_MIN (m_previousFullCyckles o)) as [L|L].
      * split; [intros _; exact L|]. intros _. apply (R _ _ P).
      * split; [|lia]. intros C. destruct (N _ P C).
    + unfold double_to_int in P.
      destruct (truncate (quotient T angle)) as [n|].
      * destruct (in_int n) eqn:E.
        -- split; [|intros _; apply (R _ _ P)].
           intros _. exists n. split; [reflexivity|].
           apply in_int_bounds, E.
        -- split; [intros C; destruct (N _ P C)|].
           intros (k & Hk & B). inversion Hk; subst k.
           apply in_int_bounds in B. congruence.
      * split; [intros C; destruct (N _ P C)|].
        intros (k & Hk & _). discriminate Hk.
  - destruct (taken T o angle).
    + left. apply (R _ _ P).
    + unfold incr in P.
      destruct (m_previousFullCyckles o <? INT_MAX).
      * left. apply (R _ _ P).
      * right. right. apply (CU _ P).
    + unfold decr in P.
      destruct (INT_MIN <? m_previousFullCyckles o).
      * left. apply (R _ _ P).
      * right. right. apply (CU _ P).
    + unfold double_to_int in P.
      destruct (truncate (quotient T angle)) as [n|].
      * destruct (in_int n).
        -- left. apply (R _ _ P).
        -- right. left. apply (CU _ P).
      * right. left. apply (CU _ P).
  - intros V. unfold taken. rewrite V. reflexivity.
Qed.

(** C6 (amended): no degree is rejected.  For every degree the object is
    constructed and a call performs the range reduction; the call returns
    a value exactly when the degree is 7 or 9, and for any other degree it
    reaches the end of the function without a [return] statement. *)
Theorem C6_degree_not_checked (o o1 : t) (angle a : spec_float) :
  reduce T o angle = Returns (o1, a) ->
  ((exists r, call T Degree o angle = Returns r) <->
   Degree = 7 \/ Degree = 9) /\
  (Degree <> 7 -> Degree <> 9 ->
   call T Degree o angle = Undefined MissingReturn).
Proof.
  intros H. destruct (call_after_reduce o angle) as [CR _].
  specialize (CR o1 a H).
  assert (M : Degree <> 7 -> Degree <> 9 ->
              call T Degree o angle = Undefined MissingReturn).
  { intros H7 H9. rewrite CR, (evaluate_missing _ _ _ H7 H9). reflexivity. }
  split; [|exact M]. split.
  - intros [r Hr].
    destruct (Z.eq_dec Degree 7) as [E|H7]; [left; exact E|].
    destruct (Z.eq_dec Degree 9) as [E|H9]; [right; exact E|].
    rewrite (M H7 H9) in Hr. discriminate Hr.
  - intros HD. rewrite CR.
    destruct (evaluate_Returns (snd (fold a)) (fst (fold a))
                (dmul (fst (fold a)) (fst (fold a))) HD) as [v ->].
    eexists. reflexivity.
Qed.

End Totality.

(** C7 (as stated, fails): the operator is not defined on every finite
    [double].  On a fresh object the finite angle 1.4e10 has a quotient by
    [2 pi] above [INT_MAX], and its conversion to [int] is undefined; and
    after the angle 13493037700.0, whose count is [INT_MAX], the angle
    13493037707.0 increments the count. *)
Lemma C7_undefined_calls :
  is_finite fourteen_billion = true /\
  call double 7 at_rest fourteen_billion = Undefined FloatToIntOutOfRange /\
  is_finite last_turn = true /\ is_finite past_last_turn = true /\
  run double 7 at_rest [last_turn; past_last_turn]
    = Undefined SignedOverflow.
Proof. repeat split; vm_compute; reflexivity. Qed.

(** C6 (as stated, fails): the degree 5 is not rejected.  A fresh
    [FastSin<double, 5>] exists and its call on the angle 0.0 reduces the
    angle, then ends without a [return]. *)
Lemma C6_degree_five_accepted :
  5 <> 7 /\ 5 <> 9 /\
  reduce double at_rest zero
    = Returns (Build false zero 0 zero, zero) /\
  call double 5 at_rest zero = Undefined MissingReturn.
Proof.
  split; [discriminate 1|]. split; [discriminate 1|].
  split; vm_compute; reflexivity.
Qed.

(** The theorem of C7 on the angle [4 pi] passed after 0.0. *)
Lemma C7_defined_within_int_witness :
  (7 = 7 \/ 7 = 9) /\
  ((exists r, call double 7 after_zero PI_MULT_4 = Returns r) <->
   match taken double after_zero PI_MULT_4 with
   | Kept => True
   | Up => m_previousFullCyckles after_zero < INT_MAX
   | Down => INT_MIN < m_previousFullCyckles after_zero
   | Slow =>
       exists n, truncate (quotient double PI_MULT_4) = Some n /\
                 INT_MIN <= n <= INT_MAX
   end) /\
  ((exists r, call double 7 after_zero PI_MULT_4 = Returns r) \/
   call double 7 after_zero PI_MULT_4 = Undefined FloatToIntOutOfRange \/
   call double 7 after_zero PI_MULT_4 = Undefined SignedOverflow) /\
  (m_hasValidPreviousAngle after_zero = false ->
   taken double after_zero PI_MULT_4 = Slow).
Proof.
  split; [left; reflexivity|].
  exact (C7_defined_within_int double 7 after_zero PI_MULT_4
           (or_introl eq_refl)).
Defined.

(** The theorem of C6 on a fresh [FastSin<double, 5>] and the angle 0.0. *)
Lemma C6_degree_not_checked_witness :
  reduce double at_rest zero = Returns (Build false zero 0 zero, zero) /\
  ((exists r, call double 5 at_rest zero = Returns r) <-> 5 = 7 \/ 5 = 9) /\
  (5 <> 7 -> 5 <> 9 -> call double 5 at_rest zero = Undefined MissingReturn).
Proof.
  assert (H : reduce double at_rest zero
              = Returns (Build false zero 0 zero, zero))
    by (vm_compute; reflexivity).
  split; [exact H|].
  exact (C6_degree_not_checked double 5 at_rest (Build false zero 0 zero)
           zero zero H).
Defined.

(** ** The precision of the operations *)

Module Sign.

Section Format.

Variables prec emax : Z.

Lemma cond_Zopp_negb (s : bool) (m : Z) :
  cond_Zopp (negb s) m = - cond_Zopp s m.
Proof. destruct s; cbn; lia. Qed.

(** A difference is the sum with the opposite. *)
Lemma SFadd_opp (x y : spec_float) :
  SFadd prec emax x (SFopp y) = SFsub prec emax x y.
Proof.
  destruct x as [sx|sx| |sx mx ex], y as [sy|sy| |sy my ey];
    try reflexivity.
  - destruct sx, sy; reflexivity.
  - destruct sx, sy; reflexivity.
  - cbn [SFopp SFadd SFsub]. rewrite cond_Zopp_negb, Z.add_opp_r.
    reflexivity.
Qed.

Lemma binary_round_aux_opp (s : bool) (m e : Z) (l : location) :
  binary_round_aux prec emax (negb s) m e l
  = SFopp (binary_round_aux prec emax s m e l).
Proof.
  unfold binary_round_aux.
  destruct (shr_fexp prec emax m e l) as [mrs' e'].
  destruct (shr_fexp prec emax _ e' loc_Exact) as [mrs'' e''].
  destruct (shr_m mrs''); try reflexivity.
  destruct (e'' <=? emax - prec); reflexivity.
Qed.

(** The product with the opposite is the opposite of the product. *)
Lemma SFmul_opp (x y : spec_float) :
  SFmul prec emax (SFopp x) y = SFopp (SFmul prec emax x y).
Proof.
  destruct x as [sx|sx| |sx mx ex], y as [sy|sy| |sy my ey];
    try reflexivity; cbn [SFopp SFmul];
    try (destruct sx, sy; reflexivity).
  replace (xorb (negb sx) sy) with (negb (xorb sx sy))
    by (destruct sx, sy; reflexivity).
  apply binary_round_aux_opp.
Qed.

End Format.

Lemma cast_same (F : format) (x : spec_float) : cast F F x = x.
Proof. unfold cast, format_eqb. rewrite !Z.eqb_refl. reflexivity. Qed.

End Sign.

Section Precision.

(** Where the source narrows a coefficient before it is used, as the
    specification has it: in every step of degree 9, for either result
    type (line 188 is [static_cast<T>(2.601903067651460e-6) * x2]), and in
    degree 7 when [T] is [double], where no conversion does anything.
    The factor of degree 7 in general has its last step written out: the
    product is the operand of the cast. *)
Lemma horner_narrows_first (T : format) (u : spec_float) :
  horner9 T u = Spec.P9 T u /\
  horner7 double u = Spec.P7 double u /\
  horner7 T u =
    dadd (Spec.coefficient T (literal 999999060898976 15))
      (dmul u
         (dadd (Spec.coefficient T (SFopp (literal 166655540927576 15)))
            (dmul u
               (widen T
                  (sub T (narrow T (literal 831189980138987 17))
                     (narrow T (dmul (literal 184881402886071 18) u))))))).
Proof.
  split; [reflexivity|]. split; [|reflexivity].
  unfold horner7, Spec.P7, horner7_last, Spec.coefficient, coef,
    widen, narrow.
  rewrite !Sign.cast_same. unfold dadd, dmul, add, sub, mul.
  rewrite Sign.SFmul_opp, Sign.SFadd_opp. reflexivity.
Qed.


End Precision.

(** C9: in degree 7 with [T = float] the last coefficient is not
    narrowed before its multiplication: line 181 casts the product,
    [static_cast<T>(0.000184881402886071 * x2)], where line 188 of the
    degree 9 and the three other coefficients of the same expression cast
    the coefficient.  At [u], the square of 0.1f, the term the source
    computes is not the one a narrowed coefficient gives, even after
    narrowing, and the factor differs from the Horner form of the
    specification.  The value returned differs as well: a fresh
    [FastSin<float, 7>] passed 1.3125f reduces it to 1.3125, leaves it
    unfolded and returns 16220655 * 2^-24, where the evaluation of the
    specification gives 16220656 * 2^-24.  The degree 9 does as the
    specification says, for every [T] and [u]. *)
Theorem C9_last_coefficient_not_narrowed :
  horner7_last binary32 tenth_squared
    = narrow binary32 (dmul (literal 184881402886071 18) tenth_squared) /\
  horner7_last binary32 tenth_squared
    <> narrow binary32 (Spec.last_term7 binary32 tenth_squared) /\
  horner7 binary32 tenth_squared <> Spec.P7 binary32 tenth_squared /\
  reduce binary32 at_rest f_1_3125
    = Returns (Build false zero 0 zero, widen binary32 f_1_3125) /\
  fold (widen binary32 f_1_3125) = (widen binary32 f_1_3125, one) /\
  call binary32 7 at_rest f_1_3125
    = Returns (Build true f_1_3125 0 zero,
               S754_finite false 16220655 (-24)) /\
  Spec.value7 binary32 one (widen binary32 f_1_3125)
    (dmul (widen binary32 f_1_3125) (widen binary32 f_1_3125))
    = S754_finite false 16220656 (-24) /\
  (forall (T : format) (u : spec_float), horner9 T u = Spec.P9 T u).
Proof.
  split; [reflexivity|].
  split; [vm_compute; intros H; discriminate H|].
  split; [vm_compute; intros H; discriminate H|].
  do 4 (split; [vm_compute; reflexivity|]).
  intros T u. apply (horner_narrows_first T u).
Qed.



(** * Further properties

    The properties above follow the sentences of the specification.  The
    rest of the development reads further properties off the source: what
    the operator does with angles that are not numbers and with negative
    angles, and the range of angles on which a call, or a sequence of
    calls, is defined and returns a finite number.

    ** Rounding and magnitudes

    What [shr_fexp], [round_nearest_even] and [binary_round_aux] do to the
    magnitude of a number. *)

Module Magnitude.

Lemma shr_1_half (mrs : shr_record) :
  0 <= shr_m mrs -> shr_m (shr_1 mrs) = shr_m mrs / 2.
Proof.
  destruct mrs as [m r s]; cbn [shr_m]; intros H.
  rewrite <- Z.div2_div.
  destruct m as [|p|p]; [reflexivity| |lia].
  destruct p; reflexivity.
Qed.

Lemma pow2_xO (p : positive) : 2 ^ Zpos p~0 = 2 ^ Zpos p * 2 ^ Zpos p.
Proof.
  replace (Zpos p~0) with (Zpos p + Zpos p) by lia.
  apply Z.pow_add_r; lia.
Qed.

Lemma pow2_xI (p : positive) : 2 ^ Zpos p~1 = 2 * (2 ^ Zpos p * 2 ^ Zpos p).
Proof.
  replace (Zpos p~1) with (1 + (Zpos p + Zpos p)) by lia.
  rewrite !Z.pow_add_r by lia. reflexivity.
Qed.

Lemma iter_shr_1_div (p : positive) (mrs : shr_record) :
  0 <= shr_m mrs ->
  shr_m (iter_pos shr_1 p mrs) = shr_m mrs / 2 ^ Zpos p.
Proof.
  revert mrs. induction p as [p IH|p IH|]; intros mrs H; cbn [iter_pos].
  - assert (H1 : 0 <= shr_m (shr_1 mrs))
      by (apply NoNaN.shr_1_nonneg, H).
    assert (H2 : 0 <= shr_m (iter_pos shr_1 p (shr_1 mrs)))
      by (apply NoNaN.iter_shr_1_nonneg, H1).
    assert (Q : 0 < 2 ^ Zpos p) by (apply Z.pow_pos_nonneg; lia).
    rewrite (IH _ H2), (IH _ H1), shr_1_half by exact H.
    rewrite !Z.div_div by lia. rewrite pow2_xI. reflexivity.
  - assert (H2 : 0 <= shr_m (iter_pos shr_1 p mrs))
      by (apply NoNaN.iter_shr_1_nonneg, H).
    assert (Q : 0 < 2 ^ Zpos p) by (apply Z.pow_pos_nonneg; lia).
    rewrite (IH _ H2), (IH _ H).
    rewrite !Z.div_div by lia. rewrite pow2_xO. reflexivity.
  - rewrite shr_1_half by exact H. reflexivity.
Qed.

Section Format.

Variables prec emax : Z.

(** What [shr_fexp] does to a mantissa that is not negative: the exponent
    is raised to that of the format, if it is below, and the mantissa is
    divided accordingly. *)
Lemma shr_fexp_spec (m e : Z) (l : location) :
  0 <= m ->
  exists s, 0 <= s /\
    snd (shr_fexp prec emax m e l) = e + s /\
    e + s = Z.max e (fexp prec emax (Zdigits2 m + e)) /\
    shr_m (fst (shr_fexp prec emax m e l)) = m / 2 ^ s.
Proof.
  intros H. unfold shr_fexp, shr.
  set (f := fexp prec emax (Zdigits2 m + e)).
  destruct (f - e) as [|p|p] eqn:E; cbn [fst snd].
  - exists 0. rewrite NoNaN.shr_record_of_loc_m, Z.div_1_r. lia.
  - exists (Zpos p). rewrite iter_shr_1_div, NoNaN.shr_record_of_loc_m
      by (rewrite NoNaN.shr_record_of_loc_m; exact H).
    lia.
  - exists 0. rewrite NoNaN.shr_record_of_loc_m, Z.div_1_r. lia.
Qed.

End Format.

Lemma digits_bound (m k : Z) :
  0 <= m < 2 ^ k -> 0 <= k -> Zdigits2 m <= k.
Proof.
  intros [H0 H] K. destruct m as [|p|p]; [cbn; lia| |lia].
  cbn [Zdigits2]. rewrite Fraction.digits2_pos_size.
  pose proof (Pos.size_le p) as L.
  apply Pos2Z.pos_le_pos in L. rewrite Pos2Z.inj_pow in L.
  change (Zpos p~0) with (2 * Zpos p) in L.
  destruct (Z_le_gt_dec (Zpos (Pos.size p)) k) as [?|G]; [assumption|].
  assert (B : 2 ^ (k + 1) <= 2 ^ Zpos (Pos.size p))
    by (apply Z.pow_le_mono_r; lia).
  rewrite Z.pow_add_r in B by lia. change (2 ^ 1) with 2 in B. lia.
Qed.

Lemma digits_lower (p : positive) : 2 ^ (Zpos (digits2_pos p) - 1) <= Zpos p.
Proof.
  rewrite Fraction.digits2_pos_size.
  pose proof (Pos.size_le p) as L.
  apply Pos2Z.pos_le_pos in L. rewrite Pos2Z.inj_pow in L.
  change (Zpos p~0) with (2 * Zpos p) in L.
  replace (Zpos (Pos.size p)) with (Zpos (Pos.size p) - 1 + 1) in L by lia.
  rewrite Z.pow_add_r in L by lia. change (2 ^ 1) with 2 in L. lia.
Qed.

Lemma digits_upper (p : positive) : Zpos p < 2 ^ Zpos (digits2_pos p).
Proof.
  rewrite Fraction.digits2_pos_size.
  pose proof (Pos.size_gt p) as L.
  apply Pos2Z.pos_lt_pos in L. rewrite Pos2Z.inj_pow in L. exact L.
Qed.

Lemma round_nearest_even_le (m : Z) (l : location) :
  m <= round_nearest_even m l <= m + 1.
Proof.
  destruct l as [|[ | | ]]; cbn [round_nearest_even]; try lia.
  destruct (Z.even m); lia.
Qed.

Section Rounding.

Variables prec emax : Z.
Hypothesis prec_pos : 0 < prec.

(** A value below [2 ^ N] is rounded to a number that is at most
    [2 ^ N]; it is finite when [2 ^ N] is in the range of the format. *)
Lemma binary_round_aux_at_most (N : Z) (s : bool) (m e : Z) (l : location) :
  0 <= m < 2 ^ (N - e) -> e < N ->
  emin prec emax < N -> N <= emax - prec ->
  at_most N (binary_round_aux prec emax s m e l).
Proof.
  intros [M0 M] E Emin Emax. unfold binary_round_aux.
  destruct (shr_fexp_spec prec emax m e l M0) as (s1 & S0 & S1 & S2 & S3).
  destruct (shr_fexp prec emax m e l) as [mrs' e'].
  cbn [fst snd] in S1, S3. subst e'.
  assert (D : Zdigits2 m <= N - e) by (apply digits_bound; lia).
  assert (E1 : e + s1 < N).
  { rewrite S2. unfold fexp. lia. }
  assert (M1 : 0 <= shr_m mrs' < 2 ^ (N - (e + s1))).
  { rewrite S3. split; [apply Z.div_pos; [lia|apply Z.pow_pos_nonneg; lia]|].
    apply Z.div_lt_upper_bound; [apply Z.pow_pos_nonneg; lia|].
    rewrite <- Z.pow_add_r by lia.
    replace (s1 + (N - (e + s1))) with (N - e) by lia. exact M. }
  pose proof (round_nearest_even_le (shr_m mrs') (loc_of_shr_record mrs'))
    as R.
  set (m2 := round_nearest_even (shr_m mrs') (loc_of_shr_record mrs')) in *.
  assert (M2 : 0 <= m2 <= 2 ^ (N - (e + s1))) by lia.
  destruct (shr_fexp_spec prec emax m2 (e + s1) loc_Exact (proj1 M2))
    as (s2 & T0 & T1 & T2 & T3).
  destruct (shr_fexp prec emax m2 (e + s1) loc_Exact) as [mrs'' e''].
  cbn [fst snd] in T1, T3. subst e''.
  assert (D2 : Zdigits2 m2 <= N - (e + s1) + 1).
  { apply digits_bound; [|lia]. split; [lia|].
    rewrite Z.pow_add_r by lia. change (2 ^ 1) with 2.
    assert (0 < 2 ^ (N - (e + s1))) by (apply Z.pow_pos_nonneg; lia).
    lia. }
  assert (E2 : e + s1 + s2 <= N).
  { rewrite T2. unfold fexp. lia. }
  assert (M3 : shr_m mrs'' <= 2 ^ (N - (e + s1 + s2))).
  { rewrite T3. apply Z.div_le_upper_bound; [apply Z.pow_pos_nonneg; lia|].
    rewrite <- Z.pow_add_r by lia.
    replace (s2 + (N - (e + s1 + s2))) with (N - (e + s1)) by lia.
    apply M2. }
  assert (P3 : 0 <= shr_m mrs'').
  { rewrite T3. apply Z.div_pos; [lia|apply Z.pow_pos_nonneg; lia]. }
  destruct (shr_m mrs'') as [|p|p]; [exact I| |lia].
  destruct (Z.leb_spec (e + s1 + s2) (emax - prec)) as [_|C]; [|lia].
  split; assumption.
Qed.

End Rounding.

End Magnitude.

Module Quotient.

Lemma PI_MULT_2_mantissa : 2 ^ 52 <= 7074237752028440 < 2 ^ 53.
Proof. split; [intros C; discriminate C|reflexivity]. Qed.

(** The quotient by [2 pi] of a number below [2 ^ 32] is at most
    [2 ^ 30]. *)
Lemma quotient_at_most (x : spec_float) :
  magnitude_below 32 x = true -> at_most 30 (ddiv x PI_MULT_2).
Proof.
  rewrite Fraction.PI_MULT_2_value.
  destruct x as [s|s| |s m e]; try discriminate 1; [intros _; exact I|].
  cbn [magnitude_below]. intros H. apply Z.leb_le in H.
  unfold ddiv, div. cbn [SFdiv prec emax binary64].
  unfold SFdiv_core_binary.
  set (d1 := Zdigits2 (Zpos m)).
  assert (D1 : d1 = Zpos (digits2_pos m)) by reflexivity.
  change (Zdigits2 7074237752028440) with 53.
  set (e' := Z.min (fexp 53 1024 (d1 + e - (53 + -50))) (e - -50)).
  assert (E' : e' <= e + 50 /\ e' < 30).
  { subst e'. unfold fexp, emin. lia. }
  set (m' := match e - -50 - e' with
             | 0 => Zpos m
             | Zpos _ => Z.shiftl (Zpos m) (e - -50 - e')
             | Zneg _ => 0
             end).
  assert (M' : m' = Zpos m * 2 ^ (e + 50 - e')).
  { subst m'. replace (e - -50 - e') with (e + 50 - e') by lia.
    destruct (e + 50 - e') as [|p|p] eqn:S; [lia| |lia].
    apply Z.shiftl_mul_pow2. lia. }
  clearbody m'.
  pose proof (Z.div_eucl_eq m' 7074237752028440) as Q.
  pose proof (Z.mod_pos_bound m' 7074237752028440) as R.
  unfold Z.modulo in R. unfold Z.div_eucl in *.
  fold (Z.div_eucl m' 7074237752028440) in *.
  destruct (Z.div_eucl m' 7074237752028440) as [q r].
  specialize (Q ltac:(lia)). specialize (R ltac:(lia)).
  apply (Magnitude.binary_round_aux_at_most 53 1024 ltac:(lia)).
  - pose proof (Magnitude.digits_upper m) as U. rewrite <- D1 in U.
    assert (P : 0 < 2 ^ (e + 50 - e')) by (apply Z.pow_pos_nonneg; lia).
    assert (B : m' < 2 ^ 52 * 2 ^ (30 - e')).
    { rewrite M'. rewrite <- Z.pow_add_r by lia.
      apply Z.lt_le_trans with (2 ^ d1 * 2 ^ (e + 50 - e')).
      - apply Z.mul_lt_mono_pos_r; assumption.
      - rewrite <- Z.pow_add_r by lia. apply Z.pow_le_mono_r; lia. }
    assert (P2 : 0 < 2 ^ (30 - e')) by (apply Z.pow_pos_nonneg; lia).
    assert (M0 : 0 <= m') by (rewrite M'; lia).
    pose proof PI_MULT_2_mantissa as PM.
    split; nia.
  - lia.
  - unfold emin. lia.
  - lia.
Qed.

(** The integer part of a number that is at most [2 ^ N]. *)
Lemma truncate_at_most (N : Z) (x : spec_float) :
  0 <= N -> at_most N x ->
  exists n, truncate x = Some n /\ - 2 ^ N <= n <= 2 ^ N.
Proof.
  intros HN H. destruct x as [s|s| |s m e]; try contradiction.
  - exists 0. split; [reflexivity|].
    assert (0 < 2 ^ N) by (apply Z.pow_pos_nonneg; lia). lia.
  - destruct H as [M E]. eexists. split; [reflexivity|].
    assert (B : 0 <= Z.shiftl (Zpos m) e <= 2 ^ N).
    { split; [apply Z.shiftl_nonneg; lia|].
      destruct (Z.le_gt_cases 0 e) as [P|P].
      - rewrite Z.shiftl_mul_pow2 by lia.
        replace (2 ^ N) with (2 ^ (N - e) * 2 ^ e)
          by (rewrite <- Z.pow_add_r by lia; f_equal; lia).
        apply Z.mul_le_mono_nonneg_r; [apply Z.pow_nonneg; lia|exact M].
      - rewrite Z.shiftl_div_pow2 by lia.
        apply Z.div_le_upper_bound; [apply Z.pow_pos_nonneg; lia|].
        rewrite <- Z.pow_add_r by lia.
        replace (- e + N) with (N - e) by lia. exact M. }
    destruct s; cbn [cond_Zopp]; lia.
Qed.

End Quotient.

(** ** Bounds through the operations

    The magnitude of a sum, a difference, a product and a conversion, as
    far as the range of the format goes. *)

Module Bounds.

Lemma at_most_finite (N : Z) (x : spec_float) :
  at_most N x -> is_finite x = true.
Proof. destruct x; [reflexivity|contradiction|contradiction|reflexivity]. Qed.

Lemma at_most_weaken (N M : Z) (x : spec_float) :
  N <= M -> at_most N x -> at_most M x.
Proof.
  intros L. destruct x as [s|s| |s m e]; trivial. intros [H E].
  split; [|lia]. apply Z.le_trans with (1 := H).
  apply Z.pow_le_mono_r; lia.
Qed.

Lemma at_most_opp (N : Z) (x : spec_float) :
  at_most N x -> at_most N (SFopp x).
Proof. destruct x; trivial. Qed.

Lemma magnitude_below_at_most (N : Z) (x : spec_float) :
  magnitude_below N x = true -> at_most N x.
Proof.
  destruct x as [s|s| |s m e]; try discriminate 1; [intros _; exact I|].
  cbn [magnitude_below at_most]. intros H. apply Z.leb_le in H.
  pose proof (Magnitude.digits_upper m) as U.
  assert (P : 0 < Zpos (digits2_pos m)) by lia.
  split; [|lia].
  apply Z.lt_le_incl, Z.lt_le_trans with (1 := U).
  apply Z.pow_le_mono_r; lia.
Qed.

Section Format.

Variable F : format.
Hypothesis prec_pos : 0 < prec F.

Lemma binary_round_aux_signed (s : bool) (m e : Z) (l : location) :
  0 <= m -> signed s (binary_round_aux (prec F) (emax F) s m e l).
Proof.
  intros H.
  pose proof (NoNaN.binary_round_aux_not_nan (prec F) (emax F) s m e l H)
    as N.
  revert N. unfold binary_round_aux.
  destruct (shr_fexp _ _ m e l) as [mrs' e'].
  destruct (shr_fexp _ _ _ e' loc_Exact) as [mrs'' e''].
  destruct (shr_m mrs''); [reflexivity| |intros C; discriminate C].
  destruct (e'' <=? emax F - prec F); reflexivity.
Qed.

Lemma binary_round_signed (s : bool) (m : positive) (e : Z) :
  signed s (binary_round (prec F) (emax F) s m e).
Proof.
  unfold binary_round. destruct (shl_align m e _) as [mz ez].
  apply binary_round_aux_signed. lia.
Qed.

Lemma binary_round_at_most (N : Z) (s : bool) (m : positive) (e : Z) :
  Zpos m < 2 ^ (N - e) -> e < N ->
  emin (prec F) (emax F) < N -> N <= emax F - prec F ->
  at_most N (binary_round (prec F) (emax F) s m e).
Proof.
  intros M E E1 E2. unfold binary_round.
  set (f := fexp (prec F) (emax F) (Zpos (digits2_pos m) + e)).
  pose proof (Fraction.shl_align_value m e (Z.min e f) ltac:(lia)) as V.
  assert (S : shl_align m e f = shl_align m e (Z.min e f)).
  { unfold shl_align. destruct (Z.min_spec e f) as [[L ->]|[L ->]].
    - destruct (f - e) eqn:A; try lia.
      replace (e - e) with 0 by lia. reflexivity.
    - reflexivity. }
  rewrite S.
  assert (E' : snd (shl_align m e (Z.min e f)) = Z.min e f \/
               (snd (shl_align m e (Z.min e f)) = e /\ Z.min e f = e)).
  { unfold shl_align. destruct (Z.min e f - e) eqn:A; cbn [snd]; lia. }
  destruct (shl_align m e (Z.min e f)) as [mz ez]. cbn [fst snd] in V, E'.
  assert (Ez : ez = Z.min e f) by lia. clear E'.
  apply (Magnitude.binary_round_aux_at_most (prec F) (emax F) prec_pos);
    try assumption; [|lia].
  rewrite V, Ez. split; [lia|].
  replace (N - Z.min e f) with (N - e + (e - Z.min e f)) by lia.
  rewrite Z.pow_add_r by lia.
  apply Z.mul_lt_mono_pos_r; [apply Z.pow_pos_nonneg; lia|exact M].
Qed.

Lemma binary_normalize_at_most (N : Z) (m e : Z) (sz : bool) :
  Z.abs m < 2 ^ (N - e) -> e < N ->
  emin (prec F) (emax F) < N -> N <= emax F - prec F ->
  at_most N (binary_normalize (prec F) (emax F) m e sz).
Proof.
  intros M E E1 E2. destruct m as [|p|p]; cbn [binary_normalize].
  - exact I.
  - apply binary_round_at_most; assumption.
  - apply binary_round_at_most; assumption.
Qed.

Lemma mul_at_most (N M : Z) (x y : spec_float) :
  at_most N x -> at_most M y ->
  emin (prec F) (emax F) < N + M + 1 -> N + M + 1 <= emax F - prec F ->
  at_most (N + M + 1) (mul F x y).
Proof.
  intros Hx Hy E1 E2.
  destruct x as [sx|sx| |sx mx ex]; try contradiction;
    destruct y as [sy|sy| |sy my ey]; try contradiction; try exact I.
  destruct Hx as [Mx Ex], Hy as [My Ey].
  unfold mul. cbn [SFmul].
  apply (Magnitude.binary_round_aux_at_most (prec F) (emax F) prec_pos);
    try assumption; [|lia].
  split; [lia|].
  replace (N + M + 1 - (ex + ey)) with ((N - ex) + (M - ey) + 1) by lia.
  rewrite !Z.pow_add_r by lia. change (2 ^ 1) with 2.
  assert (0 < 2 ^ (N - ex)) by (apply Z.pow_pos_nonneg; lia).
  assert (0 < 2 ^ (M - ey)) by (apply Z.pow_pos_nonneg; lia).
  rewrite Pos2Z.inj_mul. nia.
Qed.

Lemma aligned_at_most (N : Z) (m : positive) (e e' : Z) :
  Zpos m <= 2 ^ (N - e) -> e <= N -> e' <= e ->
  Zpos (fst (shl_align m e e')) <= 2 ^ (N - e').
Proof.
  intros M E L. rewrite Fraction.shl_align_value by exact L.
  replace (N - e') with (N - e + (e - e')) by lia.
  rewrite Z.pow_add_r by lia.
  apply Z.mul_le_mono_nonneg_r; [apply Z.pow_nonneg; lia|exact M].
Qed.

Lemma add_at_most (N : Z) (x y : spec_float) :
  at_most N x -> at_most N y ->
  emin (prec F) (emax F) < N + 2 -> N + 2 <= emax F - prec F ->
  at_most (N + 2) (add F x y).
Proof.
  intros Hx Hy E1 E2.
  destruct x as [sx|sx| |sx mx ex]; try contradiction;
    destruct y as [sy|sy| |sy my ey]; try contradiction.
  - destruct sx, sy; exact I.
  - apply at_most_weaken with N; [lia|exact Hy].
  - apply at_most_weaken with N; [lia|exact Hx].
  - destruct Hx as [Mx Ex], Hy as [My Ey].
    unfold add. cbn [SFadd].
    change (IntDef.Z.min ex ey) with (Z.min ex ey).
    pose proof (aligned_at_most N mx ex (Z.min ex ey) Mx Ex ltac:(lia)) as A.
    pose proof (aligned_at_most N my ey (Z.min ex ey) My Ey ltac:(lia)) as B.
    apply binary_normalize_at_most; try assumption; [|lia].
    replace (N + 2 - Z.min ex ey) with (N - Z.min ex ey + 2) by lia.
    rewrite Z.pow_add_r by lia. change (2 ^ 2) with 4.
    assert (0 < 2 ^ (N - Z.min ex ey)) by (apply Z.pow_pos_nonneg; lia).
    destruct sx, sy; cbn [cond_Zopp]; lia.
Qed.

Lemma sub_at_most (N : Z) (x y : spec_float) :
  at_most N x -> at_most N y ->
  emin (prec F) (emax F) < N + 2 -> N + 2 <= emax F - prec F ->
  at_most (N + 2) (sub F x y).
Proof.
  intros Hx Hy E1 E2.
  destruct x as [sx|sx| |sx mx ex]; try contradiction;
    destruct y as [sy|sy| |sy my ey]; try contradiction.
  - destruct sx, sy; exact I.
  - apply at_most_weaken with N; [lia|exact Hy].
  - apply at_most_weaken with N; [lia|exact Hx].
  - destruct Hx as [Mx Ex], Hy as [My Ey].
    unfold sub. cbn [SFsub].
    change (IntDef.Z.min ex ey) with (Z.min ex ey).
    pose proof (aligned_at_most N mx ex (Z.min ex ey) Mx Ex ltac:(lia)) as A.
    pose proof (aligned_at_most N my ey (Z.min ex ey) My Ey ltac:(lia)) as B.
    apply binary_normalize_at_most; try assumption; [|lia].
    replace (N + 2 - Z.min ex ey) with (N - Z.min ex ey + 2) by lia.
    rewrite Z.pow_add_r by lia. change (2 ^ 2) with 4.
    assert (0 < 2 ^ (N - Z.min ex ey)) by (apply Z.pow_pos_nonneg; lia).
    destruct sx, sy; cbn [cond_Zopp]; lia.
Qed.

Lemma round_at_most (N : Z) (x : spec_float) :
  at_most N x ->
  emin (prec F) (emax F) < N + 1 -> N + 1 <= emax F - prec F ->
  at_most (N + 1) (round F x).
Proof.
  intros Hx E1 E2. destruct x as [sx|sx| |sx mx ex]; try contradiction.
  - exact I.
  - destruct Hx as [Mx Ex]. cbn [round].
    apply binary_round_at_most; try assumption; [|lia].
    replace (N + 1 - ex) with (N - ex + 1) by lia.
    rewrite Z.pow_add_r by lia. change (2 ^ 1) with 2.
    assert (0 < 2 ^ (N - ex)) by (apply Z.pow_pos_nonneg; lia). lia.
Qed.

End Format.

End Bounds.

(** ** The predicates as exact values *)

Module Value.

Lemma abs_cond_Zopp (s : bool) (m : positive) :
  Z.abs (cond_Zopp s (Zpos m)) = Zpos m.
Proof. destruct s; reflexivity. Qed.

(** [at_most N x]: the magnitude of [x] is at most [2 ^ N]. *)
Lemma at_most_value (N : Z) (x : spec_float) :
  0 <= N -> at_most N x -> (Qabs (to_Q x) <= inject_Z (2 ^ N))%Q.
Proof.
  intros HN H. assert (P : 0 < 2 ^ N) by (apply Z.pow_pos_nonneg; lia).
  destruct x as [s|s| |s m e]; try contradiction.
  - unfold Qle. cbn. lia.
  - destruct H as [M E]. unfold to_Q. destruct e as [|p|p].
    + unfold Qle. cbn [Qabs inject_Z Qnum Qden].
      rewrite abs_cond_Zopp. rewrite Z.sub_0_r in M. lia.
    + unfold Qle. cbn [Qabs inject_Z Qnum Qden].
      rewrite Z.abs_mul, abs_cond_Zopp, Z.pow_pos_fold.
      assert (Q : 0 < 2 ^ Zpos p) by (apply Z.pow_pos_nonneg; lia).
      rewrite (Z.abs_eq (2 ^ Zpos p)) by lia.
      replace (2 ^ N) with (2 ^ (N - Zpos p) * 2 ^ Zpos p)
        by (rewrite <- Z.pow_add_r by lia; f_equal; lia).
      nia.
    + unfold Qle. cbn [Qabs inject_Z Qnum Qden].
      rewrite abs_cond_Zopp, Pos2Z.inj_pow.
      replace (N - Zneg p) with (N + Zpos p) in M by lia.
      rewrite Z.pow_add_r in M by lia. lia.
Qed.

(** [magnitude_below N x]: [x] is finite and its magnitude is below
    [2 ^ N]; every such number passes the test. *)
Lemma magnitude_below_value (N : Z) (x : spec_float) :
  is_finite x = true -> (Qabs (to_Q x) < inject_Z (2 ^ N))%Q ->
  magnitude_below N x = true.
Proof.
  intros F H. destruct x as [s|s| |s m e]; try discriminate F;
    [reflexivity|].
  cbn [magnitude_below]. apply Z.leb_le.
  assert (HN : 0 <= N).
  { destruct (Z.le_gt_cases 0 N) as [?|C]; [assumption|exfalso].
    rewrite Z.pow_neg_r in H by lia.
    pose proof (Qabs_nonneg (to_Q (S754_finite s m e))) as A.
    apply (Qlt_not_le _ _ H A). }
  assert (K : forall k, Zpos m < 2 ^ k -> Zpos (digits2_pos m) <= k).
  { intros k L. destruct (Z.le_gt_cases 0 k) as [?|C].
    - apply (Magnitude.digits_bound (Zpos m) k); lia.
    - rewrite Z.pow_neg_r in L by lia. lia. }
  unfold to_Q, Qlt in H. destruct e as [|p|p];
    cbn [Qabs inject_Z Qnum Qden] in H.
  - rewrite abs_cond_Zopp in H. specialize (K N). lia.
  - rewrite Z.abs_mul, abs_cond_Zopp, Z.pow_pos_fold in H.
    assert (Q : 0 < 2 ^ Zpos p) by (apply Z.pow_pos_nonneg; lia).
    rewrite (Z.abs_eq (2 ^ Zpos p)) in H by lia.
    specialize (K (N - Zpos p)).
    destruct (Z.le_gt_cases (Zpos p) N) as [L|L].
    + replace (2 ^ N) with (2 ^ (N - Zpos p) * 2 ^ Zpos p) in H
        by (rewrite <- Z.pow_add_r by lia; f_equal; lia).
      assert (Zpos m < 2 ^ (N - Zpos p)) by nia. lia.
    + exfalso. assert (2 ^ N < 2 ^ Zpos p)
        by (apply Z.pow_lt_mono_r; lia). nia.
  - rewrite abs_cond_Zopp, Pos2Z.inj_pow in H.
    specialize (K (N + Zpos p)).
    rewrite Z.pow_add_r in K by lia. lia.
Qed.

End Value.

(** ** The fractional part of the slow path *)

Module SlowPath.

Lemma double_prec_pos : 0 < prec binary64.
Proof. reflexivity. Qed.

Lemma PI_MULT_2_at_most : at_most 3 PI_MULT_2.
Proof.
  rewrite Fraction.PI_MULT_2_value. cbn [at_most].
  split; [intros C; discriminate C|lia].
Qed.

(** An [int] is a [double] of magnitude at most [2 ^ 32]. *)
Lemma int_to_double_at_most (n : Z) :
  in_int n = true -> at_most 32 (int_to_double n).
Proof.
  intros H. apply in_int_bounds in H. unfold INT_MIN, INT_MAX in H.
  change (2 ^ 31) with 2147483648 in H.
  unfold int_to_double, of_Z.
  apply (Bounds.binary_normalize_at_most binary64 double_prec_pos);
    [|lia|reflexivity|intros C; discriminate C].
  change (2 ^ (32 - 0)) with 4294967296. lia.
Qed.

(** The product of an [int] and [PI_MULT_2] is finite. *)
Lemma product_at_most (n : Z) :
  in_int n = true -> at_most 36 (dmul (int_to_double n) PI_MULT_2).
Proof.
  intros H.
  apply (Bounds.mul_at_most binary64 double_prec_pos 32 3);
    [apply int_to_double_at_most, H|apply PI_MULT_2_at_most
    |reflexivity|intros C; discriminate C].
Qed.

(** The conversion of an [int] other than 0 is exact. *)
Lemma of_int_exact (s : bool) (k : positive) :
  Zpos k <= 2 ^ 31 ->
  exists m e, binary_round 53 1024 s k 0 = S754_finite s m e /\
              e < 0 /\ Zpos m = Zpos k * 2 ^ (- e).
Proof.
  intros H.
  assert (D : Zpos (digits2_pos k) <= 32).
  { apply (Magnitude.digits_bound (Zpos k) 32); [|lia].
    change (2 ^ 31) with 2147483648 in H.
    change (2 ^ 32) with 4294967296. lia. }
  assert (P : 0 < Zpos (digits2_pos k)) by lia.
  unfold binary_round.
  assert (E : fexp 53 1024 (Zpos (digits2_pos k) + 0)
              = Zpos (digits2_pos k) - 53).
  { unfold fexp, emin. lia. }
  rewrite E. unfold shl_align.
  destruct (Zpos (digits2_pos k) - 53 - 0) as [|p|p] eqn:Ep; try lia.
  exists (Pos.iter xO k p), (Zpos (digits2_pos k) - 53).
  split; [|split].
  - apply Fraction.binary_round_aux_exact.
    + rewrite Fraction.iter_xO_digits, Pos2Z.inj_add. lia.
    + lia.
  - lia.
  - rewrite Fraction.iter_xO_value. f_equal. f_equal. lia.
Qed.

Lemma cond_Zopp_sub (s : bool) (a b : Z) :
  cond_Zopp s a - cond_Zopp s b = cond_Zopp s (a - b).
Proof. destruct s; cbn [cond_Zopp]; lia. Qed.

Lemma normalize_signed (s : bool) (d e : Z) :
  0 <= d ->
  binary_normalize 53 1024 (cond_Zopp s d) e false = zero \/
  signed s (binary_normalize 53 1024 (cond_Zopp s d) e false).
Proof.
  intros H. destruct d as [|p|p]; [left; destruct s; reflexivity| |lia].
  right. destruct s; cbn [cond_Zopp Z.opp binary_normalize];
    apply (Bounds.binary_round_signed binary64).
Qed.

(** A number less its integer part: the difference is exact, of magnitude
    below 1, and zero or of the sign of the number. *)
Lemma fraction_spec (s : bool) (mq : positive) (eq k : Z) :
  truncate (S754_finite s mq eq) = Some k -> in_int k = true ->
  at_most 0 (dsub (S754_finite s mq eq) (int_to_double k)) /\
  (dsub (S754_finite s mq eq) (int_to_double k) = zero \/
   signed s (dsub (S754_finite s mq eq) (int_to_double k))).
Proof.
  intros Hk Hi. cbn [truncate] in Hk. injection Hk as Ek.
  apply in_int_bounds in Hi. unfold INT_MIN, INT_MAX in Hi.
  assert (T0 : 0 <= Z.shiftl (Zpos mq) eq) by (apply Z.shiftl_nonneg; lia).
  destruct (Z.shiftl (Zpos mq) eq) as [|t|t] eqn:Et; [| |lia].
  - (* the integer part is 0 *)
    assert (K : k = 0) by (destruct s; cbn [cond_Zopp] in Ek; lia).
    rewrite K. change (int_to_double 0) with (S754_zero false).
    unfold dsub, sub. cbn [SFsub].
    split; [|right; exact eq_refl].
    destruct (Z.le_gt_cases 0 eq) as [P|P].
    + rewrite Z.shiftl_mul_pow2 in Et by lia.
      assert (0 < 2 ^ eq) by (apply Z.pow_pos_nonneg; lia). nia.
    + rewrite Z.shiftl_div_pow2 in Et by lia.
      assert (Q : 0 < 2 ^ (- eq)) by (apply Z.pow_pos_nonneg; lia).
      apply Z.div_small_iff in Et; [|lia].
      cbn [at_most]. replace (0 - eq) with (- eq) by lia.
      split; lia.
  - assert (K : k = cond_Zopp s (Zpos t)) by (symmetry; exact Ek).
    assert (B : Zpos t <= 2 ^ 31) by (destruct s; cbn [cond_Zopp] in K; lia).
    destruct (of_int_exact s t B) as (mk & ek & Hr & Ee & Em).
    assert (I : int_to_double k = S754_finite s mk ek).
    { rewrite K. destruct s; exact Hr. }
    rewrite I. unfold dsub, sub. cbn [SFsub prec emax binary64].
    change (IntDef.Z.min eq ek) with (Z.min eq ek).
    rewrite cond_Zopp_sub.
    rewrite !Fraction.shl_align_value by lia. rewrite Em.
    set (d := Zpos mq * 2 ^ (eq - Z.min eq ek)
              - Zpos t * 2 ^ (- ek) * 2 ^ (ek - Z.min eq ek)).
    assert (D : 0 <= d < 2 ^ (0 - Z.min eq ek)).
    { subst d. destruct (Z.le_gt_cases 0 eq) as [P|P].
      - rewrite Z.shiftl_mul_pow2 in Et by lia.
        replace (Z.min eq ek) with ek by lia.
        replace (ek - ek) with 0 by lia.
        replace (eq - ek) with (eq + - ek) by lia.
        rewrite Z.pow_add_r by lia.
        assert (0 < 2 ^ (0 - ek)) by (apply Z.pow_pos_nonneg; lia).
        rewrite <- Et. change (2 ^ 0) with 1. lia.
      - rewrite Z.shiftl_div_pow2 in Et by lia.
        assert (Q : 0 < 2 ^ (- eq)) by (apply Z.pow_pos_nonneg; lia).
        pose proof (Z.div_mod (Zpos mq) (2 ^ (- eq)) ltac:(lia)) as DM.
        pose proof (Z.mod_pos_bound (Zpos mq) (2 ^ (- eq)) Q) as MB.
        rewrite Et in DM.
        set (r := Zpos mq mod 2 ^ (- eq)) in *.
        destruct (Z.le_gt_cases eq ek) as [L|L].
        + replace (Z.min eq ek) with eq by lia.
          replace (eq - eq) with 0 by lia.
          rewrite <- Z.mul_assoc, <- Z.pow_add_r by lia.
          replace (- ek + (ek - eq)) with (- eq) by lia.
          replace (0 - eq) with (- eq) by lia.
          change (2 ^ 0) with 1. lia.
        + replace (Z.min eq ek) with ek by lia.
          replace (ek - ek) with 0 by lia.
          replace (0 - ek) with (- eq + (eq - ek)) by lia.
          replace (- ek) with (- eq + (eq - ek)) by lia.
          rewrite !Z.pow_add_r by lia.
          assert (0 < 2 ^ (eq - ek)) by (apply Z.pow_pos_nonneg; lia).
          change (2 ^ 0) with 1. nia. }
    clearbody d. split.
    + apply (Bounds.binary_normalize_at_most binary64 double_prec_pos);
        [|lia|reflexivity|intros C; discriminate C].
      destruct s; cbn [cond_Zopp]; lia.
    + apply normalize_signed. lia.
Qed.

End SlowPath.

(** ** The reduced angle of the slow path *)

Module SlowAngle.

Lemma signed_true_not_positive (x : spec_float) :
  signed true x -> gt x zero = false.
Proof. destruct x as [s|s| |s m e]; intros H; try contradiction;
  cbn [signed] in H; subst; reflexivity. Qed.

Lemma times_two_pi_signed (s : bool) (x : spec_float) :
  signed s x -> signed s (dmul x PI_MULT_2).
Proof.
  rewrite Fraction.PI_MULT_2_value.
  destruct x as [s'|s'| |s' m e]; intros H; try contradiction;
    cbn [signed] in H; subst s'.
  - destruct s; reflexivity.
  - destruct s; reflexivity.
  - unfold dmul, mul. cbn [SFmul].
    replace (xorb s false) with s by (destruct s; reflexivity).
    apply (Bounds.binary_round_aux_signed binary64). lia.
Qed.

Lemma by_two_pi_signed (s : bool) (x : spec_float) :
  signed s x -> signed s (ddiv x PI_MULT_2).
Proof.
  rewrite Fraction.PI_MULT_2_value.
  destruct x as [s'|s'| |s' m e]; intros H; try contradiction;
    cbn [signed] in H; subst s'.
  - destruct s; reflexivity.
  - destruct s; reflexivity.
  - unfold ddiv, div. cbn [SFdiv].
    replace (xorb s false) with s by (destruct s; reflexivity).
    unfold SFdiv_core_binary.
    set (m' := match _ with 0 => Zpos m | Zpos _ => _ | Zneg _ => 0 end).
    assert (M : 0 <= m').
    { subst m'. destruct (_ - _ - _); [lia|apply Z.shiftl_nonneg; lia|lia]. }
    clearbody m'.
    pose proof (Z.div_pos m' 7074237752028440 M ltac:(lia)) as Q.
    unfold Z.div in Q.
    destruct (Z.div_eucl m' 7074237752028440) as [q r]. cbn [fst] in Q.
    apply (Bounds.binary_round_aux_signed binary64). exact Q.
Qed.

(** The reduced angle of the slow path (line 142): its magnitude is at
    most 8, and it is not above 0 when the quotient is not. *)
Lemma slow_angle_spec (q : spec_float) (k : Z) :
  truncate q = Some k -> in_int k = true ->
  at_most 3 (dmul (dsub q (int_to_double k)) PI_MULT_2) /\
  (gt q zero = false ->
   k <= 0 /\ gt (dmul (dsub q (int_to_double k)) PI_MULT_2) zero = false).
Proof.
  intros Hk Hi. destruct q as [s|s| |s mq eq]; try discriminate Hk.
  - injection Hk as <-. destruct s; split; try exact I;
      intros _; split; try lia; reflexivity.
  - destruct (SlowPath.fraction_spec s mq eq k Hk Hi) as [A S].
    set (f := dsub (S754_finite s mq eq) (int_to_double k)) in *.
    split.
    + clear S. clearbody f. rewrite Fraction.PI_MULT_2_value.
      destruct f as [sf|sf| |sf mf ef]; try contradiction; [exact I|].
      destruct A as [M E]. unfold dmul, mul. cbn [SFmul].
      apply (Magnitude.binary_round_aux_at_most 53 1024 ltac:(lia));
        [|lia|reflexivity|intros C; discriminate C].
      split; [lia|].
      replace (3 - (ef + -50)) with (0 - ef + 53) by lia.
      rewrite Z.pow_add_r by lia.
      assert (0 < 2 ^ (0 - ef)) by (apply Z.pow_pos_nonneg; lia).
      pose proof Quotient.PI_MULT_2_mantissa as PM.
      rewrite Pos2Z.inj_mul. nia.
    + intros G. destruct s; [|discriminate G]. split.
      * cbn [truncate cond_Zopp] in Hk. injection Hk as <-.
        pose proof (Z.shiftl_nonneg (Zpos mq) eq). lia.
      * destruct S as [-> | S]; [reflexivity|].
        apply signed_true_not_positive, times_two_pi_signed, S.
Qed.

(** A reduced angle that is not above 0 is left as it is by the tests of
    lines 149-161. *)
Lemma fold_not_positive (a : spec_float) :
  gt a zero = false -> fold a = (a, one).
Proof.
  intros G. destruct (is_nan a) eqn:N.
  - destruct a; try discriminate N. reflexivity.
  - assert (L : le a zero = true).
    { rewrite (Order.le_iff_not_gt a zero N eq_refl), G. reflexivity. }
    assert (G1 : gt a PI_DIV_2 = false).
    { apply (below_not_gt a zero PI_DIV_2 L). vm_compute. reflexivity. }
    assert (G2 : gt a FAST_SIN_PI = false).
    { apply (below_not_gt a zero FAST_SIN_PI L). vm_compute. reflexivity. }
    assert (G3 : gt a PI_MULT_3_DIV_2 = false).
    { apply (below_not_gt a zero PI_MULT_3_DIV_2 L). vm_compute.
      reflexivity. }
    unfold fold. rewrite G1, G2, G3. reflexivity.
Qed.

End SlowAngle.

Lemma Returns_inj {A : Type} (a b : A) : Returns a = Returns b -> a = b.
Proof. intros H. injection H. trivial. Qed.

(** ** Magnitudes through the polynomial *)

Module Chain.

Section Format.

Variable F : format.
Variable B : Z.
Hypothesis prec_pos : 0 < prec F.
Hypothesis emin_low : emin (prec F) (emax F) <= 0.
Hypothesis emax_high : B <= emax F - prec F.

Lemma mul_bound (N M K : Z) (x y : spec_float) :
  at_most N x -> at_most M y -> 0 <= N -> 0 <= M ->
  N + M + 1 <= K -> K <= B -> at_most K (mul F x y).
Proof.
  intros Hx Hy HN HM HK HK'.
  apply (Bounds.at_most_weaken (N + M + 1) K); [lia|].
  apply (Bounds.mul_at_most F prec_pos N M); trivial; lia.
Qed.

Lemma add_bound (N M K : Z) (x y : spec_float) :
  at_most N x -> at_most M y -> 0 <= N -> 0 <= M ->
  N + 2 <= K -> M + 2 <= K -> K <= B -> at_most K (add F x y).
Proof.
  intros Hx Hy HN HM HK1 HK2 HK'.
  replace K with (K - 2 + 2) by lia.
  apply (Bounds.add_at_most F prec_pos (K - 2));
    [apply (Bounds.at_most_weaken N); [lia|exact Hx]
    |apply (Bounds.at_most_weaken M); [lia|exact Hy]|lia|lia].
Qed.

Lemma sub_bound (N M K : Z) (x y : spec_float) :
  at_most N x -> at_most M y -> 0 <= N -> 0 <= M ->
  N + 2 <= K -> M + 2 <= K -> K <= B -> at_most K (sub F x y).
Proof.
  intros Hx Hy HN HM HK1 HK2 HK'.
  replace K with (K - 2 + 2) by lia.
  apply (Bounds.sub_at_most F prec_pos (K - 2));
    [apply (Bounds.at_most_weaken N); [lia|exact Hx]
    |apply (Bounds.at_most_weaken M); [lia|exact Hy]|lia|lia].
Qed.

Lemma cast_bound (S : format) (N K : Z) (x : spec_float) :
  at_most N x -> 0 <= N -> N + 1 <= K -> K <= B ->
  at_most K (cast S F x).
Proof.
  intros Hx HN HK HK'. unfold cast.
  destruct (format_eqb S F).
  - apply (Bounds.at_most_weaken N); [lia|exact Hx].
  - apply (Bounds.at_most_weaken (N + 1)); [lia|].
    apply (Bounds.round_at_most F prec_pos); [exact Hx|lia|lia].
Qed.

End Format.

Ltac decide_at_most :=
  vm_compute; split; intros C; discriminate C.

Lemma one_at_most : at_most 0 one.
Proof. decide_at_most. Qed.

Lemma minus_one_at_most : at_most 0 (SFopp one).
Proof. decide_at_most. Qed.

Lemma thresholds_at_most :
  at_most 3 FAST_SIN_PI /\ at_most 3 PI_MULT_2.
Proof. split; decide_at_most. Qed.

Lemma coefficients_at_most :
  at_most 0 (literal 999999060898976 15) /\
  at_most 0 (literal 166655540927576 15) /\
  at_most 0 (literal 831189980138987 17) /\
  at_most 0 (literal 184881402886071 18) /\
  at_most 0 (literal 999999994686007 15) /\
  at_most 0 (literal 166666566840071 15) /\
  at_most 0 (literal 833302513896936 17) /\
  at_most 0 (literal 198074187274269 18) /\
  at_most 0 (literal 2601903067651460 21).
Proof. vm_compute. repeat split; intros C; discriminate C. Qed.

Lemma double_emax : 971 <= emax binary64 - prec binary64.
Proof. intros C; discriminate C. Qed.

Lemma double_emin : emin (prec binary64) (emax binary64) <= 0.
Proof. intros C; discriminate C. Qed.

Lemma dmul_bound (N M K : Z) (x y : spec_float) :
  at_most N x -> at_most M y -> 0 <= N -> 0 <= M ->
  N + M + 1 <= K -> K <= 971 -> at_most K (dmul x y).
Proof.
  exact (mul_bound binary64 971 SlowPath.double_prec_pos double_emin
           double_emax N M K x y).
Qed.

Lemma dadd_bound (N M K : Z) (x y : spec_float) :
  at_most N x -> at_most M y -> 0 <= N -> 0 <= M ->
  N + 2 <= K -> M + 2 <= K -> K <= 971 -> at_most K (dadd x y).
Proof.
  exact (add_bound binary64 971 SlowPath.double_prec_pos double_emin
           double_emax N M K x y).
Qed.

Lemma dsub_bound (N M K : Z) (x y : spec_float) :
  at_most N x -> at_most M y -> 0 <= N -> 0 <= M ->
  N + 2 <= K -> M + 2 <= K -> K <= 971 -> at_most K (dsub x y).
Proof.
  exact (sub_bound binary64 971 SlowPath.double_prec_pos double_emin
           double_emax N M K x y).
Qed.

(** The folded angle is at most four times a bound of the reduced angle,
    when that bound is 8 or more. *)
Lemma fold_at_most (A : Z) (a : spec_float) :
  3 <= A -> A + 2 <= 971 -> at_most A a ->
  at_most (A + 2) (fst (fold a)) /\ at_most 0 (snd (fold a)).
Proof.
  intros HA HB Ha. destruct thresholds_at_most as [P P2].
  assert (S : forall x y, at_most A x -> at_most A y ->
                          at_most (A + 2) (dsub x y)).
  { intros x y Hx Hy. apply (dsub_bound A A (A + 2) x y Hx Hy); lia. }
  assert (Q : at_most A FAST_SIN_PI)
    by exact (Bounds.at_most_weaken 3 A _ HA P).
  assert (Q2 : at_most A PI_MULT_2)
    by exact (Bounds.at_most_weaken 3 A _ HA P2).
  unfold fold.
  destruct (gt a PI_DIV_2 && le a FAST_SIN_PI); cbn [fst snd].
  { split; [exact (S _ _ Q Ha)|exact one_at_most]. }
  destruct (gt a FAST_SIN_PI && le a PI_MULT_3_DIV_2); cbn [fst snd].
  { split; [exact (S _ _ Ha Q)|exact minus_one_at_most]. }
  destruct (gt a PI_MULT_3_DIV_2 && le a PI_MULT_2); cbn [fst snd].
  { split; [exact (S _ _ Q2 Ha)|exact minus_one_at_most]. }
  split; [exact (Bounds.at_most_weaken A (A + 2) a ltac:(lia) Ha)
         |exact one_at_most].
Qed.

Section Polynomial.

Variable T : format.
Variable B : Z.
Hypothesis prec_pos : 0 < prec T.
Hypothesis emin_low : emin (prec T) (emax T) <= 0.
Hypothesis emax_high : B <= emax T - prec T.
Hypothesis double_high : B <= 971.

Lemma widen_bound (N K : Z) (x : spec_float) :
  at_most N x -> 0 <= N -> N + 1 <= K -> K <= 971 ->
  at_most K (widen T x).
Proof.
  exact (cast_bound binary64 971 SlowPath.double_prec_pos double_emin
           double_emax T N K x).
Qed.

Lemma narrow_bound (N K : Z) (x : spec_float) :
  at_most N x -> 0 <= N -> N + 1 <= K -> K <= B ->
  at_most K (narrow T x).
Proof.
  exact (cast_bound T B prec_pos emin_low emax_high binary64 N K x).
Qed.

Lemma coef_at_most (c : spec_float) :
  1 <= B -> at_most 0 c -> at_most 2 (widen T (coef T c)).
Proof.
  intros HB H. apply (widen_bound 1 2); [|lia|lia|lia].
  apply (narrow_bound 0 1); [exact H|lia|lia|lia].
Qed.

Lemma horner7_at_most (N : Z) (x2 : spec_float) :
  0 <= N -> 3 * N + 11 <= B -> at_most N x2 ->
  at_most (3 * N + 11) (horner7 T x2).
Proof.
  intros HN HB X. destruct coefficients_at_most as (C0 & C1 & C2 & C3 & _).
  unfold horner7.
  apply (dadd_bound 2 (3 * N + 9));
    [apply coef_at_most; [lia|exact C0]| |lia..].
  apply (dmul_bound N (2 * N + 8)); [exact X| |lia..].
  apply (dadd_bound 2 (2 * N + 6));
    [apply coef_at_most; [lia|apply Bounds.at_most_opp; exact C1]| |lia..].
  apply (dmul_bound N (N + 5)); [exact X| |lia..].
  apply (widen_bound (N + 4)); [|lia..].
  apply (sub_bound T B prec_pos emin_low emax_high 1 (N + 2)); [| |lia..].
  - apply (narrow_bound 0 1); [exact C2|lia..].
  - unfold horner7_last. apply (narrow_bound (N + 1)); [|lia..].
    apply (dmul_bound 0 N); [exact C3|exact X|lia..].
Qed.

Lemma horner9_at_most (N : Z) (x2 : spec_float) :
  0 <= N -> 4 * N + 14 <= B -> at_most N x2 ->
  at_most (4 * N + 14) (horner9 T x2).
Proof.
  intros HN HB X.
  destruct coefficients_at_most as (_ & _ & _ & _ & C0 & C1 & C2 & C3 & C4).
  unfold horner9.
  apply (dadd_bound 2 (4 * N + 12));
    [apply coef_at_most; [lia|exact C0]| |lia..].
  apply (dmul_bound N (3 * N + 11)); [exact X| |lia..].
  apply (dadd_bound 2 (3 * N + 9));
    [apply coef_at_most; [lia|apply Bounds.at_most_opp; exact C1]| |lia..].
  apply (dmul_bound N (2 * N + 8)); [exact X| |lia..].
  apply (dadd_bound 2 (2 * N + 6));
    [apply coef_at_most; [lia|exact C2]| |lia..].
  apply (dmul_bound N (N + 5)); [exact X| |lia..].
  apply (dadd_bound 2 (N + 3));
    [apply coef_at_most; [lia|apply Bounds.at_most_opp; exact C3]| |lia..].
  apply (dmul_bound 2 N);
    [apply coef_at_most; [lia|exact C4]|exact X|lia..].
Qed.

(** The value returned is finite when the reduced angle is at most
    [2 ^ A] in magnitude and [2 ^ (9 A + 39)] is in the range of [T]. *)
Lemma evaluate_finite (Degree A : Z) (a v : spec_float) :
  3 <= A -> 9 * A + 39 <= B -> at_most A a ->
  evaluate T Degree (snd (fold a)) (fst (fold a))
    (dmul (fst (fold a)) (fst (fold a))) = Returns v ->
  is_finite v = true.
Proof.
  intros HA HB Ha H.
  destruct (fold_at_most A a HA ltac:(lia) Ha) as [X S].
  assert (X2 : at_most (2 * A + 5) (dmul (fst (fold a)) (fst (fold a)))).
  { apply (dmul_bound (A + 2) (A + 2)); [exact X|exact X|lia..]. }
  assert (SX : at_most (A + 3) (dmul (snd (fold a)) (fst (fold a)))).
  { apply (dmul_bound 0 (A + 2)); [exact S|exact X|lia..]. }
  apply (Bounds.at_most_finite (9 * A + 39)).
  unfold evaluate in H.
  destruct (Degree =? 7).
  - apply Returns_inj in H. rewrite <- H.
    apply (narrow_bound (9 * A + 38)); [|lia..].
    apply (dmul_bound (A + 3) (8 * A + 34)); [exact SX| |lia..].
    apply (Bounds.at_most_weaken (3 * (2 * A + 5) + 11)); [lia|].
    apply horner7_at_most; [lia|lia|exact X2].
  - destruct (Degree =? 9); [|discriminate H].
    apply Returns_inj in H. rewrite <- H.
    apply (narrow_bound (9 * A + 38)); [|lia..].
    apply (dmul_bound (A + 3) (8 * A + 34)); [exact SX| |lia..].
    apply (Bounds.at_most_weaken (4 * (2 * A + 5) + 14)); [lia|].
    apply horner9_at_most; [lia|lia|exact X2].
Qed.

End Polynomial.

End Chain.

(** ** The slow path on angles below 2^32 *)

Section SlowCalls.

Variable T : format.
Variable Degree : Z.

(** A call that takes the slow path. *)
Lemma call_on_slow_path (o : t) (angle : spec_float) :
  taken T o angle = Slow ->
  call T Degree o angle =
  (n <- double_to_int (quotient T angle) ;;
   v <- evaluate T Degree
          (snd (fold (dmul (dsub (quotient T angle) (int_to_double n))
                        PI_MULT_2)))
          (fst (fold (dmul (dsub (quotient T angle) (int_to_double n))
                        PI_MULT_2)))
          (dmul
             (fst (fold (dmul (dsub (quotient T angle) (int_to_double n))
                           PI_MULT_2)))
             (fst (fold (dmul (dsub (quotient T angle) (int_to_double n))
                           PI_MULT_2)))) ;;
   Returns (Build true angle n (dmul (int_to_double n) PI_MULT_2), v)).
Proof.
  intros K. destruct (call_after_reduce T Degree o angle) as [CR CU].
  pose proof (reduce_by_path T o angle) as R. rewrite K in R.
  destruct (double_to_int (quotient T angle)) as [n|f]; cbn [bind] in *.
  - rewrite (CR _ _ R). reflexivity.
  - exact (CU _ R).
Qed.

(** X6: a negative angle on the slow path, that of a fresh object in
    particular: the quotient is truncated toward zero, so the count is
    not positive, the reduced angle is not above 0, no quadrant is
    selected, and the polynomial is evaluated at the reduced angle as it
    is. *)
Theorem X6_negative_angle_not_folded
  (o o' : t) (angle v : spec_float) :
  taken T o angle = Slow ->
  lt (widen T angle) zero = true ->
  call T Degree o angle = Returns (o', v) ->
  m_previousFullCyckles o' <= 0 /\
  exists a,
    reduce T o angle
      = Returns (Build false (m_previousAngle o) (m_previousFullCyckles o')
                   (m_previousFullCycklesAngle o'), a) /\
    gt a zero = false /\
    fold a = (a, one) /\
    v = narrow T (dmul (dmul one a) (horner T Degree (dmul a a))).
Proof.
  intros K W H.
  pose proof (reduce_by_path T o angle) as R. rewrite K in R.
  rewrite (call_on_slow_path o angle K) in H.
  destruct (double_to_int (quotient T angle)) as [n|f] eqn:Hn;
    [|discriminate H].
  cbn [bind] in H, R.
  apply double_to_int_Returns in Hn. destruct Hn as [Hk Hi].
  assert (Q : gt (quotient T angle) zero = false).
  { apply SlowAngle.signed_true_not_positive.
    apply SlowAngle.by_two_pi_signed.
    destruct (widen T angle) as [s|s| |s m e]; try discriminate W;
      destruct s; try discriminate W; reflexivity. }
  destruct (SlowAngle.slow_angle_spec _ n Hk Hi) as [_ S].
  destruct (S Q) as [N G]. clear S.
  set (a := dmul (dsub (quotient T angle) (int_to_double n)) PI_MULT_2) in *.
  rewrite (SlowAngle.fold_not_positive a G) in H. cbn [fst snd] in H.
  unfold evaluate, horner in *.
  destruct (Degree =? 7) eqn:D7; cbn [bind] in H.
  - injection H as <- <-. cbn [m_previousFullCyckles m_previousFullCycklesAngle].
    split; [exact N|]. exists a.
    split; [exact R|]. split; [exact G|].
    split; [apply SlowAngle.fold_not_positive, G|reflexivity].
  - destruct (Degree =? 9) eqn:D9; cbn [bind] in H; [|discriminate H].
    injection H as <- <-. cbn [m_previousFullCyckles m_previousFullCycklesAngle].
    split; [exact N|]. exists a.
    split; [exact R|]. split; [exact G|].
    split; [apply SlowAngle.fold_not_positive, G|reflexivity].
Qed.

End SlowCalls.

Section SlowDomain.

Variable T : format.
Variable Degree : Z.

Lemma slow_path_below_2_32 (o : t) (angle : spec_float) :
  taken T o angle = Slow ->
  magnitude_below 32 (widen T angle) = true ->
  exists n,
    double_to_int (quotient T angle) = Returns n /\
    in_int n = true /\ - 2 ^ 30 <= n <= 2 ^ 30 /\
    reduce T o angle
      = Returns (Build false (m_previousAngle o) n
                   (dmul (int_to_double n) PI_MULT_2),
                 dmul (dsub (quotient T angle) (int_to_double n))
                   PI_MULT_2) /\
    at_most 3 (dmul (dsub (quotient T angle) (int_to_double n)) PI_MULT_2).
Proof.
  intros K M.
  destruct (Quotient.truncate_at_most 30 (quotient T angle) ltac:(lia)
              (Quotient.quotient_at_most _ M)) as (n & Hn & B).
  assert (I : in_int n = true).
  { apply in_int_bounds. unfold INT_MIN, INT_MAX.
    change (2 ^ 30) with 1073741824 in B.
    change (2 ^ 31) with 2147483648. lia. }
  assert (D : double_to_int (quotient T angle) = Returns n).
  { unfold double_to_int. rewrite Hn, I. reflexivity. }
  exists n. split; [exact D|]. split; [exact I|]. split; [exact B|].
  split.
  - rewrite reduce_by_path, K, D. reflexivity.
  - apply (SlowAngle.slow_angle_spec _ n Hn I).
Qed.

(** X5: on the slow path, that of a fresh object in particular, every
    angle that is finite and below [2 ^ 32] in magnitude has a defined
    call: the quotient fits [int], the count it leaves is at most [2 ^ 30]
    in magnitude, and the reduced angle is finite and at most 8 in
    magnitude. *)
Theorem X5_defined_below_2_32 (o : t) (angle : spec_float) :
  taken T o angle = Slow ->
  magnitude_below 32 (widen T angle) = true ->
  Degree = 7 \/ Degree = 9 ->
  exists n a v,
    reduce T o angle
      = Returns (Build false (m_previousAngle o) n
                   (dmul (int_to_double n) PI_MULT_2), a) /\
    call T Degree o angle
      = Returns (Build true angle n (dmul (int_to_double n) PI_MULT_2), v) /\
    - 2 ^ 30 <= n <= 2 ^ 30 /\
    is_finite a = true /\ (Qabs (to_Q a) <= 8)%Q.
Proof.
  intros K M HD.
  destruct (slow_path_below_2_32 o angle K M) as (n & D & I & B & R & A).
  rewrite (call_on_slow_path T Degree o angle K), D. cbn [bind].
  match goal with |- context [evaluate T Degree ?s ?x ?y] =>
    destruct (evaluate_Returns T Degree s x y HD) as [v ->] end.
  exists n. eexists. exists v.
  split; [exact R|]. split; [reflexivity|]. split; [exact B|].
  split; [exact (Bounds.at_most_finite 3 _ A)|].
  exact (Value.at_most_value 3 _ ltac:(lia) A).
Qed.

(** X7: with [T] one of [float] and [double], the value that a call on
    the slow path returns for an angle below [2 ^ 32] in magnitude is a
    finite number: neither an infinity nor a NaN. *)
Theorem X7_value_finite_below_2_32 (o o' : t) (angle v : spec_float) :
  taken T o angle = Slow ->
  magnitude_below 32 (widen T angle) = true ->
  T = binary32 \/ T = binary64 ->
  call T Degree o angle = Returns (o', v) ->
  is_finite v = true.
Proof.
  intros K M HT H.
  destruct (slow_path_below_2_32 o angle K M) as (n & D & I & B & R & A).
  rewrite (call_on_slow_path T Degree o angle K), D in H. cbn [bind] in H.
  apply bind_Returns in H. destruct H as (v' & E & H).
  apply Returns_inj in H.
  assert (V : v = v') by (symmetry; exact (f_equal snd H)).
  rewrite V.
  assert (G : 0 < prec T /\ emin (prec T) (emax T) <= 0 /\
              104 <= emax T - prec T).
  { destruct HT as [-> | ->]; repeat split; intros C; discriminate C. }
  destruct G as (G1 & G2 & G3).
  exact (Chain.evaluate_finite T 104 G1 G2 G3 ltac:(lia) Degree 3 _ v'
           ltac:(lia) ltac:(lia) A E).
Qed.

End SlowDomain.

(** ** The cached product against the angle *)

Module Reach.

Section Format.

Variables prec emax : Z.
Hypothesis prec_pos : 0 < prec.

(** [shr_fexp] keeps a mantissa positive, and at least [2 ^ N] in value
    when it is. *)
Lemma shr_fexp_at_least (N m e : Z) (l : location) :
  0 < m -> 2 ^ (N - e) <= m -> emin prec emax <= N ->
  0 < shr_m (fst (shr_fexp prec emax m e l)) /\
  2 ^ (N - snd (shr_fexp prec emax m e l))
    <= shr_m (fst (shr_fexp prec emax m e l)).
Proof.
  intros M0 M E.
  destruct (Magnitude.shr_fexp_spec prec emax m e l ltac:(lia))
    as (s & S0 & S1 & S2 & S3).
  rewrite S1, S3. clear S1 S3.
  assert (P : 0 < 2 ^ s) by (apply Z.pow_pos_nonneg; lia).
  assert (L : 2 ^ (N - (e + s)) <= m / 2 ^ s).
  { destruct (Z.le_gt_cases (e + s) N) as [C|C].
    - apply Z.div_le_lower_bound; [exact P|].
      rewrite <- Z.pow_add_r by lia.
      replace (s + (N - (e + s))) with (N - e) by lia. exact M.
    - rewrite Z.pow_neg_r by lia. apply Z.div_pos; lia. }
  split; [|exact L].
  destruct (Z.le_gt_cases (e + s) N) as [C|C].
  - assert (0 < 2 ^ (N - (e + s))) by (apply Z.pow_pos_nonneg; lia). lia.
  - destruct (Z.eq_dec s 0) as [Z|Z].
    { rewrite Z. change (2 ^ 0) with 1. rewrite Z.div_1_r. exact M0. }
    destruct m as [|p|p]; try lia.
    assert (D : e + s = Zpos (digits2_pos p) + e - prec).
    { cbn [Zdigits2] in S2. unfold fexp in S2. lia. }
    pose proof (Magnitude.digits_lower p) as DL.
    apply Z.div_str_pos. split; [exact P|].
    apply Z.le_trans with (2 := DL). apply Z.pow_le_mono_r; lia.
Qed.

Lemma binary_round_aux_at_least (N : Z) (s : bool) (m e : Z) (l : location) :
  0 < m -> 2 ^ (N - e) <= m -> emin prec emax <= N ->
  at_least N (binary_round_aux prec emax s m e l) /\
  signed s (binary_round_aux prec emax s m e l).
Proof.
  intros M0 M E. unfold binary_round_aux.
  pose proof (shr_fexp_at_least N m e l M0 M E) as [A1 A2].
  destruct (shr_fexp prec emax m e l) as [mrs' e']. cbn [fst snd] in A1, A2.
  pose proof (Magnitude.round_nearest_even_le (shr_m mrs')
                (loc_of_shr_record mrs')) as R.
  set (m2 := round_nearest_even (shr_m mrs') (loc_of_shr_record mrs')) in *.
  pose proof (shr_fexp_at_least N m2 e' loc_Exact ltac:(lia) ltac:(lia) E)
    as [B1 B2].
  destruct (shr_fexp prec emax m2 e' loc_Exact) as [mrs'' e''].
  cbn [fst snd] in B1, B2.
  destruct (shr_m mrs'') as [|p|p]; try lia.
  destruct (e'' <=? emax - prec); split; try exact I; try reflexivity.
  exact B2.
Qed.

End Format.

(** The product of [PI_MULT_2] and an [int] of at least [2 ^ 30] in
    magnitude is at least [2 ^ 32] in magnitude, and of the sign of the
    [int]. *)
Lemma product_at_least (n : Z) :
  in_int n = true -> 2 ^ 30 <= Z.abs n ->
  at_least 32 (dmul (int_to_double n) PI_MULT_2) /\
  signed (n <? 0) (dmul (int_to_double n) PI_MULT_2).
Proof.
  intros I B. apply in_int_bounds in I. unfold INT_MIN, INT_MAX in I.
  change (2 ^ 30) with 1073741824 in B.
  assert (E : exists k, int_to_double n
                        = binary_round 53 1024 (n <? 0) k 0 /\
                        Zpos k = Z.abs n).
  { destruct n as [|k|k]; [lia| |]; exists k; split; reflexivity. }
  destruct E as (k & -> & K).
  destruct (SlowPath.of_int_exact (n <? 0) k ltac:(lia))
    as (mk & ek & -> & Ee & Em).
  rewrite Fraction.PI_MULT_2_value. unfold dmul, mul. cbn [SFmul].
  replace (xorb (n <? 0) false) with (n <? 0)
    by (destruct (n <? 0); reflexivity).
  apply (binary_round_aux_at_least 53 1024 ltac:(lia));
    [lia| |intros C; discriminate C].
  rewrite Pos2Z.inj_mul, Em, K.
  replace (32 - (ek + -50)) with (30 + - ek + 52) by lia.
  rewrite !Z.pow_add_r by lia.
  assert (0 < 2 ^ (- ek)) by (apply Z.pow_pos_nonneg; lia).
  pose proof Quotient.PI_MULT_2_mantissa as PM.
  change (2 ^ 30) with 1073741824. nia.
Qed.

(** A number below [2 ^ 32] in magnitude less one that is at least
    [2 ^ 32] in magnitude has the sign opposite to the latter. *)
Lemma difference_signed (s : bool) (w p : spec_float) :
  magnitude_below 32 w = true ->
  at_least 32 p -> signed s p -> is_finite p = true ->
  signed (negb s) (dsub w p).
Proof.
  intros W A S F.
  destruct p as [sp|sp| |sp mp ep]; try contradiction; try discriminate F.
  cbn [at_least signed] in A, S. subst sp.
  destruct w as [sw|sw| |sw mw ew]; try discriminate W.
  - reflexivity.
  - cbn [magnitude_below] in W. apply Z.leb_le in W.
    unfold dsub, sub. cbn [SFsub prec emax binary64].
    change (IntDef.Z.min ew ep) with (Z.min ew ep).
    rewrite !Fraction.shl_align_value by lia.
    pose proof (Magnitude.digits_upper mw) as U.
    assert (P : 0 < Zpos (digits2_pos mw)) by lia.
    set (ez := Z.min ew ep).
    assert (Lw : Zpos mw * 2 ^ (ew - ez) < 2 ^ (32 - ez)).
    { apply Z.lt_le_trans
        with (2 ^ Zpos (digits2_pos mw) * 2 ^ (ew - ez)).
      - apply Z.mul_lt_mono_pos_r; [apply Z.pow_pos_nonneg; lia|exact U].
      - rewrite <- Z.pow_add_r by lia. apply Z.pow_le_mono_r; lia. }
    assert (Lp : 2 ^ (32 - ez) <= Zpos mp * 2 ^ (ep - ez)).
    { destruct (Z.le_gt_cases ep 32) as [C|C].
      - replace (32 - ez) with (32 - ep + (ep - ez)) by lia.
        rewrite Z.pow_add_r by lia.
        apply Z.mul_le_mono_nonneg_r; [apply Z.pow_nonneg; lia|exact A].
      - apply Z.le_trans with (1 * 2 ^ (ep - ez)).
        + rewrite Z.mul_1_l. apply Z.pow_le_mono_r; lia.
        + apply Z.mul_le_mono_nonneg_r; [apply Z.pow_nonneg; lia|lia]. }
    set (a := Zpos mw * 2 ^ (ew - ez)) in *.
    set (b := Zpos mp * 2 ^ (ep - ez)) in *.
    assert (A0 : 0 < a).
    { subst a. apply Z.mul_pos_pos; [lia|apply Z.pow_pos_nonneg; lia]. }
    clearbody a b.
    destruct s; cbn [cond_Zopp negb].
    + assert (D : exists d, cond_Zopp sw a - - b = Zpos d).
      { destruct sw; cbn [cond_Zopp];
          [destruct (- a - - b) eqn:E|destruct (a - - b) eqn:E];
          try lia; eexists; reflexivity. }
      destruct D as [d ->]. cbn [binary_normalize].
      apply (Bounds.binary_round_signed binary64).
    + assert (D : exists d, cond_Zopp sw a - b = Zneg d).
      { destruct sw; cbn [cond_Zopp];
          [destruct (- a - b) eqn:E|destruct (a - b) eqn:E];
          try lia; eexists; reflexivity. }
      destruct D as [d ->]. cbn [binary_normalize].
      apply (Bounds.binary_round_signed binary64).
Qed.

Lemma signed_true_not_above (x : spec_float) :
  signed true x -> gt x PI_MULT_2 = false.
Proof.
  rewrite Fraction.PI_MULT_2_value.
  destruct x as [s|s| |s m e]; intros H; try contradiction;
    cbn [signed] in H; subst; reflexivity.
Qed.

Lemma signed_false_not_negative (x : spec_float) :
  signed false x -> lt x zero = false.
Proof.
  destruct x as [s|s| |s m e]; intros H; try contradiction;
    cbn [signed] in H; subst; reflexivity.
Qed.

End Reach.

(** ** Sequences of calls on angles below 2^32 *)

Section Runs.

Variable T : format.
Variable Degree : Z.

(** What the way taken says of the tests of lines 102-134. *)
Lemma taken_fast (o : t) (angle : spec_float) :
  match taken T o angle with
  | Kept => m_hasValidPreviousAngle o = true
  | Up => m_hasValidPreviousAngle o = true /\
          gt (fast_angleShort T o angle) PI_MULT_2 = true
  | Down => m_hasValidPreviousAngle o = true /\
            lt (fast_angleShort T o angle) zero = true
  | Slow => True
  end.
Proof.
  unfold taken. destruct (m_hasValidPreviousAngle o); [|exact I].
  destruct (gt (fast_diff T o angle) zero).
  - destruct (gt (fast_angleShort T o angle) PI_MULT_2) eqn:G;
      [|reflexivity].
    destruct (le (fast_angleShort T o angle) PI_MULT_4);
      [split; reflexivity|exact I].
  - destruct (lt (fast_angleShort T o angle) zero) eqn:G; [|reflexivity].
    destruct (ge (fast_angleShort T o angle) (SFopp PI_MULT_2));
      [split; reflexivity|exact I].
Qed.

(** With a cache in step and an angle below [2 ^ 32], the count is
    incremented only from below [2 ^ 30] and decremented only from above
    [- 2 ^ 30]. *)
Lemma count_stays_within_reach (o : t) (angle : spec_float) :
  product_cached o ->
  magnitude_below 32 (widen T angle) = true ->
  (gt (fast_angleShort T o angle) PI_MULT_2 = true ->
   m_previousFullCyckles o < 2 ^ 30) /\
  (lt (fast_angleShort T o angle) zero = true ->
   - 2 ^ 30 < m_previousFullCyckles o).
Proof.
  intros [I P] M. unfold fast_angleShort. rewrite P.
  pose proof (Bounds.at_most_finite _ _
                (SlowPath.product_at_most _ I)) as F.
  split; intros G.
  - destruct (Z.lt_ge_cases (m_previousFullCyckles o) (2 ^ 30)) as [L|L];
      [exact L|exfalso].
    destruct (Reach.product_at_least _ I ltac:(lia)) as [A S].
    replace (m_previousFullCyckles o <? 0) with false in S
      by (symmetry; apply Z.ltb_ge; lia).
    pose proof (Reach.difference_signed false _ _ M A S F) as D.
    apply Reach.signed_true_not_above in D. congruence.
  - destruct (Z.lt_ge_cases (- 2 ^ 30) (m_previousFullCyckles o)) as [L|L];
      [exact L|exfalso].
    destruct (Reach.product_at_least _ I ltac:(lia)) as [A S].
    replace (m_previousFullCyckles o <? 0) with true in S
      by (symmetry; apply Z.ltb_lt; lia).
    pose proof (Reach.difference_signed true _ _ M A S F) as D.
    apply Reach.signed_false_not_negative in D. congruence.
Qed.

(** The reduction of an angle below [2 ^ 32] on an object within reach:
    it is defined, leaves the object within reach, and the reduced angle
    is at most [2 ^ 38] in magnitude. *)
Lemma reduce_within_reach (o : t) (angle : spec_float) :
  within_reach o ->
  magnitude_below 32 (widen T angle) = true ->
  exists o1 a,
    reduce T o angle = Returns (o1, a) /\
    product_cached o1 /\
    - 2 ^ 30 <= m_previousFullCyckles o1 <= 2 ^ 30 /\
    at_most 38 a.
Proof.
  intros J M.
  assert (W : at_most 32 (widen T angle))
    by (apply Bounds.magnitude_below_at_most, M).
  assert (A : forall n, in_int n = true ->
              at_most 38 (dsub (widen T angle)
                            (dmul (int_to_double n) PI_MULT_2))).
  { intros n I.
    apply (Chain.dsub_bound 32 36 38 _ _ W (SlowPath.product_at_most n I));
      lia. }
  pose proof (taken_fast o angle) as K.
  pose proof (reduce_by_path T o angle) as R.
  change (2 ^ 30) with 1073741824 in *.
  destruct (taken T o angle) eqn:E.
  - destruct (J K) as [[I P] B].
    exists o, (fast_angleShort T o angle).
    split; [exact R|]. split; [split; assumption|]. split; [exact B|].
    unfold fast_angleShort. rewrite P. apply A, I.
  - destruct K as [V G]. destruct (J V) as [PC B].
    destruct (count_stays_within_reach o angle PC M) as [U _].
    specialize (U G). change (2 ^ 30) with 1073741824 in U.
    assert (N : incr (m_previousFullCyckles o)
                = Returns (m_previousFullCyckles o + 1)).
    { unfold incr, INT_MAX. change (2 ^ 31) with 2147483648.
      destruct (Z.ltb_spec (m_previousFullCyckles o) (2147483648 - 1));
        [reflexivity|lia]. }
    rewrite N in R. cbn [bind] in R.
    assert (I : in_int (m_previousFullCyckles o + 1) = true).
    { apply in_int_bounds. unfold INT_MIN, INT_MAX.
      change (2 ^ 31) with 2147483648. lia. }
    eexists. eexists. split; [exact R|].
    split; [split; [exact I|reflexivity]|].
    split; [cbn [m_previousFullCyckles]; lia|apply A, I].
  - destruct K as [V G]. destruct (J V) as [PC B].
    destruct (count_stays_within_reach o angle PC M) as [_ D].
    specialize (D G). change (2 ^ 30) with 1073741824 in D.
    assert (N : decr (m_previousFullCyckles o)
                = Returns (m_previousFullCyckles o - 1)).
    { unfold decr, INT_MIN. change (2 ^ 31) with 2147483648.
      destruct (Z.ltb_spec (- (2147483648)) (m_previousFullCyckles o));
        [reflexivity|lia]. }
    rewrite N in R. cbn [bind] in R.
    assert (I : in_int (m_previousFullCyckles o - 1) = true).
    { apply in_int_bounds. unfold INT_MIN, INT_MAX.
      change (2 ^ 31) with 2147483648. lia. }
    eexists. eexists. split; [exact R|].
    split; [split; [exact I|reflexivity]|].
    split; [cbn [m_previousFullCyckles]; lia|apply A, I].
  - destruct (slow_path_below_2_32 T o angle E M)
      as (n & D & I & B & R' & A3).
    eexists. eexists. split; [exact R'|].
    split; [split; [exact I|reflexivity]|].
    split; [exact B|].
    apply (Bounds.at_most_weaken 3 38); [lia|exact A3].
Qed.

Lemma call_within_reach (o : t) (angle : spec_float) :
  within_reach o ->
  magnitude_below 32 (widen T angle) = true ->
  Degree = 7 \/ Degree = 9 ->
  exists o' v,
    call T Degree o angle = Returns (o', v) /\ within_reach o'.
Proof.
  intros J M HD.
  destruct (reduce_within_reach o angle J M) as (o1 & a & R & PC & B & A).
  destruct (call_after_reduce T Degree o angle) as [CR _].
  rewrite (CR _ _ R).
  match goal with |- context [evaluate T Degree ?s ?x ?y] =>
    destruct (evaluate_Returns T Degree s x y HD) as [v E] end.
  rewrite E. cbn [bind]. eexists. exists v.
  split; [reflexivity|].
  intros _. destruct PC as [I P]. split; [split|]; assumption.
Qed.

(** X8: a fresh object is within reach, and every angle that is finite
    and below [2 ^ 32] in magnitude keeps the object within reach: in a
    sequence of such angles every call is defined.  In particular the
    count never overflows, however many turns the angles walk through. *)
Theorem X8_runs_below_2_32_defined (o : t) (angles : list spec_float) :
  within_reach o ->
  Forall (fun angle => magnitude_below 32 (widen T angle) = true) angles ->
  Degree = 7 \/ Degree = 9 ->
  exists o', run T Degree o angles = Returns o' /\ within_reach o'.
Proof.
  intros J F HD. revert o J.
  induction F as [|angle rest M F IH]; intros o J.
  - exists o. split; [reflexivity|exact J].
  - destruct (call_within_reach o angle J M HD) as (o1 & v & C & J1).
    destruct (IH o1 J1) as (o' & R & J').
    exists o'. split; [|exact J'].
    cbn [run]. rewrite C. cbn [bind fst]. exact R.
Qed.

(** X9: with [T = double], a call on an object within reach with an angle
    below [2 ^ 32] returns a finite number, on the fast path as on the
    slow one. *)
Theorem X9_double_value_finite (o o' : t) (angle v : spec_float) :
  T = binary64 ->
  within_reach o ->
  magnitude_below 32 (widen T angle) = true ->
  call T Degree o angle = Returns (o', v) ->
  is_finite v = true.
Proof.
  intros HT J M H.
  destruct (reduce_within_reach o angle J M) as (o1 & a & R & _ & _ & A).
  destruct (call_after_reduce T Degree o angle) as [CR _].
  rewrite (CR _ _ R) in H. apply bind_Returns in H.
  destruct H as (v' & E & H). apply Returns_inj in H.
  assert (V : v = v') by (symmetry; exact (f_equal snd H)).
  rewrite V. clear H V. revert E. rewrite HT. intros E.
  exact (Chain.evaluate_finite binary64 971 SlowPath.double_prec_pos
           Chain.double_emin Chain.double_emax ltac:(lia) Degree 38 a v'
           ltac:(lia) ltac:(lia) A E).
Qed.

(** X10: the cached product is never an infinity or a NaN: after any
    sequence of completed calls, whatever the angles, the count is an
    [int] and its product with [PI_MULT_2] is finite, so that the
    difference the fast block forms with it is infinite only for an
    infinite angle. *)
Theorem X10_cached_product_finite
  (o o' : t) (angles : list spec_float) :
  (m_hasValidPreviousAngle o = true -> product_cached o) ->
  run T Degree o angles = Returns o' ->
  m_hasValidPreviousAngle o' = true ->
  in_int (m_previousFullCyckles o') = true /\
  is_finite (m_previousFullCycklesAngle o') = true.
Proof.
  intros J R V.
  destruct (run_product_cached T Degree angles o o' J R V) as [I P].
  split; [exact I|]. rewrite P.
  exact (Bounds.at_most_finite 36 _ (SlowPath.product_at_most _ I)).
Qed.

End Runs.

(** ** Angles that are not numbers, and repeated angles *)

Section Edges.

Variable T : format.
Variable Degree : Z.

Lemma widen_not_finite (x : spec_float) :
  is_finite x = false -> widen T x = x.
Proof.
  unfold widen, cast. destruct (format_eqb T binary64); [reflexivity|].
  destruct x; try reflexivity. discriminate 1.
Qed.

Lemma quotient_not_finite (x : spec_float) :
  is_finite x = false -> truncate (quotient T x) = None.
Proof.
  intros H. unfold quotient. rewrite (widen_not_finite x H).
  rewrite Fraction.PI_MULT_2_value.
  destruct x as [s|s| |s m e]; try discriminate H; reflexivity.
Qed.

Lemma slow_not_finite (o : t) (angle : spec_float) :
  taken T o angle = Slow -> is_finite angle = false ->
  call T Degree o angle = Undefined FloatToIntOutOfRange.
Proof.
  intros K H. apply call_after_reduce.
  rewrite reduce_by_path, K. unfold double_to_int.
  rewrite (quotient_not_finite angle H). reflexivity.
Qed.

(** X1: an infinity or a NaN passed to an object whose flag is down, a
    fresh one in particular, reaches the conversion to [int] of line 140. *)
Theorem X1_not_finite_on_fresh (o : t) (angle : spec_float) :
  m_hasValidPreviousAngle o = false -> is_finite angle = false ->
  call T Degree o angle = Undefined FloatToIntOutOfRange.
Proof.
  intros V H. apply slow_not_finite; [|exact H].
  unfold taken. rewrite V. reflexivity.
Qed.

(** X2: an infinity passed to an object with a valid cache and finite cached
    values leaves both windows of the fast block, and the slow block
    converts an infinite quotient to [int]. *)
Theorem X2_infinity_on_valid_cache (o : t) (s : bool) :
  m_hasValidPreviousAngle o = true ->
  is_finite (m_previousAngle o) = true ->
  is_finite (m_previousFullCycklesAngle o) = true ->
  taken T o (S754_infinity s) = Slow /\
  call T Degree o (S754_infinity s) = Undefined FloatToIntOutOfRange.
Proof.
  intros V P C.
  assert (K : taken T o (S754_infinity s) = Slow).
  { unfold taken, fast_diff, fast_angleShort. rewrite V.
    rewrite (widen_not_finite (S754_infinity s) eq_refl).
    assert (D : sub T (S754_infinity s) (m_previousAngle o)
                = S754_infinity s).
    { destruct (m_previousAngle o); try discriminate P; reflexivity. }
    assert (A : dsub (S754_infinity s) (m_previousFullCycklesAngle o)
                = S754_infinity s).
    { destruct (m_previousFullCycklesAngle o); try discriminate C;
        reflexivity. }
    rewrite D, A, (widen_not_finite (S754_infinity s) eq_refl).
    destruct s; vm_compute; reflexivity. }
  split; [exact K|]. apply slow_not_finite; [exact K|reflexivity].
Qed.

Lemma times_nan_l (x : spec_float) : dmul S754_nan x = S754_nan.
Proof. destruct x; reflexivity. Qed.

Lemma times_nan_r (x : spec_float) : dmul x S754_nan = S754_nan.
Proof. destruct x; reflexivity. Qed.

Lemma minus_nan_l (F : format) (x : spec_float) : sub F S754_nan x = S754_nan.
Proof. destruct x; reflexivity. Qed.

Lemma minus_nan_r (F : format) (x : spec_float) : sub F x S754_nan = S754_nan.
Proof. destruct x; reflexivity. Qed.

Lemma evaluate_nan (sign x2 : spec_float) :
  Degree = 7 \/ Degree = 9 ->
  evaluate T Degree sign S754_nan x2 = Returns S754_nan.
Proof.
  intros [-> | ->]; unfold evaluate; cbn [Z.eqb Pos.eqb];
    rewrite times_nan_r, times_nan_l;
    unfold narrow, cast; destruct (format_eqb binary64 T); reflexivity.
Qed.

(** X3: a NaN passed to an object with a valid cache goes through the fast
    block without a change of the count, and the value returned is a NaN;
    the NaN becomes the previous angle, after which [diff] is a NaN for
    every angle, so that the next call takes the branch of the angles that
    have not increased. *)
Theorem X3_nan_on_valid_cache (o : t) :
  m_hasValidPreviousAngle o = true -> Degree = 7 \/ Degree = 9 ->
  taken T o S754_nan = Kept /\
  call T Degree o S754_nan
    = Returns (Build true S754_nan (m_previousFullCyckles o)
                 (m_previousFullCycklesAngle o), S754_nan) /\
  forall angle,
    gt (fast_diff T
          (Build true S754_nan (m_previousFullCyckles o)
             (m_previousFullCycklesAngle o)) angle) zero = false.
Proof.
  intros V HD.
  assert (W : widen T S754_nan = S754_nan)
    by (apply widen_not_finite; reflexivity).
  assert (A : fast_angleShort T o S754_nan = S754_nan).
  { unfold fast_angleShort. rewrite W. apply (minus_nan_l binary64). }
  assert (K : taken T o S754_nan = Kept).
  { unfold taken. rewrite V, A. unfold fast_diff.
    rewrite minus_nan_l, W. reflexivity. }
  split; [exact K|]. split.
  - destruct (call_after_reduce T Degree o S754_nan) as [CR _].
    rewrite (CR o S754_nan).
    + replace (fold S754_nan) with (S754_nan, one) by reflexivity.
      cbn [fst snd]. rewrite (evaluate_nan one _ HD). reflexivity.
    + rewrite reduce_by_path, K, A. reflexivity.
  - intros angle. unfold fast_diff. cbn [m_previousAngle].
    rewrite minus_nan_r, W. reflexivity.
Qed.

(** The difference of a number and itself is a zero, or a NaN. *)
Lemma minus_itself (F : format) (x : spec_float) :
  gt (sub F x x) zero = false /\ is_finite (sub F x x) = is_finite x.
Proof.
  destruct x as [s|s| |s m e]; try (destruct s; split; reflexivity).
  - split; reflexivity.
  - unfold sub. cbn [SFsub]. rewrite Z.sub_diag. split; reflexivity.
Qed.

Lemma widen_not_positive (x : spec_float) :
  gt x zero = false -> gt (widen T x) zero = false.
Proof.
  intros G. unfold widen, cast. destruct (format_eqb T binary64); [exact G|].
  destruct x as [s|s| |s m e]; try exact G.
  destruct s; [|discriminate G]. cbn [round]. unfold binary_round.
  destruct (shl_align m e _) as [mz ez].
  unfold binary_round_aux.
  destruct (shr_fexp _ _ (Zpos mz) ez loc_Exact) as [mrs' e'].
  destruct (shr_fexp _ _ _ e' loc_Exact) as [mrs'' e''].
  destruct (shr_m mrs''); try reflexivity.
  destruct (e'' <=? _); reflexivity.
Qed.

(** X4: the angle of the previous call passed once more, when its difference
    with the cached product is not negative, leaves the object as it is:
    the count is kept and nothing is written but the same previous
    angle. *)
Theorem X4_previous_angle_again (o : t) (angle : spec_float) :
  m_hasValidPreviousAngle o = true -> m_previousAngle o = angle ->
  lt (fast_angleShort T o angle) zero = false ->
  Degree = 7 \/ Degree = 9 ->
  taken T o angle = Kept /\
  exists v, call T Degree o angle = Returns (o, v).
Proof.
  intros V P A HD.
  assert (K : taken T o angle = Kept).
  { unfold taken. rewrite V, A. unfold fast_diff. rewrite P.
    rewrite (widen_not_positive _ (proj1 (minus_itself T angle))).
    reflexivity. }
  split; [exact K|].
  destruct (call_after_reduce T Degree o angle) as [CR _].
  rewrite (CR o (fast_angleShort T o angle));
    [|rewrite reduce_by_path, K; reflexivity].
  destruct (evaluate_Returns T Degree
              (snd (fold (fast_angleShort T o angle)))
              (fst (fold (fast_angleShort T o angle)))
              (dmul (fst (fold (fast_angleShort T o angle)))
                 (fst (fold (fast_angleShort T o angle)))) HD) as [v ->].
  exists v. cbn [bind]. f_equal. f_equal. clear K CR A.
  destruct o as [f p c a].
  cbn [m_hasValidPreviousAngle m_previousAngle] in V, P.
  unfold set_previous.
  cbn [m_previousFullCyckles m_previousFullCycklesAngle].
  rewrite V, P. reflexivity.
Qed.

End Edges.

(** ** The test of the source

    The angles of the loop of lines 171-173 against the domain of the
    operator. *)

Module Sweep.

(** The quotient by a positive [double] with a full mantissa. *)
Lemma ddiv_at_most (N K : Z) (x : spec_float) (m2 : positive) (e2 : Z) :
  at_most N x ->
  Zpos (digits2_pos m2) = 53 ->
  N - e2 - 52 < K -> -1074 < K -> K <= 971 ->
  at_most K (ddiv x (S754_finite false m2 e2)).
Proof.
  intros Hx D2 HK K1 K2.
  destruct x as [s|s| |s m e]; try contradiction; [exact I|].
  destruct Hx as [M E].
  unfold ddiv, div. cbn [SFdiv prec emax binary64].
  unfold SFdiv_core_binary.
  set (d1 := Zdigits2 (Zpos m)).
  assert (D1 : d1 <= N - e + 1).
  { apply Magnitude.digits_bound; [|lia]. split; [lia|].
    rewrite Z.pow_add_r by lia. change (2 ^ 1) with 2.
    assert (0 < 2 ^ (N - e)) by (apply Z.pow_pos_nonneg; lia). lia. }
  change (Zdigits2 (Zpos m2)) with (Zpos (digits2_pos m2)). rewrite D2.
  set (e' := Z.min (fexp 53 1024 (d1 + e - (53 + e2))) (e - e2)).
  assert (E' : e' <= e - e2 /\ e' < K).
  { subst e'. unfold fexp, emin. lia. }
  set (m' := match e - e2 - e' with
             | 0 => Zpos m
             | Zpos _ => Z.shiftl (Zpos m) (e - e2 - e')
             | Zneg _ => 0
             end).
  assert (M' : m' = Zpos m * 2 ^ (e - e2 - e')).
  { subst m'. destruct (e - e2 - e') as [|p|p] eqn:S; [lia| |lia].
    apply Z.shiftl_mul_pow2. lia. }
  clearbody m'.
  pose proof (Magnitude.digits_lower m2) as L2. rewrite D2 in L2.
  change (2 ^ (53 - 1)) with (2 ^ 52) in L2.
  assert (P52 : 0 < 2 ^ 52) by reflexivity.
  pose proof (Z.div_eucl_eq m' (Zpos m2)) as Q.
  pose proof (Z.mod_pos_bound m' (Zpos m2)) as R.
  unfold Z.modulo in R.
  destruct (Z.div_eucl m' (Zpos m2)) as [q r].
  specialize (Q ltac:(lia)). specialize (R ltac:(lia)).
  apply (Magnitude.binary_round_aux_at_most 53 1024 ltac:(lia));
    [|lia|unfold emin; lia|lia].
  assert (P : 0 < 2 ^ (e - e2 - e')) by (apply Z.pow_pos_nonneg; lia).
  assert (B : m' < 2 ^ 52 * 2 ^ (K - e')).
  { rewrite M'. rewrite <- Z.pow_add_r by lia.
    apply Z.le_lt_trans with (2 ^ (N - e) * 2 ^ (e - e2 - e')).
    - apply Z.mul_le_mono_nonneg_r; lia.
    - rewrite <- Z.pow_add_r by lia. apply Z.pow_lt_mono_r; lia. }
  assert (P2 : 0 < 2 ^ (K - e')) by (apply Z.pow_pos_nonneg; lia).
  assert (M0 : 0 <= m') by (rewrite M'; lia).
  set (X := 2 ^ (K - e')) in *. set (Y := 2 ^ 52) in *.
  split; nia.
Qed.

Lemma at_most_magnitude_below (N : Z) (x : spec_float) :
  at_most N x -> magnitude_below (N + 1) x = true.
Proof.
  destruct x as [s|s| |s m e]; try contradiction; [reflexivity|].
  intros [M E]. cbn [magnitude_below]. apply Z.leb_le.
  assert (D : Zdigits2 (Zpos m) <= N - e + 1).
  { apply Magnitude.digits_bound; [|lia]. split; [lia|].
    rewrite Z.pow_add_r by lia. change (2 ^ 1) with 2.
    assert (0 < 2 ^ (N - e)) by (apply Z.pow_pos_nonneg; lia). lia. }
  cbn [Zdigits2] in D. lia.
Qed.

Lemma magnitude_below_weaken (N M : Z) (x : spec_float) :
  N <= M -> magnitude_below N x = true -> magnitude_below M x = true.
Proof.
  intros L. destruct x as [s|s| |s m e]; trivial.
  cbn [magnitude_below]. rewrite !Z.leb_le. lia.
Qed.

(** The angles of the test of the source are at most 1024 in
    magnitude. *)
Lemma sweep_at_most (i : Z) :
  - 3610000000 <= i <= 3610000000 -> at_most 10 (sweep i).
Proof.
  intros H. unfold sweep.
  assert (T : of_Z binary64 10000000
              = S754_finite false 5368709120000000 (-29))
    by (vm_compute; reflexivity).
  rewrite T.
  apply (ddiv_at_most 32); [|reflexivity|lia|lia|lia].
  unfold of_Z.
  apply (Bounds.binary_normalize_at_most binary64 SlowPath.double_prec_pos);
    [|lia|reflexivity|intros C; discriminate C].
  change (2 ^ (32 - 0)) with 4294967296. lia.
Qed.

Lemma sweep_within_domain (T : format) (i : Z) :
  T = binary32 \/ T = binary64 ->
  - 3610000000 <= i <= 3610000000 ->
  magnitude_below 32 (widen T (narrow T (sweep i))) = true.
Proof.
  intros HT H.
  assert (G : 0 < prec T /\ emin (prec T) (emax T) <= 0 /\
              104 <= emax T - prec T).
  { destruct HT as [-> | ->]; repeat split; intros C; discriminate C. }
  destruct G as (G1 & G2 & G3).
  apply (magnitude_below_weaken 13 32); [lia|].
  apply (at_most_magnitude_below 12).
  apply (Chain.widen_bound T 11 12); [|lia..].
  apply (Chain.narrow_bound T 104 G1 G2 G3 10 11); [|lia..].
  apply sweep_at_most, H.
Qed.

End Sweep.

(** ** The four quadrants, and the two paths compared *)

Module Quadrants.

Lemma thresholds_value :
  PI_DIV_2 = S754_finite false 7074237752028440 (-52) /\
  FAST_SIN_PI = S754_finite false 7074237752028440 (-51) /\
  PI_MULT_3_DIV_2 = S754_finite false 5305678314021330 (-50) /\
  PI_MULT_2 = S754_finite false 7074237752028440 (-50).
Proof. repeat split; vm_compute; reflexivity. Qed.

(** A valid positive [double] has at most 53 bits, and exactly 53 above
    the least exponent. *)
Lemma valid_mantissa (s : bool) (m : positive) (e : Z) :
  valid_binary 53 1024 (S754_finite s m e) = true ->
  Zpos m < 2 ^ 53 /\ (-1074 < e -> 2 ^ 52 <= Zpos m).
Proof.
  cbn [valid_binary]. unfold bounded, canonical_mantissa, fexp, emin.
  intros H. apply andb_true_iff in H. destruct H as [H _].
  apply Z.eqb_eq in H.
  pose proof (Magnitude.digits_upper m) as U.
  pose proof (Magnitude.digits_lower m) as L.
  assert (P : 0 < Zpos (digits2_pos m)) by lia.
  split.
  - apply Z.lt_le_trans with (1 := U). apply Z.pow_le_mono_r; lia.
  - intros E. apply Z.le_trans with (2 := L).
    apply Z.pow_le_mono_r; lia.
Qed.

(** The order of two positive numbers, read on their mantissas brought
    to the lower of the two exponents. *)
Lemma le_aligned (m1 m2 : positive) (e1 e2 : Z) :
  le (S754_finite false m1 e1) (S754_finite false m2 e2) = true ->
  Zpos m1 < 2 ^ 53 -> 2 ^ 52 <= Zpos m2 ->
  Zpos m1 * 2 ^ (e1 - Z.min e1 e2) <= Zpos m2 * 2 ^ (e2 - Z.min e1 e2).
Proof.
  intros H M1 M2. apply Order.le_rank in H.
  destruct H as (a & b & Ha & Hb & L).
  injection Ha as <-. injection Hb as <-. cbn [OrderKey.lex_le] in L.
  destruct L as [L|[_ [L|[-> L]]]]; [lia| |].
  - replace (Z.min e1 e2) with e1 by lia.
    replace (e1 - e1) with 0 by lia. change (2 ^ 0) with 1.
    assert (P : 2 ^ 1 <= 2 ^ (e2 - e1)) by (apply Z.pow_le_mono_r; lia).
    change (2 ^ 1) with 2 in P.
    change (2 ^ 53) with (2 * 2 ^ 52) in M1.
    set (X := 2 ^ 52) in *. set (Y := 2 ^ (e2 - e1)) in *. nia.
  - rewrite Z.min_id, Z.sub_diag. change (2 ^ 0) with 1. lia.
Qed.

Lemma lt_aligned (m1 m2 : positive) (e1 e2 : Z) :
  lt (S754_finite false m1 e1) (S754_finite false m2 e2) = true ->
  Zpos m1 < 2 ^ 53 -> (e1 < e2 -> 2 ^ 52 <= Zpos m2) ->
  Zpos m1 * 2 ^ (e1 - Z.min e1 e2) <= Zpos m2 * 2 ^ (e2 - Z.min e1 e2).
Proof.
  intros H M1 M2. apply Order.lt_rank in H.
  destruct H as (a & b & Ha & Hb & L).
  injection Ha as <-. injection Hb as <-. cbn [OrderKey.lex_lt] in L.
  destruct L as [L|[_ [L|[-> L]]]]; [lia| |].
  - specialize (M2 L).
    replace (Z.min e1 e2) with e1 by lia.
    replace (e1 - e1) with 0 by lia. change (2 ^ 0) with 1.
    assert (P : 2 ^ 1 <= 2 ^ (e2 - e1)) by (apply Z.pow_le_mono_r; lia).
    change (2 ^ 1) with 2 in P.
    change (2 ^ 53) with (2 * 2 ^ 52) in M1.
    set (X := 2 ^ 52) in *. set (Y := 2 ^ (e2 - e1)) in *. nia.
  - rewrite Z.min_id, Z.sub_diag. change (2 ^ 0) with 1. lia.
Qed.

(** The difference of two positive numbers is not negative when the
    mantissas are so ordered. *)
Lemma difference_not_negative (m1 m2 : positive) (e1 e2 : Z) :
  Zpos m1 * 2 ^ (e1 - Z.min e1 e2) <= Zpos m2 * 2 ^ (e2 - Z.min e1 e2) ->
  lt (dsub (S754_finite false m2 e2) (S754_finite false m1 e1)) zero
    = false.
Proof.
  intros H. unfold dsub, sub. cbn [SFsub cond_Zopp].
  change (IntDef.Z.min e2 e1) with (Z.min e2 e1).
  apply Fraction.binary_normalize_not_negative.
  rewrite !Fraction.shl_align_value by lia.
  rewrite (Z.min_comm e2 e1). lia.
Qed.

End Quadrants.

(** X14: the folding never makes a reduced angle negative: for every
    valid [double] that is not below 0, the angle handed to the
    polynomial is not below 0 either, whichever of the four cases
    applies, so the sign of the result is that of [sign]. *)
Theorem X14_folded_angle_not_negative (a : spec_float) :
  valid_binary 53 1024 a = true ->
  lt a zero = false ->
  lt (fst (fold a)) zero = false.
Proof.
  intros V N.
  destruct Quadrants.thresholds_value as (E1 & E2 & E3 & E4).
  unfold fold. rewrite E1, E2, E3, E4.
  destruct a as [s|s| |s m e];
    try (destruct s; try discriminate N; reflexivity); [reflexivity|].
  destruct s; [discriminate N|].
  destruct (Quadrants.valid_mantissa false m e V) as [M1 M2].
  match goal with |- context [gt ?x ?c && le ?x ?d] =>
    destruct (gt x c && le x d) eqn:C1 end; cbn [fst].
  { apply andb_true_iff in C1. destruct C1 as [_ L].
    apply Quadrants.difference_not_negative.
    apply (Quadrants.le_aligned _ _ _ _ L M1).
    intros C; discriminate C. }
  match goal with |- context [gt ?x ?c && le ?x ?d] =>
    destruct (gt x c && le x d) eqn:C2 end; cbn [fst].
  { apply andb_true_iff in C2. destruct C2 as [G _].
    apply Quadrants.difference_not_negative.
    apply (Quadrants.lt_aligned _ _ _ _ G); [reflexivity|].
    intros L. apply M2. lia. }
  match goal with |- context [gt ?x ?c && le ?x ?d] =>
    destruct (gt x c && le x d) eqn:C3 end; cbn [fst].
  { apply andb_true_iff in C3. destruct C3 as [_ L].
    apply Quadrants.difference_not_negative.
    apply (Quadrants.le_aligned _ _ _ _ L M1).
    intros C; discriminate C. }
  reflexivity.
Qed.

Section Independence.

Variable T : format.
Variable Degree : Z.

(** X11: when the fast block gives up, nothing of the cache is left in
    the result: two objects on which an angle takes the slow path, a used
    one and a fresh one say, return the same value and are left in the
    same state. *)
Theorem X11_slow_path_ignores_cache (o1 o2 : t) (angle : spec_float) :
  taken T o1 angle = Slow -> taken T o2 angle = Slow ->
  call T Degree o1 angle = call T Degree o2 angle.
Proof.
  intros K1 K2.
  rewrite (call_on_slow_path T Degree o1 angle K1).
  rewrite (call_on_slow_path T Degree o2 angle K2).
  reflexivity.
Qed.

Lemma minus_zero (x : spec_float) : dsub x zero = x.
Proof. destruct x as [s|s| |s m e]; try destruct s; reflexivity. Qed.

(** X12: while the count is 0 and the cached product is [+0.0], as after
    a first angle in the first turn, an angle between 0 and [2 pi] is
    handed to the folding as it is, whichever way it moved: the fast path
    subtracts zero and does not round, where the slow path divides and
    multiplies by [2 pi]. *)
Theorem X12_first_turn_exact (o : t) (angle : spec_float) :
  m_hasValidPreviousAngle o = true ->
  m_previousFullCycklesAngle o = zero ->
  lt (widen T angle) zero = false ->
  gt (widen T angle) PI_MULT_2 = false ->
  taken T o angle = Kept /\
  reduce T o angle = Returns (o, widen T angle).
Proof.
  intros V P L G.
  assert (A : fast_angleShort T o angle = widen T angle).
  { unfold fast_angleShort. rewrite P. apply minus_zero. }
  assert (K : taken T o angle = Kept).
  { unfold taken. rewrite V, A, L, G.
    destruct (gt (fast_diff T o angle) zero); reflexivity. }
  split; [exact K|].
  rewrite reduce_by_path, K, A. reflexivity.
Qed.

(** X13: the test of the source is within the domain: the angles
    [i / 10000000.0] of its loop, [i] from -3610000000 to 3610000000, are
    below [2 ^ 32], so every call of a sequence of them, in any order, on
    a fresh [FastSin<float>] or [FastSin<double>] is defined. *)
Theorem X13_sweep_runs_defined (o : t) (steps : list Z) :
  T = binary32 \/ T = binary64 ->
  Degree = 7 \/ Degree = 9 ->
  within_reach o ->
  Forall (fun i => - 3610000000 <= i <= 3610000000) steps ->
  exists o',
    run T Degree o (map (fun i => narrow T (sweep i)) steps) = Returns o' /\
    within_reach o'.
Proof.
  intros HT HD J F. revert o J.
  induction F as [|i rest H F IH]; intros o J.
  - exists o. split; [reflexivity|exact J].
  - pose proof (Sweep.sweep_within_domain T i HT H) as M.
    destruct (call_within_reach T Degree o _ J M HD) as (o1 & v & C & J1).
    destruct (IH o1 J1) as (o' & R & J').
    exists o'. split; [|exact J'].
    cbn [map run]. rewrite C. cbn [bind fst]. exact R.
Qed.

End Independence.

(** ** The turn of the slow path

    Rounding does not carry the reduced angle of the slow path past the
    end of its turn. *)

Module Turn.






End Turn.

Module Mirror.




End Mirror.

Section Turns.

Variable T : format.


End Turns.

(** ** The count as a [double] *)

(** X16: an [int] converted to [double] (lines 113, 127 and 141) and
    back (line 140) is the same [int], and the [double] has exactly its
    value: the count loses nothing on its way into the cached product. *)
Theorem X16_count_round_trip (n : Z) :
  in_int n = true ->
  double_to_int (int_to_double n) = Returns n /\
  (to_Q (int_to_double n) == inject_Z n)%Q.
Proof.
  intros I. pose proof I as B. apply in_int_bounds in B.
  unfold INT_MIN, INT_MAX in B.
  destruct (Z.eq_dec n 0) as [->|N]; [split; reflexivity|].
  assert (E : exists k, int_to_double n
                        = binary_round 53 1024 (n <? 0) k 0 /\
                        n = cond_Zopp (n <? 0) (Zpos k)).
  { destruct n as [|k|k]; [lia| |]; exists k; split; reflexivity. }
  destruct E as (k & -> & K).
  assert (Bk : Zpos k <= 2 ^ 31).
  { destruct (n <? 0); cbn [cond_Zopp] in K; lia. }
  destruct (SlowPath.of_int_exact (n <? 0) k Bk) as (m & e & -> & Ee & Em).
  assert (P : 0 < 2 ^ (- e)) by (apply Z.pow_pos_nonneg; lia).
  split.
  - unfold double_to_int. cbn [truncate].
    rewrite Z.shiftl_div_pow2 by lia. rewrite Em, Z.div_mul by lia.
    rewrite <- K, I. reflexivity.
  - unfold to_Q. destruct e as [|p|p]; try lia.
    unfold Qeq. cbn [Qnum Qden inject_Z].
    rewrite Pos2Z.inj_pow. rewrite K at 2.
    change (- Zneg p) with (Zpos p) in Em.
    destruct (n <? 0); cbn [cond_Zopp]; lia.
Qed.

(** ** Valid numbers

    What the rounding returns is a number of the format, with a mantissa
    of the precision at its exponent; so is the reduced angle. *)

Module Valid.

Lemma digits_ge (m k : Z) : 0 < m -> 2 ^ (k - 1) <= m -> k <= Zdigits2 m.
Proof.
  intros M H. destruct m as [|p|p]; try lia. cbn [Zdigits2].
  pose proof (Magnitude.digits_upper p) as U.
  destruct (Z.le_gt_cases k (Zpos (digits2_pos p))) as [?|G]; [assumption|].
  assert (2 ^ Zpos (digits2_pos p) <= 2 ^ (k - 1))
    by (apply Z.pow_le_mono_r; lia).
  lia.
Qed.

Lemma digits_pos (m : Z) : 0 < m -> 0 < Zdigits2 m.
Proof. destruct m; cbn [Zdigits2]; lia. Qed.

Lemma digits_bounds (m : Z) :
  0 < m -> 2 ^ (Zdigits2 m - 1) <= m < 2 ^ Zdigits2 m.
Proof.
  intros M. destruct m as [|p|p]; try lia. cbn [Zdigits2].
  split; [apply Magnitude.digits_lower|apply Magnitude.digits_upper].
Qed.

(** The number of bits of a quotient by a power of two. *)
Lemma digits_div (m s : Z) :
  0 <= s -> 2 ^ s <= m -> Zdigits2 (m / 2 ^ s) = Zdigits2 m - s.
Proof.
  intros S H. assert (P : 0 < 2 ^ s) by (apply Z.pow_pos_nonneg; lia).
  assert (M : 0 < m) by lia.
  destruct (digits_bounds m M) as [L U].
  pose proof (digits_pos m M) as D.
  assert (SD : s < Zdigits2 m).
  { destruct (Z.lt_ge_cases s (Zdigits2 m)) as [?|G]; [assumption|].
    assert (2 ^ Zdigits2 m <= 2 ^ s) by (apply Z.pow_le_mono_r; lia).
    lia. }
  assert (Q : 0 < m / 2 ^ s) by (apply Z.div_str_pos; lia).
  apply Z.le_antisymm.
  - apply Magnitude.digits_bound; [|lia]. split; [lia|].
    apply Z.div_lt_upper_bound; [exact P|].
    rewrite <- Z.pow_add_r by lia.
    replace (s + (Zdigits2 m - s)) with (Zdigits2 m) by lia. exact U.
  - apply digits_ge; [exact Q|].
    apply Z.div_le_lower_bound; [exact P|].
    rewrite <- Z.pow_add_r by lia.
    replace (s + (Zdigits2 m - s - 1)) with (Zdigits2 m - 1) by lia.
    exact L.
Qed.

Lemma digits_mono (a b : Z) : 0 < a -> a <= b -> Zdigits2 a <= Zdigits2 b.
Proof.
  intros A H. apply digits_ge; [lia|].
  destruct (digits_bounds a A) as [L _]. lia.
Qed.

Lemma digits_succ (a b : Z) :
  0 < a -> 0 <= b <= a + 1 -> Zdigits2 b <= Zdigits2 a + 1.
Proof.
  intros A H. destruct (digits_bounds a A) as [_ U].
  pose proof (digits_pos a A) as D.
  apply Magnitude.digits_bound; [|lia]. split; [lia|].
  rewrite Z.pow_add_r by lia. change (2 ^ 1) with 2. lia.
Qed.

Section Format.

Variables prec emax : Z.
Hypothesis prec_pos : 0 < prec.

(** A value with enough bits for its exponent is rounded to a valid
    number. *)
Lemma binary_round_aux_valid (s : bool) (m e : Z) (l : location) :
  0 < m -> e <= fexp prec emax (Zdigits2 m + e) ->
  valid_binary prec emax (binary_round_aux prec emax s m e l) = true.
Proof.
  intros M E. unfold binary_round_aux.
  destruct (Magnitude.shr_fexp_spec prec emax m e l ltac:(lia))
    as (s1 & S0 & S1 & S2 & S3).
  destruct (shr_fexp prec emax m e l) as [mrs' e'].
  cbn [fst snd] in S1, S3. subst e'.
  set (d := Zdigits2 m) in *.
  pose proof (digits_pos m M) as D0. fold d in D0.
  destruct (digits_bounds m M) as [DL DU]. fold d in DL, DU.
  assert (P1 : 0 < 2 ^ s1) by (apply Z.pow_pos_nonneg; lia).
  assert (E1 : e + s1 = fexp prec emax (d + e)) by lia.
  pose proof (Magnitude.round_nearest_even_le (shr_m mrs')
                (loc_of_shr_record mrs')) as R.
  set (m2 := round_nearest_even (shr_m mrs') (loc_of_shr_record mrs')) in *.
  assert (M1 : 0 <= shr_m mrs') by (rewrite S3; apply Z.div_pos; lia).
  destruct (Magnitude.shr_fexp_spec prec emax m2 (e + s1) loc_Exact
              ltac:(lia)) as (s2 & T0 & T1 & T2 & T3).
  destruct (shr_fexp prec emax m2 (e + s1) loc_Exact) as [mrs'' e''].
  cbn [fst snd] in T1, T3. subst e''.
  assert (P2 : 0 < 2 ^ s2) by (apply Z.pow_pos_nonneg; lia).
  assert (K : 0 < shr_m mrs'' ->
              fexp prec emax (Zdigits2 (shr_m mrs'') + (e + s1 + s2))
              = e + s1 + s2).
  { intros Q.
    assert (M2 : 0 < m2).
    { destruct (Z.lt_ge_cases 0 m2) as [?|G]; [assumption|exfalso].
      rewrite T3 in Q. replace m2 with 0 in Q by lia.
      rewrite Z.div_0_l in Q by lia. lia. }
    destruct (Z.eq_dec (shr_m mrs') 0) as [Z1|Z1].
    - (* everything was shifted out and the rounding gave one unit *)
      assert (m2 = 1) by lia.
      assert (F : e + s1 = emin prec emax).
      { rewrite S3 in Z1. apply Z.div_small_iff in Z1; [|lia].
        assert (d <= s1).
        { destruct (Z.le_gt_cases d s1) as [?|G]; [assumption|].
          assert (2 ^ s1 <= 2 ^ (d - 1)) by (apply Z.pow_le_mono_r; lia).
          lia. }
        unfold fexp in E1. lia. }
      assert (s2 = 0).
      { replace m2 with 1 in T2 by lia. cbn [Zdigits2 digits2_pos] in T2.
        unfold fexp in T2. lia. }
      rewrite T3. replace m2 with 1 by lia. replace s2 with 0 by lia.
      change (1 / 2 ^ 0) with 1. cbn [Zdigits2 digits2_pos].
      unfold fexp. lia.
    - assert (Q1 : 0 < shr_m mrs') by lia.
      assert (G1 : 2 ^ s1 <= m).
      { destruct (Z.le_gt_cases (2 ^ s1) m) as [?|G]; [assumption|exfalso].
        rewrite S3 in Q1. rewrite Z.div_small in Q1 by lia. lia. }
      assert (D1 : Zdigits2 (shr_m mrs') = d - s1).
      { rewrite S3. apply digits_div; assumption. }
      pose proof (digits_mono _ _ Q1 (proj1 R)) as Lo.
      pose proof (digits_succ _ m2 Q1 ltac:(lia)) as Hi.
      assert (G2 : 2 ^ s2 <= m2).
      { destruct (Z.le_gt_cases (2 ^ s2) m2) as [?|G]; [assumption|exfalso].
        rewrite T3 in Q. rewrite Z.div_small in Q by lia. lia. }
      rewrite T3, (digits_div m2 s2 T0 G2).
      replace (Zdigits2 m2 - s2 + (e + s1 + s2))
        with (Zdigits2 m2 + (e + s1)) by lia.
      assert (X : e + s1 <= fexp prec emax (Zdigits2 m2 + (e + s1))).
      { rewrite E1 at 1. unfold fexp. lia. }
      lia. }
  destruct (shr_m mrs'') as [|q|q] eqn:Q; [reflexivity| |reflexivity].
  destruct (Z.leb_spec (e + s1 + s2) (emax - prec)) as [B|B];
    [|reflexivity].
  cbn [valid_binary]. unfold bounded, canonical_mantissa.
  apply andb_true_iff. split; [|apply Z.leb_le; exact B].
  apply Z.eqb_eq. apply K. lia.
Qed.

Lemma binary_round_valid (s : bool) (m : positive) (e : Z) :
  valid_binary prec emax (binary_round prec emax s m e) = true.
Proof.
  unfold binary_round.
  set (f := fexp prec emax (Zpos (digits2_pos m) + e)).
  unfold shl_align. destruct (f - e) as [|p|p] eqn:E.
  - apply binary_round_aux_valid; [lia|]. cbn [Zdigits2]. fold f. lia.
  - apply binary_round_aux_valid; [lia|]. cbn [Zdigits2]. fold f. lia.
  - apply binary_round_aux_valid; [lia|]. cbn [Zdigits2].
    rewrite Fraction.iter_xO_digits, Pos2Z.inj_add.
    replace (Zpos (digits2_pos m) + Zpos p + f)
      with (Zpos (digits2_pos m) + e) by lia.
    fold f. lia.
Qed.

Lemma binary_normalize_valid (m e : Z) (sz : bool) :
  valid_binary prec emax (binary_normalize prec emax m e sz) = true.
Proof.
  destruct m; cbn [binary_normalize];
    [reflexivity|apply binary_round_valid|apply binary_round_valid].
Qed.

Lemma SFsub_valid (x y : spec_float) :
  valid_binary prec emax x = true -> valid_binary prec emax y = true ->
  valid_binary prec emax (SFsub prec emax x y) = true.
Proof.
  intros Hx Hy.
  destruct x as [sx|sx| |sx mx ex], y as [sy|sy| |sy my ey];
    try reflexivity; try assumption;
    try (destruct sx, sy; reflexivity).
  cbn [SFsub]. apply binary_normalize_valid.
Qed.

End Format.

(** A product with [PI_MULT_2] is a valid [double], whatever the other
    factor. *)
Lemma times_two_pi_valid (x : spec_float) :
  valid_binary 53 1024 (dmul x PI_MULT_2) = true.
Proof.
  rewrite Fraction.PI_MULT_2_value.
  destruct x as [s|s| |s m e]; try reflexivity.
  unfold dmul, mul. cbn [SFmul prec emax binary64].
  apply binary_round_aux_valid; [lia|lia|].
  assert (D : 53 <= Zdigits2 (Zpos (m * 7074237752028440))).
  { apply digits_ge; [lia|].
    pose proof Quotient.PI_MULT_2_mantissa as PM.
    change (2 ^ (53 - 1)) with (2 ^ 52). rewrite Pos2Z.inj_mul. nia. }
  unfold fexp. lia.
Qed.

End Valid.

Section Validity.

Variable T : format.

(** X17: the reduced angle is a valid [double] on each of the four ways
    through the reduction, for a valid angle and a cache in step. *)
Theorem X17_reduced_angle_valid (o o1 : t) (angle a : spec_float) :
  (m_hasValidPreviousAngle o = true -> product_cached o) ->
  valid_binary 53 1024 (widen T angle) = true ->
  reduce T o angle = Returns (o1, a) ->
  valid_binary 53 1024 a = true.
Proof.
  intros J W R.
  assert (S : forall n, valid_binary 53 1024
                (dsub (widen T angle) (dmul (int_to_double n) PI_MULT_2))
              = true).
  { intros n. apply (Valid.SFsub_valid 53 1024 ltac:(lia));
      [exact W|apply Valid.times_two_pi_valid]. }
  pose proof (taken_fast T o angle) as K.
  rewrite reduce_by_path in R.
  destruct (taken T o angle).
  - apply Returns_inj in R.
    assert (Ea : a = fast_angleShort T o angle)
      by (symmetry; exact (f_equal snd R)).
    destruct (J K) as [_ P]. rewrite Ea. unfold fast_angleShort.
    rewrite P. apply S.
  - destruct (incr (m_previousFullCyckles o)) as [n|f]; [|discriminate R].
    cbn [bind] in R. apply Returns_inj in R.
    pose proof (f_equal snd R) as Ea. cbn [snd] in Ea. rewrite <- Ea.
    apply S.
  - destruct (decr (m_previousFullCyckles o)) as [n|f]; [|discriminate R].
    cbn [bind] in R. apply Returns_inj in R.
    pose proof (f_equal snd R) as Ea. cbn [snd] in Ea. rewrite <- Ea.
    apply S.
  - destruct (double_to_int (quotient T angle)) as [n|f]; [|discriminate R].
    cbn [bind] in R. apply Returns_inj in R.
    pose proof (f_equal snd R) as Ea. cbn [snd] in Ea. rewrite <- Ea.
    apply Valid.times_two_pi_valid.
Qed.

End Validity.

(** ** The theorems on examples *)

(** X1 on an infinite angle passed to a fresh [FastSin<double, 7>]. *)
Lemma X1_not_finite_on_fresh_witness :
  call binary64 7 at_rest (S754_infinity false)
    = Undefined FloatToIntOutOfRange.
Proof.
  apply (X1_not_finite_on_fresh binary64 7 at_rest (S754_infinity false));
    reflexivity.
Defined.

(** X2 on the negative infinity passed after the angle 0.0. *)
Lemma X2_infinity_on_valid_cache_witness :
  taken binary64 after_zero (S754_infinity true) = Slow /\
  call binary64 9 after_zero (S754_infinity true)
    = Undefined FloatToIntOutOfRange.
Proof.
  apply (X2_infinity_on_valid_cache binary64 9 after_zero true);
    reflexivity.
Defined.

(** X3 on a NaN passed after the angle 2 pi. *)
Lemma X3_nan_on_valid_cache_witness :
  taken binary64 after_turn S754_nan = Kept /\
  call binary64 7 after_turn S754_nan
    = Returns (Build true S754_nan 0 zero, S754_nan) /\
  forall angle,
    gt (fast_diff binary64 (Build true S754_nan 0 zero) angle) zero = false.
Proof.
  apply (X3_nan_on_valid_cache binary64 7 after_turn);
    [reflexivity|left; reflexivity].
Defined.

(** X4 on the angle 2 pi passed a second time. *)
Lemma X4_previous_angle_again_witness :
  taken binary64 after_turn PI_MULT_2 = Kept /\
  exists v, call binary64 9 after_turn PI_MULT_2 = Returns (after_turn, v).
Proof.
  apply (X4_previous_angle_again binary64 9 after_turn PI_MULT_2);
    [reflexivity|reflexivity|vm_compute; reflexivity|right; reflexivity].
Defined.

(** X5 on the angle -5.0 passed to a fresh [FastSin<double, 7>]. *)
Lemma X5_defined_below_2_32_witness :
  exists n a v,
    reduce binary64 at_rest minus_five
      = Returns (Build false (m_previousAngle at_rest) n
                   (dmul (int_to_double n) PI_MULT_2), a) /\
    call binary64 7 at_rest minus_five
      = Returns (Build true minus_five n
                   (dmul (int_to_double n) PI_MULT_2), v) /\
    - 2 ^ 30 <= n <= 2 ^ 30 /\
    is_finite a = true /\ (Qabs (to_Q a) <= 8)%Q.
Proof.
  apply (X5_defined_below_2_32 binary64 7 at_rest minus_five);
    [reflexivity|vm_compute; reflexivity|left; reflexivity].
Defined.

(** X6 on the angle -5.0 passed to a fresh [FastSin<double, 7>]: the
    value returned is about 4.30. *)
Lemma X6_negative_angle_not_folded_witness :
  m_previousFullCyckles (Build true minus_five 0 zero) <= 0 /\
  exists a,
    reduce binary64 at_rest minus_five
      = Returns (Build false (m_previousAngle at_rest)
                   (m_previousFullCyckles (Build true minus_five 0 zero))
                   (m_previousFullCycklesAngle
                      (Build true minus_five 0 zero)), a) /\
    gt a zero = false /\
    fold a = (a, one) /\
    S754_finite false 4842630644004226 (-50)
      = narrow binary64 (dmul (dmul one a) (horner binary64 7 (dmul a a))).
Proof.
  apply (X6_negative_angle_not_folded binary64 7 at_rest
           (Build true minus_five 0 zero) minus_five
           (S754_finite false 4842630644004226 (-50)));
    [reflexivity|vm_compute; reflexivity|vm_compute; reflexivity].
Defined.

(** X7 on the [float] 1.0 passed to a fresh [FastSin<float, 9>]. *)
Lemma X7_value_finite_below_2_32_witness :
  is_finite (S754_finite false 14117540 (-24)) = true.
Proof.
  apply (X7_value_finite_below_2_32 binary32 9 at_rest
           (Build true one_f 0 zero) one_f
           (S754_finite false 14117540 (-24)));
    [reflexivity|vm_compute; reflexivity|left; reflexivity
    |vm_compute; reflexivity].
Defined.

(** X8 on the angles 0.0, 2 pi and 4 pi passed in turn to a fresh
    [FastSin<double, 7>]; the third call increments the count. *)
Lemma X8_runs_below_2_32_defined_witness :
  exists o',
    run binary64 7 at_rest [zero; PI_MULT_2; PI_MULT_4] = Returns o' /\
    within_reach o'.
Proof.
  apply (X8_runs_below_2_32_defined binary64 7 at_rest
           [zero; PI_MULT_2; PI_MULT_4]).
  - intros H. discriminate H.
  - repeat constructor.
  - left. reflexivity.
Defined.

(** X9 on the angle 2 pi passed after 0.0 to a [FastSin<double, 9>]: the
    fast path keeps the count and the value returned is a zero. *)
Lemma X9_double_value_finite_witness :
  is_finite (S754_zero true) = true.
Proof.
  apply (X9_double_value_finite binary64 9 after_zero after_turn PI_MULT_2
           (S754_zero true)).
  - reflexivity.
  - intros _. split; [split; reflexivity|]. split; intros C; discriminate C.
  - vm_compute. reflexivity.
  - vm_compute. reflexivity.
Defined.

(** X10 on the angles 0.0, 2 pi and 4 pi passed in turn to a fresh
    [FastSin<double, 7>]. *)
Lemma X10_cached_product_finite_witness :
  in_int (m_previousFullCyckles (Build true PI_MULT_4 1 PI_MULT_2)) = true /\
  is_finite (m_previousFullCycklesAngle (Build true PI_MULT_4 1 PI_MULT_2))
    = true.
Proof.
  apply (X10_cached_product_finite binary64 7 at_rest
           (Build true PI_MULT_4 1 PI_MULT_2) [zero; PI_MULT_2; PI_MULT_4]).
  - intros H. discriminate H.
  - vm_compute. reflexivity.
  - reflexivity.
Defined.

(** X11 on the angle -1024.0 passed to an object that has counted one
    turn, and to a fresh one. *)
Lemma X11_slow_path_ignores_cache_witness :
  call binary64 7 (Build true PI_MULT_4 1 PI_MULT_2) (S754_finite true 1 10)
  = call binary64 7 at_rest (S754_finite true 1 10).
Proof.
  apply (X11_slow_path_ignores_cache binary64 7
           (Build true PI_MULT_4 1 PI_MULT_2) at_rest
           (S754_finite true 1 10));
    [vm_compute; reflexivity|reflexivity].
Defined.

(** X12 on the angle 1.0 passed after the angle 0.0. *)
Lemma X12_first_turn_exact_witness :
  taken binary64 after_zero (sweep 10000000) = Kept /\
  reduce binary64 after_zero (sweep 10000000)
    = Returns (after_zero, widen binary64 (sweep 10000000)).
Proof.
  apply (X12_first_turn_exact binary64 after_zero (sweep 10000000));
    [reflexivity|reflexivity|vm_compute; reflexivity|vm_compute; reflexivity].
Defined.

(** X13 on the two ends and the middle of the sweep, passed to a fresh
    [FastSin<float, 9>]. *)
Lemma X13_sweep_runs_defined_witness :
  exists o',
    run binary32 9 at_rest
      (map (fun i => narrow binary32 (sweep i))
         [-3610000000; 0; 3610000000]) = Returns o' /\
    within_reach o'.
Proof.
  apply (X13_sweep_runs_defined binary32 9 at_rest
           [-3610000000; 0; 3610000000]).
  - left. reflexivity.
  - right. reflexivity.
  - intros H. discriminate H.
  - repeat constructor; intros C; discriminate C.
Defined.

(** X14 on the reduced angle 3.0, which the second case folds to
    [pi - 3.0]. *)
Lemma X14_folded_angle_not_negative_witness :
  lt (fst (fold (of_Z binary64 3))) zero = false.
Proof.
  apply (X14_folded_angle_not_negative (of_Z binary64 3));
    vm_compute; reflexivity.
Defined.


(** X16 on the least [int]. *)
Lemma X16_count_round_trip_witness :
  double_to_int (int_to_double INT_MIN) = Returns INT_MIN /\
  (to_Q (int_to_double INT_MIN) == inject_Z INT_MIN)%Q.
Proof. apply (X16_count_round_trip INT_MIN). reflexivity. Defined.

(** X17 on the angle -5.0 passed to a fresh [FastSin<double>]. *)
Lemma X17_reduced_angle_valid_witness :
  valid_binary 53 1024 (S754_finite true 5629499534213120 (-50)) = true.
Proof.
  apply (X17_reduced_angle_valid binary64 at_rest
           (Build false zero 0 zero) minus_five
           (S754_finite true 5629499534213120 (-50)));
    [intros H; discriminate H|vm_compute; reflexivity
    |vm_compute; reflexivity].
Defined.
